(** * URL reputation lookups: normalisation, feed cache and aggregation

    A shallow embedding of [src/server/osint.js] and the properties its
    specification states about it.

    Text is a list of bytes: the UTF-8 encoding of the JavaScript string.
    Every function of the platform that the code calls ([String.prototype.trim],
    [toLowerCase], the [URL] class, [encodeURIComponent]) is modelled next to
    the place it is first needed.  What the [URL] class does with a host that
    holds Unicode or an IPv6 address is not modelled but taken from the
    platform as it is: see [Platform]. *)

From Stdlib Require Import Ascii String ZArith NArith Lia List Bool.
From stdpp Require Import base option list gmap strings.

Local Open Scope char_scope.
Local Open Scope list_scope.

(** ** Text *)

Abbreviation str := (list ascii).

(** A literal of the source. *)
Definition lit (s : string) : str := list_ascii_of_string s.

Module Text.

Definition code (c : ascii) : N := N_of_ascii c.

Definition in_range (lo hi : N) (c : ascii) : bool :=
  (lo <=? code c)%N && (code c <=? hi)%N.

Definition is_upper : ascii -> bool := in_range 65 90.
Definition is_lower : ascii -> bool := in_range 97 122.
Definition is_digit : ascii -> bool := in_range 48 57.
Definition is_alpha (c : ascii) : bool := is_upper c || is_lower c.
Definition is_alnum (c : ascii) : bool := is_alpha c || is_digit c.
Definition is_ascii (c : ascii) : bool := (code c <? 128)%N.

(** [toLowerCase], on the ASCII letters.  The source applies it to a
    serialised URL and to a host name, which are ASCII, and to a response
    body that is then compared with ["true"]: no character outside ASCII
    lower-cases to one of t, r, u, e. *)
Definition lower_char (c : ascii) : ascii :=
  if is_upper c then ascii_of_N (code c + 32) else c.

Definition toLowerCase (s : str) : str := map lower_char s.

(** White space of ECMAScript ([WhiteSpace] and [LineTerminator]), which
    [trim] removes and [\s] matches.  [ws_len s] is the number of bytes of
    the white-space character at the head of [s], 0 when there is none. *)
Definition is_ws1 (c : ascii) : bool :=
  match c with
  | "009" | "010" | "011" | "012" | "013" | " " => true
  | _ => false
  end.

Definition ws_len (s : str) : nat :=
  match s with
  | c :: r =>
      if is_ws1 c then 1
      else match code c, r with
           | 194%N, c2 :: _ => if (code c2 =? 160)%N then 2 else 0
           | 225%N, c2 :: c3 :: _ =>
               if (code c2 =? 154)%N && (code c3 =? 128)%N then 3 else 0
           | 226%N, c2 :: c3 :: _ =>
               if (code c2 =? 128)%N
                  && (in_range 128 138 c3 || in_range 168 169 c3
                      || (code c3 =? 175)%N)
               then 3
               else if (code c2 =? 129)%N && (code c3 =? 159)%N then 3
               else 0
           | 227%N, c2 :: c3 :: _ =>
               if (code c2 =? 128)%N && (code c3 =? 128)%N then 3 else 0
           | 239%N, c2 :: c3 :: _ =>
               if (code c2 =? 187)%N && (code c3 =? 191)%N then 3 else 0
           | _, _ => 0
           end
  | [] => 0
  end.

(** The same test at the end of a text, on the reversed bytes. *)
Definition ws_len_rev (s : str) : nat :=
  match s with
  | c :: r =>
      if is_ws1 c then 1
      else match r with
           | c2 :: r2 =>
               if (ws_len [c2; c] =? 2)%nat then 2
               else match r2 with
                    | c3 :: _ => if (ws_len [c3; c2; c] =? 3)%nat then 3 else 0
                    | [] => 0
                    end
           | [] => 0
           end
  | [] => 0
  end.

Fixpoint strip_with (len : str -> nat) (fuel : nat) (s : str) : str :=
  match fuel with
  | O => s
  | S fuel' =>
      match len s with
      | O => s
      | n => strip_with len fuel' (drop n s)
      end
  end.

Definition trimStart (s : str) : str := strip_with ws_len (length s) s.
Definition trimEnd (s : str) : str :=
  rev (strip_with ws_len_rev (length s) (rev s)).
Definition trim (s : str) : str := trimEnd (trimStart s).

Definition starts_with (p s : str) : bool := bool_decide (take (length p) s = p).

(** [s.endsWith("/")] and [s.slice(0, -1)]. *)
Definition ends_with_slash (s : str) : bool :=
  match last s with Some "/" => true | _ => false end.
Definition drop_last (s : str) : str := take (length s - 1) s.

(** Membership of a character in a list of character codes. *)
Definition one_of (l : list N) (c : ascii) : bool := existsb (N.eqb (code c)) l.

(** The longest prefix free of [p], and what follows it. *)
Fixpoint break (p : ascii -> bool) (s : str) : str * str :=
  match s with
  | [] => ([], [])
  | c :: r => if p c then ([], s) else let '(a, b) := break p r in (c :: a, b)
  end.

(** Strict splitting on the characters of [p]: never the empty list. *)
Fixpoint split_on (p : ascii -> bool) (s : str) : list str :=
  match s with
  | [] => [[]]
  | c :: r =>
      if p c then [] :: split_on p r
      else match split_on p r with
           | h :: t => (c :: h) :: t
           | [] => [[c]]
           end
  end.

Fixpoint drop_while (p : ascii -> bool) (s : str) : str :=
  match s with
  | [] => []
  | c :: r => if p c then drop_while p r else s
  end.

Definition is_char (x : ascii) (c : ascii) : bool := bool_decide (c = x).

End Text.

(** ** The platform's [URL] class

    [new URL(s)], [url.hash = ''], [url.toString()] and [url.hostname] are not
    code of the repository: they are modelled here from the WHATWG URL
    standard (basic URL parser without a base URL, URL serializer, host parser,
    IPv4 parser and serializer, percent-encode sets), for the schemes [http]
    and [https], the only ones [normalizeUrl] ever passes.

    Three things are not modelled and are what the platform makes them:
    - [unicode_to_ascii]: Unicode ToASCII of UTS 46 with the flags of the
      standard's domain to ASCII ([beStrict] false), on the UTF-8 bytes of a
      domain that holds a byte above 127 or a label that starts with [xn--];
      [None] is its failure.  On every other domain the standard makes
      ToASCII the ASCII lower-casing, which is modelled;
    - [ipv6_address]: the IPv6 parser followed by the IPv6 serializer, on the
      text between the brackets of a host; [None] is the parser's failure;
    - [caret_in_path_set]: whether the path percent-encode set holds [^],
      which the standard added in 2023. *)
Class Platform : Type := {
  unicode_to_ascii : str -> option str;
  ipv6_address : str -> option str;
  caret_in_path_set : bool
}.

Module URL.
Import Text.

(** An IPv6 address is held as its serialisation, without the brackets. *)
Inductive Host : Type :=
| Domain (d : str)
| IPv4 (a : N)
| IPv6 (a : str).

Record t : Type := mk {
  scheme : str;
  username : str;
  password : str;
  host : Host;
  port : option N;
  path : list str;
  query : option str;
  fragment : option str
}.

(** *** Percent-encode sets and percent-encoding *)

Definition c0_control_set (c : ascii) : bool :=
  (code c <? 32)%N || (126 <? code c)%N.
(* space, double quote, <, >, backquote *)
Definition fragment_set (c : ascii) : bool :=
  c0_control_set c || one_of [32; 34; 60; 62; 96]%N c.
(* space, double quote, #, <, > *)
Definition query_set (c : ascii) : bool :=
  c0_control_set c || one_of [32; 34; 35; 60; 62]%N c.
(* and the single quote *)
Definition special_query_set (c : ascii) : bool :=
  query_set c || one_of [39]%N c.
(* and ?, backquote, {, }, and ^ where the platform has it *)
Definition path_set_with (caret : bool) (c : ascii) : bool :=
  query_set c || one_of [63; 96; 123; 125]%N c || caret && one_of [94]%N c.
(* and /, :, ;, =, @, [, \, ], ^, | *)
Definition userinfo_set (c : ascii) : bool :=
  path_set_with true c || one_of [47; 58; 59; 61; 64; 91; 92; 93; 124]%N c.

Section WithPlatform.
Context {pf : Platform}.

Definition path_set : ascii -> bool := path_set_with caret_in_path_set.

Definition hex_digit (n : N) : ascii :=
  if (n <? 10)%N then ascii_of_N (48 + n) else ascii_of_N (55 + n).

Definition percent_encode_byte (c : ascii) : str :=
  ["%"; hex_digit (code c / 16); hex_digit (code c mod 16)].

Definition percent_encode (set : ascii -> bool) (s : str) : str :=
  flat_map (fun c => if set c then percent_encode_byte c else [c]) s.

Definition hex_val (c : ascii) : option N :=
  if is_digit c then Some (code c - 48)%N
  else if in_range 65 70 c then Some (code c - 55)%N
  else if in_range 97 102 c then Some (code c - 87)%N
  else None.

Fixpoint percent_decode (s : str) : str :=
  match s with
  | [] => []
  | c :: r =>
      if ascii_dec c "%" then
        match r with
        | h :: l :: r' =>
            match hex_val h, hex_val l with
            | Some a, Some b => ascii_of_N (16 * a + b) :: percent_decode r'
            | _, _ => c :: percent_decode r
            end
        | _ => c :: percent_decode r
        end
      else c :: percent_decode r
  end.

(** *** Numbers *)

Fixpoint uint_digits (d : Decimal.uint) : str :=
  match d with
  | Decimal.Nil => []
  | Decimal.D0 d => "0" :: uint_digits d
  | Decimal.D1 d => "1" :: uint_digits d
  | Decimal.D2 d => "2" :: uint_digits d
  | Decimal.D3 d => "3" :: uint_digits d
  | Decimal.D4 d => "4" :: uint_digits d
  | Decimal.D5 d => "5" :: uint_digits d
  | Decimal.D6 d => "6" :: uint_digits d
  | Decimal.D7 d => "7" :: uint_digits d
  | Decimal.D8 d => "8" :: uint_digits d
  | Decimal.D9 d => "9" :: uint_digits d
  end.

(** The shortest decimal numeral of [n]. *)
Definition decimal (n : N) : str := uint_digits (N.to_uint n).

(** The value of [s] in radix [r], [None] when a character is not a digit
    of that radix. *)
Definition parse_radix (r : N) (s : str) : option N :=
  foldl (fun acc c =>
           match acc, hex_val c with
           | Some n, Some d => if (d <? r)%N then Some (n * r + d)%N else None
           | _, _ => None
           end) (Some 0%N) s.

(** *** IPv4 *)

Definition ipv4_number (s : str) : option N :=
  match s with
  | [] => None
  | "0" :: x :: r =>
      if bool_decide (x = "x") || bool_decide (x = "X")
      then parse_radix 16 r
      else parse_radix 8 (x :: r)
  | _ => parse_radix 10 s
  end.

Definition drop_last_empty (parts : list str) : list str :=
  match last parts with
  | Some [] => if (1 <? length parts)%nat then removelast parts else parts
  | _ => parts
  end.

Definition ends_in_number (s : str) : bool :=
  let parts := split_on (is_char ".") s in
  match last parts with
  | Some [] =>
      if (length parts =? 1)%nat then false
      else match last (removelast parts) with
           | Some l =>
               (negb (bool_decide (l = [])) && forallb is_digit l)
               || bool_decide (is_Some (ipv4_number l))
           | None => false
           end
  | Some l =>
      (negb (bool_decide (l = [])) && forallb is_digit l)
      || bool_decide (is_Some (ipv4_number l))
  | None => false
  end.

Fixpoint ipv4_combine (numbers : list N) (counter : N) : N :=
  match numbers with
  | [] => 0
  | n :: rest => (n * 256 ^ (3 - counter) + ipv4_combine rest (counter + 1))%N
  end.

Definition ipv4_parse (s : str) : option N :=
  let parts := drop_last_empty (split_on (is_char ".") s) in
  if (4 <? length parts)%nat then None
  else
    match mapM ipv4_number parts with
    | None => None
    | Some numbers =>
        match last numbers with
        | None => None
        | Some l =>
            let front := removelast numbers in
            if existsb (fun n => 255 <? n)%N front then None
            else if (256 ^ (5 - N.of_nat (length numbers)) <=? l)%N then None
            else Some (l + ipv4_combine front 0)%N
        end
    end.

Definition ipv4_serialize (a : N) : str :=
  decimal (a / 16777216 mod 256) ++ "." ::
  decimal (a / 65536 mod 256) ++ "." ::
  decimal (a / 256 mod 256) ++ "." ::
  decimal (a mod 256).

(** *** Hosts *)

(* NUL, tab, LF, CR, space, #, /, :, <, >, ?, @, [, \, ], ^, | *)
Definition forbidden_host (c : ascii) : bool :=
  one_of [0; 9; 10; 13; 32; 35; 47; 58; 60; 62; 63; 64; 91; 92; 93; 94; 124]%N c.
(* and the C0 controls, %, DEL *)
Definition forbidden_domain (c : ascii) : bool :=
  forbidden_host c || (code c <? 32)%N || one_of [37; 127]%N c.

Definition xn_label (l : str) : bool :=
  starts_with (lit "xn--") (toLowerCase l).

(** The domains on which ToASCII is the ASCII lower-casing. *)
Definition plain_domain (d : str) : bool :=
  forallb is_ascii d && negb (existsb xn_label (split_on (is_char ".") d)).

(** Domain to ASCII with [beStrict] false; an empty result is a failure. *)
Definition domain_to_ascii (d : str) : option str :=
  match (if plain_domain d then Some (toLowerCase d) else unicode_to_ascii d) with
  | Some [] => None
  | result => result
  end.

(** The host parser, for a host that is not opaque. *)
Definition host_parse (input : str) : option Host :=
  match input with
  | "[" :: r =>
      match last r with
      | Some "]" => IPv6 <$> ipv6_address (removelast r)
      | _ => None
      end
  | _ =>
      match domain_to_ascii (percent_decode input) with
      | None => None
      | Some asciiDomain =>
          if existsb forbidden_domain asciiDomain then None
          else if ends_in_number asciiDomain
               then IPv4 <$> ipv4_parse asciiDomain
               else Some (Domain asciiDomain)
      end
  end.

Definition host_serialize (h : Host) : str :=
  match h with
  | Domain d => d
  | IPv4 a => ipv4_serialize a
  | IPv6 a => "[" :: a ++ ["]"]
  end.

(** *** The basic URL parser, for the special schemes [http] and [https] *)

Definition default_port (scheme : str) : option N :=
  if bool_decide (scheme = lit "http") then Some 80%N
  else if bool_decide (scheme = lit "https") then Some 443%N
  else None.

Definition is_c0_or_space (c : ascii) : bool := (code c <=? 32)%N.
Definition is_tab_or_newline (c : ascii) : bool := one_of [9; 10; 13]%N c.

(** Leading and trailing C0 controls and spaces go, then every tab and
    newline. *)
Definition preprocess (s : str) : str :=
  filter (fun c => is_tab_or_newline c = false)
    (rev (drop_while is_c0_or_space (rev (drop_while is_c0_or_space s)))).

(** Scheme start state and scheme state; without a base URL the no-scheme
    state is a failure. *)
Definition scheme_char (c : ascii) : bool := is_alnum c || one_of [43; 45; 46]%N c.

Definition parse_scheme (s : str) : option (str * str) :=
  match s with
  | c :: _ =>
      if is_alpha c then
        let '(buffer, rest) := break (fun c => negb (scheme_char c)) s in
        match rest with
        | ":" :: r => Some (toLowerCase buffer, r)
        | _ => None
        end
      else None
  | [] => None
  end.

Definition is_slash (c : ascii) : bool := one_of [47; 92]%N c.

(** Special authority slashes state, then special authority ignore slashes
    state. *)
Definition special_authority_slashes (s : str) : str :=
  match s with
  | "/" :: "/" :: r => drop_while is_slash r
  | _ => drop_while is_slash s
  end.

(* /, ?, #, \ *)
Definition is_authority_end (c : ascii) : bool := one_of [47; 63; 35; 92]%N c.

(** Credentials and the rest, around the last [@] of the authority. *)
Fixpoint split_last_at (s : str) : option (str * str) :=
  match s with
  | [] => None
  | c :: r =>
      match split_last_at r with
      | Some (a, b) => Some (c :: a, b)
      | None => if is_char "@" c then Some ([], r) else None
      end
  end.

(** Host state: up to the first [:] outside brackets. *)
Fixpoint host_span (insideBrackets : bool) (s : str) : str * str :=
  match s with
  | [] => ([], [])
  | c :: r =>
      if is_char ":" c && negb insideBrackets then ([], s)
      else
        let inside := if is_char "[" c then true
                      else if is_char "]" c then false
                      else insideBrackets in
        let '(a, b) := host_span inside r in (c :: a, b)
  end.

(** Port state, on what follows the [:] in the authority. *)
Definition parse_port (scheme : str) (buffer : str) : option (option N) :=
  if forallb is_digit buffer then
    match buffer with
    | [] => Some None
    | _ =>
        match parse_radix 10 buffer with
        | Some p =>
            if (65535 <? p)%N then None
            else if bool_decide (default_port scheme = Some p) then Some None
            else Some (Some p)
        | None => None
        end
    end
  else None.

(** Path segments. *)
Definition single_dot (buffer : str) : bool :=
  let b := toLowerCase buffer in
  bool_decide (b = lit ".") || bool_decide (b = lit "%2e").

Definition double_dot (buffer : str) : bool :=
  let b := toLowerCase buffer in
  bool_decide (b = lit "..") || bool_decide (b = lit ".%2e")
  || bool_decide (b = lit "%2e.") || bool_decide (b = lit "%2e%2e").

Definition shorten (path : list str) : list str := removelast path.

(** Path state: [segments] are the runs between slashes, the last one ends
    at the end of the input, at [?] or at [#]. *)
Fixpoint path_state (path : list str) (segments : list str) : list str :=
  match segments with
  | [] => path
  | s :: rest =>
      let buffer := percent_encode path_set s in
      match rest with
      | [] =>
          if double_dot buffer then shorten path ++ [[]]
          else if single_dot buffer then path ++ [[]]
          else path ++ [buffer]
      | _ =>
          path_state
            (if double_dot buffer then shorten path
             else if single_dot buffer then path
             else path ++ [buffer])
            rest
      end
  end.

(** Path start state onwards: path, query and fragment. *)
Definition parse_path_query_fragment (s : str)
  : list str * option str * option str :=
  let s1 := match s with
            | c :: r => if is_slash c then r else s
            | [] => []
            end in
  let '(p, rest) := break (fun c => one_of [63; 35]%N c) s1 in
  let path := path_state [] (split_on is_slash p) in
  match rest with
  | c :: r =>
      if is_char "?" c then
        let '(q, rest') := break (is_char "#") r in
        (path, Some (percent_encode special_query_set q),
         match rest' with
         | _ :: f => Some (percent_encode fragment_set f)
         | [] => None
         end)
      else (path, None, Some (percent_encode fragment_set r))
  | [] => (path, None, None)
  end.

(** [new URL(input)]: [None] is the [TypeError] it throws. *)
Definition parse (input : str) : option t :=
  '(scheme, r0) ← parse_scheme (preprocess input);
  _ ← default_port scheme;
  let '(authority, rest) := break is_authority_end (special_authority_slashes r0) in
  '(username, password, hostport) ←
    match split_last_at authority with
    | Some (credentials, hostport) =>
        match hostport with
        | [] => None
        | _ =>
            let '(u, p) := break (is_char ":") credentials in
            Some (percent_encode userinfo_set u,
                  percent_encode userinfo_set (tail p), hostport)
        end
    | None => Some ([], [], authority)
    end;
  let '(hostname, after) := host_span false hostport in
  match hostname with
  | [] => None
  | _ =>
      host ← host_parse hostname;
      port ← parse_port scheme (tail after);
      let '(path, query, fragment) := parse_path_query_fragment rest in
      Some (mk scheme username password host port path query fragment)
  end.

(** *** The URL serializer and the accessors the source uses *)

Definition serialize (u : t) : str :=
  scheme u ++ lit "://"
  ++ (if bool_decide (username u = []) && bool_decide (password u = []) then []
      else username u
           ++ (if bool_decide (password u = []) then [] else ":" :: password u)
           ++ lit "@")
  ++ host_serialize (host u)
  ++ match port u with Some p => ":" :: decimal p | None => [] end
  ++ flat_map (fun segment => "/" :: segment) (path u)
  ++ match query u with Some q => "?" :: q | None => [] end
  ++ match fragment u with Some f => "#" :: f | None => [] end.

(** [url.hash = '']. *)
Definition clear_hash (u : t) : t :=
  mk (scheme u) (username u) (password u) (host u) (port u) (path u) (query u) None.

(** [url.toString()]. *)
Definition toString (u : t) : str := serialize u.

(** [url.hostname]. *)
Definition hostname (u : t) : str := host_serialize (host u).

End WithPlatform.

End URL.

(** ** [normalizeUrl] *)

Import Text.

Section Code.
Context {pf : Platform}.

(** [/^https?:\/\//i.test(s)]. *)
Definition has_http_scheme (s : str) : bool :=
  let l := toLowerCase s in
  starts_with (lit "http://") l || starts_with (lit "https://") l.

Definition normalizeUrl (input : str) : option str :=
  match input with
  | [] => None
  | _ =>
      let trimmed := trim input in
      let candidate :=
        if has_http_scheme trimmed then trimmed else lit "https://" ++ trimmed in
      match URL.parse candidate with
      | Some url =>
          let url := URL.clear_hash url in
          let normalized := URL.toString url in
          let normalized :=
            if ends_with_slash normalized then drop_last normalized else normalized in
          Some (toLowerCase normalized)
      | None => None
      end
  end.


(** ** [extractUrlsFromText] *)

Definition dquote : ascii := ascii_of_N 34.

(** The class of the pattern: any character but white space, the two quotes
    and the angle brackets. *)
Definition token_char (s : str) : bool :=
  match s with
  | c :: _ => (ws_len s =? 0)%nat && negb (one_of [34; 39; 60; 62]%N c)
  | [] => false
  end.

(** The longest run of [token_char] at the head of [s]. *)
Fixpoint token_run (s : str) : str :=
  match s with
  | [] => []
  | c :: r => if token_char s then c :: token_run r else []
  end.

(** A match of the pattern that starts at the head of [s]: [http://],
    [https://] or [www.] in any case, then one or more characters of the
    class, as many as there are. *)
Definition match_at (s : str) : option str :=
  let l := toLowerCase s in
  let prefix :=
    if starts_with (lit "http://") l then Some 7
    else if starts_with (lit "https://") l then Some 8
    else if starts_with (lit "www.") l then Some 4
    else None in
  match prefix with
  | Some n =>
      match token_run (drop n s) with
      | [] => None
      | run => Some (take n s ++ run)
      end
  | None => None
  end.

(** [text.matchAll(regex)]: the matches from left to right; the search
    resumes where the last match ended ([skip] counts the characters of the
    current match that are still to be passed). *)
Fixpoint matchAll_from (skip : nat) (s : str) : list str :=
  match s with
  | [] => []
  | _ :: r =>
      match skip with
      | S k => matchAll_from k r
      | O =>
          match match_at s with
          | Some m => m :: matchAll_from (length m - 1) r
          | None => matchAll_from 0 r
          end
      end
  end.

Definition matchAll (text : str) : list str := matchAll_from 0 text.

(** [Set.prototype.add], on a set kept in insertion order. *)
Definition set_add (found : list str) (x : str) : list str :=
  if bool_decide (x ∈ found) then found else found ++ [x].

Definition extractUrlsFromText (text : str) : list str :=
  match text with
  | [] => []
  | _ =>
      foldl (fun found raw =>
               match normalizeUrl raw with
               | Some (c :: n) => set_add found (c :: n)
               | _ => found
               end) [] (matchAll text)
  end.

(** ** Constants *)

Definition PHISH_API : str := lit "https://phish.sinking.yachts/v2/check/".
Definition URLHAUS_FEED : str := lit "https://urlhaus.abuse.ch/downloads/csv_online/".
Definition URLHAUS_TTL_MS : Z := 15 * 60 * 1000.
Definition FETCH_TIMEOUT_MS : Z := 8000.
Definition MAX_TEXT_URLS : nat := 6.

(** ** The network, as the environment answers

    [fetchWithTimeout] either yields a response or rejects (network error,
    or the abort after [FETCH_TIMEOUT_MS]); which of the two, and when, is
    the environment's choice. *)

Inductive Settled (A : Type) : Type :=
| Fulfilled (value : A)
| Rejected (message : option str).
Arguments Fulfilled {A} value.
Arguments Rejected {A} message.

Record Response : Type := {
  status : N;
  text : Settled str
}.

(** [resp.ok]. *)
Definition resp_ok (r : Response) : bool :=
  (200 <=? status r)%N && (status r <=? 299)%N.

(** [x || fallback] on a string that may be [undefined]. *)
Definition or_else (x : option str) (fallback : str) : str :=
  match x with
  | Some (c :: s) => c :: s
  | _ => fallback
  end.

(** ** [UrlhausCache] *)

Record FeedEntry : Type := {
  url : str;
  threat : str;
  lastOnline : option str
}.

Record Snapshot : Type := {
  snap_urlMap : gmap str FeedEntry;
  snap_hostMap : gmap str (list FeedEntry);
  snap_refreshedAt : Z
}.

(** [loading] holds the promise of the [fetchFeed] invocation in flight,
    named by the number of the request that invocation issued. *)
Record UrlhausCache : Type := {
  lastFetched : Z;
  loading : option nat;
  urlMap : gmap str FeedEntry;
  hostMap : gmap str (list FeedEntry)
}.

Definition UrlhausCache_new : UrlhausCache :=
  {| lastFetched := 0; loading := None; urlMap := ∅; hostMap := ∅ |}.

(** The service and what surrounds it: the cache, the requests issued so far
    (oldest first), and the invocations of [fetchFeed] suspended at an
    [await]. *)
Record World : Type := {
  urlhaus : UrlhausCache;
  requests : list str;
  suspended : list nat
}.

Definition World_new : World :=
  {| urlhaus := UrlhausCache_new; requests := []; suspended := [] |}.

Definition isFresh (now : Z) (c : UrlhausCache) : bool :=
  (now - lastFetched c <? URLHAUS_TTL_MS)%Z.

Definition snapshot (c : UrlhausCache) : Snapshot :=
  {| snap_urlMap := urlMap c; snap_hostMap := hostMap c;
     snap_refreshedAt := lastFetched c |}.

(** [s.split(sep)] for a separator of at least one character. *)
Fixpoint split_sep_from (sep : str) (skip : nat) (s : str) : list str :=
  match s with
  | [] => [[]]
  | c :: r =>
      match skip with
      | S k => split_sep_from sep k r
      | O =>
          if starts_with sep s then [] :: split_sep_from sep (length sep - 1) r
          else match split_sep_from sep 0 r with
               | h :: t => (c :: h) :: t
               | [] => [[c]]
               end
      end
  end.

Definition split_sep (sep : str) (s : str) : list str := split_sep_from sep 0 s.

(** [s.replace(re, '')] for the pattern that matches a double quote at the
    start and a double quote at the end. *)
Definition strip_quotes (s : str) : str :=
  let s1 := match s with
            | c :: r => if bool_decide (c = dquote) then r else s
            | [] => []
            end in
  match last s1 with
  | Some c => if bool_decide (c = dquote) then drop_last s1 else s1
  | None => s1
  end.

(** [s.replace(/^www\./, '')]. *)
Definition strip_www (s : str) : str :=
  if starts_with (lit "www.") s then drop 4 s else s.

Definition feed_entry (normalizedUrl : str) (parts : list str) : FeedEntry :=
  {| url := normalizedUrl;
     threat := or_else (parts !! 5%nat) (lit "listed");
     lastOnline := match parts !! 4%nat with
                   | Some (c :: s) => Some (c :: s)
                   | _ => None
                   end |}.

(** One turn of the loop of [fetchFeed] over the lines of the feed. *)
Definition feed_line (maps : gmap str FeedEntry * gmap str (list FeedEntry))
    (line : str) : gmap str FeedEntry * gmap str (list FeedEntry) :=
  let '(nextUrlMap, nextHostMap) := maps in
  match line with
  | [] => maps
  | c :: _ =>
      if bool_decide (c = "#") then maps
      else
        let cleaned := strip_quotes (trim line) in
        let parts := split_sep [dquote; ","; dquote] cleaned in
        if (length parts <? 3)%nat then maps
        else
          match normalizeUrl (default [] (parts !! 2%nat)) with
          | Some (n0 :: n) =>
              let normalizedUrl := n0 :: n in
              let nextUrlMap :=
                <[normalizedUrl := feed_entry normalizedUrl parts]> nextUrlMap in
              match URL.parse normalizedUrl with
              | Some parsed =>
                  let host := toLowerCase (strip_www (URL.hostname parsed)) in
                  let existing := default [] (nextHostMap !! host) in
                  let existing :=
                    if (length existing <? 5)%nat
                    then existing ++ [feed_entry normalizedUrl parts]
                    else existing in
                  (nextUrlMap, <[host := existing]> nextHostMap)
              | None => (nextUrlMap, nextHostMap)
              end
          | _ => maps
          end
  end.

Definition feed_maps (text : str)
  : gmap str FeedEntry * gmap str (list FeedEntry) :=
  foldl feed_line (∅, ∅) (split_on (is_char "010") text).

(** [fetchFeed], up to its first [await]: the request goes out. *)
Definition fetchFeed_call (w : World) : nat * World :=
  let p := length (requests w) in
  (p, {| urlhaus := urlhaus w;
         requests := requests w ++ [URLHAUS_FEED];
         suspended := suspended w ++ [p] |}).

Definition with_loading (l : option nat) (c : UrlhausCache) : UrlhausCache :=
  {| lastFetched := lastFetched c; loading := l;
     urlMap := urlMap c; hostMap := hostMap c |}.

(** [fetchFeed], from its first [await] to its end, when the environment
    answers the request of invocation [p] with [answer] and the clock reads
    [now]: what its promise settles to, and the world it leaves. *)
Definition fetchFeed_resume (p : nat) (answer : Settled Response) (now : Z)
    (w : World) : Settled Snapshot * World :=
  let failed (message : option str) :=
    (Rejected message,
     {| urlhaus := with_loading None (urlhaus w);
        requests := requests w;
        suspended := filter (fun q => q ≠ p) (suspended w) |}) in
  match answer with
  | Rejected message => failed message
  | Fulfilled resp =>
      if negb (resp_ok resp)
      then failed (Some (lit "URLHaus responded with " ++ URL.decimal (status resp)))
      else
        match text resp with
        | Rejected message => failed message
        | Fulfilled body =>
            let '(nextUrlMap, nextHostMap) := feed_maps body in
            let c := {| lastFetched := now; loading := None;
                        urlMap := nextUrlMap; hostMap := nextHostMap |} in
            (Fulfilled (snapshot c),
             {| urlhaus := c;
                requests := requests w;
                suspended := filter (fun q => q ≠ p) (suspended w) |})
        end
  end.

(** What [load] hands to its caller: a snapshot at once, or the promise of
    the refresh in flight. *)
Inductive LoadResult : Type :=
| Ready (s : Snapshot)
| Pending (p : nat).

Definition load (now : Z) (w : World) : LoadResult * World :=
  if isFresh now (urlhaus w) then (Ready (snapshot (urlhaus w)), w)
  else
    match loading (urlhaus w) with
    | Some p => (Pending p, w)
    | None =>
        let '(p, w1) := fetchFeed_call w in
        (Pending p,
         {| urlhaus := with_loading (Some p) (urlhaus w1);
            requests := requests w1;
            suspended := suspended w1 |})
    end.

Inductive MatchType : Type := match_url | match_host.

Record MatchResult : Type := {
  entry : FeedEntry;
  matchType : MatchType
}.

Record CheckResult : Type := {
  check_source : str;
  refreshedAt : Z;
  listed : bool;
  matches : list MatchResult
}.

(** The [matches] array of [check] before it is sliced. *)
Definition all_matches (normalized hostKey : str) (s : Snapshot) : list MatchResult :=
  match snap_urlMap s !! normalized with
  | Some direct => [{| entry := direct; matchType := match_url |}]
  | None => []
  end
  ++ map (fun hit => {| entry := hit; matchType := match_host |})
       (default [] (snap_hostMap s !! hostKey)).

(** [check], up to [await this.load()]. *)
Definition check_call (inputUrl : str) (now : Z) (w : World)
  : Settled (str * str * LoadResult) * World :=
  match normalizeUrl inputUrl with
  | Some (n0 :: n) =>
      let normalized := n0 :: n in
      match URL.parse normalized with
      | Some parsed =>
          let hostKey := toLowerCase (strip_www (URL.hostname parsed)) in
          let '(r, w1) := load now w in
          (Fulfilled (normalized, hostKey, r), w1)
      | None => (Rejected (Some (lit "Invalid URL")), w)
      end
  | _ => (Rejected (Some (lit "Invalid URL")), w)
  end.

(** [check], from [await this.load()] on, when the load settles to
    [loaded]. *)
Definition check_resume (normalized hostKey : str) (loaded : Settled Snapshot)
  : Settled CheckResult :=
  match loaded with
  | Rejected message => Rejected message
  | Fulfilled s =>
      let matches := all_matches normalized hostKey s in
      Fulfilled {| check_source := lit "URLHaus (online feed)";
                   refreshedAt := snap_refreshedAt s;
                   listed := (0 <? length matches)%nat;
                   matches := take 5 matches |}
  end.

(** ** [OsintService] *)

(** [encodeURIComponent]: every byte but the unreserved characters (letters,
    digits and [- _ . ! ~ * ' ( )]) is percent-encoded. *)
Definition uri_unreserved (c : ascii) : bool :=
  is_alnum c || one_of [45; 95; 46; 33; 126; 42; 39; 40; 41]%N c.

Definition encodeURIComponent (s : str) : str :=
  URL.percent_encode (fun c => negb (uri_unreserved c)) s.

Record PhishResult : Type := {
  phish_source : str;
  flagged : bool
}.

(** [checkPhishFeed], up to its [await]: the number of the request it
    issued. *)
Definition checkPhishFeed_call (targetUrl : str) (w : World) : Settled nat * World :=
  match normalizeUrl targetUrl with
  | Some (n0 :: n) =>
      match URL.parse (n0 :: n) with
      | Some parsed =>
          let target := toLowerCase (URL.hostname parsed) in
          (Fulfilled (length (requests w)),
           {| urlhaus := urlhaus w;
              requests := requests w ++ [PHISH_API ++ encodeURIComponent target];
              suspended := suspended w |})
      | None => (Rejected (Some (lit "Invalid URL")), w)
      end
  | _ => (Rejected (Some (lit "Invalid URL")), w)
  end.

(** [checkPhishFeed], from its [await] on. *)
Definition checkPhishFeed_resume (answer : Settled Response) : Settled PhishResult :=
  match answer with
  | Rejected message => Rejected message
  | Fulfilled resp =>
      if negb (resp_ok resp)
      then Rejected (Some (lit "phish.sinking.yachts responded with "
                           ++ URL.decimal (status resp)))
      else
        match text resp with
        | Rejected message => Rejected message
        | Fulfilled body =>
            Fulfilled {| phish_source := lit "phish.sinking.yachts";
                         flagged := bool_decide (toLowerCase (trim body) = lit "true") |}
        end
  end.

(** A source of an inspection: its payload, or [{ source, error }]. *)
Inductive SourceResult (A : Type) : Type :=
| Payload (value : A)
| SourceError (source : str) (error : str).
Arguments Payload {A} value.
Arguments SourceError {A} source error.

Record Sources : Type := {
  phishFeed : SourceResult PhishResult;
  src_urlhaus : SourceResult CheckResult
}.

Inductive InspectionResult : Type :=
| Inspected (host normalizedUrl : str) (sources : Sources) (fetchedAt : Z)
| Invalid (error : str)
| Failed (error : str) (failed_url : str).

(** The [ok] field. *)
Definition ok (r : InspectionResult) : bool :=
  match r with
  | Inspected _ _ _ _ => true
  | _ => false
  end.

(** What the world outside settles: the answer to each request, by its
    number, and the value of the promise of each [fetchFeed] invocation. *)
Record Env : Type := {
  answer : nat -> Settled Response;
  refreshed : nat -> Settled Snapshot
}.

(** An invocation of [inspectUrl] once its synchronous part has run: it has
    returned, it has thrown, or it waits for its two lookups. *)
Inductive InspectCall : Type :=
| Returned (r : InspectionResult)
| Threw (message : option str)
| Awaiting (normalizedUrl host : str) (phish : Settled nat)
    (check : Settled (str * str * LoadResult)).

Definition inspectUrl_call (rawUrl : str) (now : Z) (w : World)
  : InspectCall * World :=
  match normalizeUrl rawUrl with
  | Some (n0 :: n) =>
      let normalizedUrl := n0 :: n in
      match URL.parse normalizedUrl with
      | Some parsed =>
          let host := toLowerCase (strip_www (URL.hostname parsed)) in
          let '(phish, w1) := checkPhishFeed_call normalizedUrl w in
          let '(check, w2) := check_call normalizedUrl now w1 in
          (Awaiting normalizedUrl host phish check, w2)
      | None => (Threw (Some (lit "Invalid URL")), w)
      end
  | _ => (Returned (Invalid (lit "Enter a valid URL (example: https://example.com).")), w)
  end.

(** The two entries of [Promise.allSettled]. *)
Definition phish_settled (env : Env) (phish : Settled nat) : Settled PhishResult :=
  match phish with
  | Fulfilled request => checkPhishFeed_resume (answer env request)
  | Rejected message => Rejected message
  end.

(** The value of [await this.load()]. *)
Definition loaded (env : Env) (r : LoadResult) : Settled Snapshot :=
  match r with
  | Ready s => Fulfilled s
  | Pending p => refreshed env p
  end.

Definition check_settled (env : Env) (check : Settled (str * str * LoadResult))
  : Settled CheckResult :=
  match check with
  | Fulfilled (normalized, hostKey, r) =>
      check_resume normalized hostKey (loaded env r)
  | Rejected message => Rejected message
  end.

(** The two lookups, from call to settlement. *)
Definition checkPhishFeed (targetUrl : str) (env : Env) (w : World)
  : Settled PhishResult * World :=
  let '(call, w1) := checkPhishFeed_call targetUrl w in
  (phish_settled env call, w1).

Definition check (inputUrl : str) (now : Z) (env : Env) (w : World)
  : Settled CheckResult * World :=
  let '(call, w1) := check_call inputUrl now w in
  (check_settled env call, w1).

Definition source_result {A : Type} (source : str) (r : Settled A) : SourceResult A :=
  match r with
  | Fulfilled value => Payload value
  | Rejected message => SourceError source (or_else message (lit "Lookup failed"))
  end.

(** [inspectUrl], once what it waits for has settled and the clock reads
    [now]. *)
Definition inspectUrl_resume (call : InspectCall) (env : Env) (now : Z)
  : Settled InspectionResult :=
  match call with
  | Returned r => Fulfilled r
  | Threw message => Rejected message
  | Awaiting normalizedUrl host phish check =>
      Fulfilled
        (Inspected host normalizedUrl
           {| phishFeed := source_result (lit "phish.sinking.yachts")
                             (phish_settled env phish);
              src_urlhaus := source_result (lit "URLHaus") (check_settled env check) |}
           now)
  end.

Definition inspectUrl (rawUrl : str) (now : Z) (env : Env) (done : Z) (w : World)
  : Settled InspectionResult * World :=
  let '(call, w1) := inspectUrl_call rawUrl now w in
  (inspectUrl_resume call env done, w1).

Record TextInspectionResult : Type := {
  text_ok : bool;
  urls : list InspectionResult;
  truncated : bool;
  found : nat
}.

(** [limited.map(...)]: the invocations start one after the other, each up
    to its first [await]; [now u] is what the clock reads when the invocation
    for [u] tests the freshness of the cache. *)
Fixpoint inspect_calls (limited : list str) (now : str -> Z) (w : World)
  : list InspectCall * World :=
  match limited with
  | [] => ([], w)
  | u :: rest =>
      let '(call, w1) := inspectUrl_call u (now u) w in
      let '(calls, w2) := inspect_calls rest now w1 in
      (call :: calls, w2)
  end.

(** The guard around each invocation. *)
Definition guarded (u : str) (r : Settled InspectionResult) : InspectionResult :=
  match r with
  | Fulfilled result => result
  | Rejected message => Failed (or_else message (lit "Lookup failed")) u
  end.

Definition inspectText (text : str) (now : str -> Z) (env : Env) (done : str -> Z)
    (w : World)
  : TextInspectionResult * World :=
  let urls := extractUrlsFromText text in
  let limited := take MAX_TEXT_URLS urls in
  let '(calls, w1) := inspect_calls limited now w in
  let results :=
    zip_with (fun u call => guarded u (inspectUrl_resume call env (done u)))
      limited calls in
  ({| text_ok := true;
      urls := results;
      truncated := (length limited <? length urls)%nat;
      found := length urls |}, w1).

(** ** The routes of the server

    [POST /api/osint/link] and [POST /api/osint/text].  The field of the
    request body is [Some] string, or [None] when the body has no such field
    or a null one; other JSON values are outside this model. *)

Inductive ReplyBody : Type :=
| LinkIntel (intel : InspectionResult)
| TextIntel (intel : TextInspectionResult)
| Missing (error : str)
| Unreachable (error : str) (detail : option str).

Record Reply : Type := {
  reply_status : N;
  reply_body : ReplyBody
}.

(** [res.json(body)] and [res.status(code).json(body)]. *)
Definition json (body : ReplyBody) : Reply :=
  {| reply_status := 200; reply_body := body |}.

Definition status_json (code : N) (body : ReplyBody) : Reply :=
  {| reply_status := code; reply_body := body |}.

Definition osint_link (field : option str) (now : Z) (env : Env) (done : Z)
    (w : World) : Reply * World :=
  match trim (default [] field) with
  | [] => (status_json 400 (Missing (lit "Missing url")), w)
  | target =>
      let '(intel, w1) := inspectUrl target now env done w in
      match intel with
      | Fulfilled intel => (json (LinkIntel intel), w1)
      | Rejected message =>
          (status_json 500
             (Unreachable (lit "Unable to reach open-source intel feeds right now.")
                message), w1)
      end
  end.

(** [inspectText] settles every invocation it starts and has no other
    [await], so the route always takes the branch of the answer. *)
Definition osint_text (field : option str) (now : str -> Z) (env : Env)
    (done : str -> Z) (w : World) : Reply * World :=
  let text := default [] field in
  match trim text with
  | [] => (status_json 400 (Missing (lit "Missing text")), w)
  | _ =>
      let '(intel, w1) := inspectText text now env done w in
      (json (TextIntel intel), w1)
  end.

End Code.

Arguments Fulfilled {A} value.
Arguments Rejected {A} message.
Arguments Payload {A} value.
Arguments SourceError {A} source error.

(** * Specification

    What follows is not code of the repository: the predicates and functions
    in which the properties below are stated and proved. *)

(** ** Canonical URL records *)

Module Canon.
Import URL.

(** A text none of whose characters is in [set]. *)
Definition free (set : ascii -> bool) (s : str) : bool :=
  forallb (fun c => negb (set c)) s.

(** The characters of a serialised IPv6 address. *)
Definition ipv6_char (c : ascii) : bool :=
  is_digit c || in_range 97 102 c || is_char ":" c.

Section WithPlatform.
Context {pf : Platform}.

(** A path segment as the path state leaves it: percent-encoded, without
    a slash, and not a dot segment. *)
Definition segment_ok (s : str) : bool :=
  free path_set s && free is_slash s && negb (single_dot s) && negb (double_dot s).

(** A domain as the host parser leaves it: what domain to ASCII yields and
    gives back unchanged. *)
Definition domain_ok (d : str) : bool :=
  negb (bool_decide (d = []))
  && forallb is_ascii d
  && (plain_domain d || bool_decide (unicode_to_ascii d = Some d))
  && bool_decide (toLowerCase d = d)
  && negb (existsb forbidden_domain d)
  && negb (ends_in_number d).

(** The hosts that are not an IPv6 address. *)
Definition named (h : Host) : bool :=
  match h with IPv6 _ => false | _ => true end.

Definition host_ok (h : Host) : bool :=
  match h with
  | Domain d => domain_ok d
  | IPv4 a => (a <? 4294967296)%N
  | IPv6 a => forallb ipv6_char a && bool_decide (ipv6_address a = Some a)
  end.

Definition port_ok (scheme : str) (p : option N) : bool :=
  match p with
  | Some p => (p <=? 65535)%N && negb (bool_decide (default_port scheme = Some p))
  | None => true
  end.

(** The records the parser yields, once the fragment is cleared. *)
Definition canonical (u : t) : bool :=
  bool_decide (is_Some (default_port (scheme u)))
  && free userinfo_set (username u)
  && free userinfo_set (password u)
  && host_ok (host u)
  && port_ok (scheme u) (port u)
  && forallb segment_ok (path u)
  && match query u with Some q => free special_query_set q | None => true end
  && bool_decide (fragment u = None).

Definition lower_url (u : t) : t :=
  mk (scheme u) (toLowerCase (username u)) (toLowerCase (password u)) (host u)
     (port u) (map toLowerCase (path u)) (toLowerCase <$> query u) (fragment u).

Definition lowered (u : t) : Prop := lower_url u = u.

Definition with_path (p : list str) (u : t) : t :=
  mk (scheme u) (username u) (password u) (host u) (port u) p (query u) (fragment u).

Definition with_query (q : option str) (u : t) : t :=
  mk (scheme u) (username u) (password u) (host u) (port u) (path u) q (fragment u).

(** The path the parser gives back for a serialisation without a path. *)
Definition fix_path (p : list str) : list str :=
  match p with [] => [[]] | _ => p end.

(** The records whose serialisations [normalizeUrl] returns. *)
Definition normal (u : t) : Prop :=
  canonical u = true /\ lowered u /\ (path u = [] -> query u = None).

(** A set whose members the percent-encoding never produces. *)
Definition encodable (q : ascii -> bool) : Prop :=
  forall x, q x = true -> c0_control_set x = true \/ is_alnum x = false /\ x <> "%".

(** The parts of a serialisation. *)
Definition path_serialize (p : list str) : str :=
  flat_map (fun segment => "/" :: segment) p.

Definition credentials (u : t) : str :=
  if bool_decide (username u = []) && bool_decide (password u = []) then []
  else username u
       ++ (if bool_decide (password u = []) then [] else ":" :: password u)
       ++ lit "@".

Definition port_serialize (p : option N) : str :=
  match p with Some p => ":" :: decimal p | None => [] end.

Definition authority (u : t) : str :=
  credentials u ++ host_serialize (host u) ++ port_serialize (port u).

Definition query_serialize (q : option str) : str :=
  match q with Some q => "?" :: q | None => [] end.

Definition after_authority (u : t) : str :=
  path_serialize (path u) ++ query_serialize (query u).

(** Classes of characters. *)
Definition dotted (c : ascii) : bool := is_digit c || is_char "." c.
Definition printable (c : ascii) : bool := (32 <? code c)%N && (code c <? 127)%N.
Definition hostish (c : ascii) : bool := is_ascii c && negb (forbidden_domain c).
(* and :, [, ] *)
Definition hostchar (c : ascii) : bool := hostish c || one_of [58; 91; 93]%N c.

(** What is checked of the decimal numeral of every number up to 65535. *)
End WithPlatform.

Definition numeral_ok (n : N) : bool :=
  negb (bool_decide (decimal n = []))
  && bool_decide (parse_radix 10 (decimal n) = Some n)
  && bool_decide (ipv4_number (decimal n) = Some n)
  && negb (xn_label (decimal n)).

Fixpoint all_from (P : N -> bool) (n : N) (k : nat) : bool :=
  match k with
  | O => true
  | S k => P n && all_from P (N.succ n) k
  end.

End Canon.

(** ** What is used of the platform

    Of what the platform decides, the properties below use this and no
    more.  What ToASCII yields is ASCII and in lower case, and ToASCII gives
    it back unchanged (UTS 46: the result is a sequence of lower-case ASCII
    labels and of labels [xn--] followed by their Punycode, which ToASCII
    decodes and encodes to themselves).  What the IPv6 serializer yields is
    made of lower-case hexadecimal digits and colons and is parsed to the
    address it serialises (URL standard, IPv6 serializer). *)
Class PlatformLaws (pf : Platform) : Prop := {
  to_ascii_ascii : forall d a,
    unicode_to_ascii d = Some a -> forallb is_ascii a = true;
  to_ascii_lower : forall d a,
    unicode_to_ascii d = Some a -> toLowerCase a = a;
  to_ascii_fixed : forall d a,
    unicode_to_ascii d = Some a -> URL.plain_domain a = false ->
    unicode_to_ascii a = Some a;
  ipv6_chars : forall s a,
    ipv6_address s = Some a -> forallb Canon.ipv6_char a = true;
  ipv6_fixed : forall s a,
    ipv6_address s = Some a -> ipv6_address a = Some a
}.

Section Specification.
Context {pf : Platform}.

(** [s] without its last character when that is a slash. *)
Definition strip_slash (s : str) : str :=
  if ends_with_slash s then drop_last s else s.

(** ** The cache as a state machine *)

(** What can happen to the world: a caller runs [load], a request to the
    real-time source goes out, or a suspended [fetchFeed] resumes because its
    request settled. *)
Inductive step : World -> World -> Prop :=
| step_load now w : step w (snd (load now w))
| step_phish targetUrl w : step w (snd (checkPhishFeed_call targetUrl w))
| step_resume p answer now w :
    In p (suspended w) -> step w (snd (fetchFeed_resume p answer now w)).

Inductive reachable : World -> Prop :=
| reachable_new : reachable World_new
| reachable_step w w' : reachable w -> step w w' -> reachable w'.

(** The refreshes in flight are exactly the one [loading] names. *)
Definition single_flight (w : World) : Prop :=
  suspended w = match loading (urlhaus w) with Some p => [p] | None => [] end.

(** A burst of calls of [load], nothing settling in between. *)
Fixpoint loads (times : list Z) (w : World) : list LoadResult * World :=
  match times with
  | [] => ([], w)
  | now :: rest =>
      let '(r, w1) := load now w in
      let '(rs, w2) := loads rest w1 in
      (r :: rs, w2)
  end.

(** ** The feed, line by line *)

(** The fields of a data line: [None] for an empty line, a comment line and
    a line of fewer than three fields. *)
Definition line_parts (line : str) : option (list str) :=
  match line with
  | [] => None
  | c :: _ =>
      if bool_decide (c = "#") then None
      else
        let parts := split_sep [dquote; ","; dquote] (strip_quotes (trim line)) in
        if (length parts <? 3)%nat then None else Some parts
  end.

(** The entry a line contributes, if any. *)
Definition line_entry (line : str) : option FeedEntry :=
  match line_parts line with
  | Some parts =>
      match normalizeUrl (default [] (parts !! 2%nat)) with
      | Some (c :: n) => Some (feed_entry (c :: n) parts)
      | _ => None
      end
  | None => None
  end.

(** The key of an entry in the host index. *)
Definition entry_host (e : FeedEntry) : option str :=
  match URL.parse (url e) with
  | Some parsed => Some (toLowerCase (strip_www (URL.hostname parsed)))
  | None => None
  end.

(** The entries of the feed for a host, in the order of the lines. *)
Definition host_entries (host : str) (lines : list str) : list FeedEntry :=
  filter (fun e => entry_host e = Some host) (omap line_entry lines).

Definition push5 (existing : list FeedEntry) (e : FeedEntry) : list FeedEntry :=
  if (length existing <? 5)%nat then existing ++ [e] else existing.

End Specification.

(** ** Texts made of URL tokens *)

(** The characters of one byte that end a token of the pattern of
    [extractUrlsFromText]: white space, the two quotes, the angle
    brackets. *)
Definition delimiter (c : ascii) : bool :=
  is_ws1 c || one_of [34; 39; 60; 62]%N c.







(** ** Inputs of the examples *)

Definition quiet : Env :=
  {| answer := fun _ => Rejected None; refreshed := fun _ => Rejected None |}.

Definition sample_entry : FeedEntry :=
  {| url := lit "http://www.bad.example/a";
     threat := lit "malware_download";
     lastOnline := None |}.

(** A world whose cache was refreshed at time 500. *)
Definition sample_world : World :=
  {| urlhaus := {| lastFetched := 500;
                   loading := None;
                   urlMap := {[ lit "http://www.bad.example/a" := sample_entry ]};
                   hostMap := {[ lit "bad.example" := [sample_entry] ]} |};
     requests := [];
     suspended := [] |}.

(** A feed line of three fields. *)
Definition sample_line : str :=
  dquote :: lit "1" ++ [dquote; ","; dquote] ++ lit "2024-01-01 00:00:00"
  ++ [dquote; ","; dquote] ++ lit "http://Bad.example/a/" ++ [dquote].

(** A feed with a comment line and seven entries of one host. *)
Definition sample_row (id path : string) : str :=
  dquote :: lit id ++ [dquote; ","; dquote] ++ lit "2024-01-01 00:00:00"
  ++ [dquote; ","; dquote] ++ lit "http://h.example/" ++ lit path
  ++ [dquote; ","; dquote] ++ lit "online" ++ [dquote; ","; dquote]
  ++ lit "2024-01-02" ++ [dquote; ","; dquote] ++ lit "malware_download"
  ++ [dquote; "010"].

Definition sample_feed : str :=
  lit "# id,dateadded,url,url_status,last_online,threat" ++ ["010"]
  ++ sample_row "1" "a" ++ sample_row "2" "b" ++ sample_row "3" "c"
  ++ sample_row "4" "d" ++ sample_row "5" "e" ++ sample_row "6" "f"
  ++ sample_row "7" "g".

(** A platform for the examples: it knows two Unicode domains, in UTF-8,
    with their ASCII forms, and the loopback address in two spellings; in a
    path it leaves [^] as it is. *)
Definition sample_unicode_domain : str :=
  lit "b" ++ [ascii_of_N 195; ascii_of_N 188] ++ lit "cher.example".

Definition sample_domains : list (str * str) :=
  [ (sample_unicode_domain, lit "xn--bcher-kva.example");
    (lit "xn--bcher-kva.example", lit "xn--bcher-kva.example");
    (lit "ex" ++ [ascii_of_N 195; ascii_of_N 164] ++ lit "mple.com",
     lit "xn--exmple-cua.com");
    (lit "xn--exmple-cua.com", lit "xn--exmple-cua.com") ].

Definition sample_addresses : list (str * str) :=
  [ (lit "::1", lit "::1"); (lit "0:0:0:0:0:0:0:1", lit "::1") ].

Definition table_lookup (table : list (str * str)) (key : str) : option str :=
  snd <$> find (fun row => bool_decide (fst row = key)) table.

Definition sample_platform : Platform :=
  {| unicode_to_ascii := table_lookup sample_domains;
     ipv6_address := table_lookup sample_addresses;
     caret_in_path_set := false |}.

(** ** Vocabulary of the further properties *)

Section Vocabulary.
Context {pf : Platform}.

(** The entries of the feed for a URL, in the order of the lines. *)
Definition url_entries (n : str) (lines : list str) : list FeedEntry :=
  filter (fun e => url e = n) (omap line_entry lines).

(** One turn of the loop of [fetchFeed], on the entry of the line. *)
Definition add_entry (maps : gmap str FeedEntry * gmap str (list FeedEntry))
    (e : FeedEntry) : gmap str FeedEntry * gmap str (list FeedEntry) :=
  (<[url e := e]> (fst maps),
   match entry_host e with
   | Some host => <[host := push5 (default [] (snd maps !! host)) e]> (snd maps)
   | None => snd maps
   end).

(** A line of the feed, written out: the fields, each between double quotes,
    separated by commas. *)
Fixpoint join (sep : str) (fields : list str) : str :=
  match fields with
  | [] => []
  | [f] => f
  | f :: rest => f ++ sep ++ join sep rest
  end.

Definition quoted_row (fields : list str) : str :=
  [dquote] ++ join [dquote; ","; dquote] fields ++ [dquote].

(** The two indexes were built from one feed, every refresh in flight is a
    request for the feed, and every request is for the feed or for the
    real-time source. *)
Definition coherent (w : World) : Prop :=
  (exists body, (urlMap (urlhaus w), hostMap (urlhaus w)) = feed_maps body)
  /\ Forall (fun p => requests w !! p = Some URLHAUS_FEED) (suspended w)
  /\ Forall (fun r => r = URLHAUS_FEED
                      \/ exists host, r = PHISH_API ++ encodeURIComponent host)
       (requests w).


(** The request [load] issues, if any. *)
Definition feed_request (now : Z) (w : World) : list str :=
  if isFresh now (urlhaus w) then []
  else match loading (urlhaus w) with
       | Some _ => []
       | None => [URLHAUS_FEED]
       end.

(** A snapshot of the indexes built from a feed. *)
Definition feed_snapshot (text : str) (refreshed_at : Z) : Snapshot :=
  {| snap_urlMap := fst (feed_maps text);
     snap_hostMap := snd (feed_maps text);
     snap_refreshedAt := refreshed_at |}.

End Vocabulary.

(** * Proofs *)

Ltac each_char c :=
  destruct c as [[] [] [] [] [] [] [] []]; vm_compute;
  try (reflexivity || discriminate || tauto || congruence).


Ltac scheme_chars :=
  change (URL.scheme_char "h") with true; change (URL.scheme_char "t") with true;
  change (URL.scheme_char "p") with true; change (URL.scheme_char "s") with true;
  change (URL.scheme_char ":") with false; cbn [negb toLowerCase map].

(** ** The URL model and [normalizeUrl] *)

Module URLFacts.
Import URL Canon.

(** The facts about the parser and the serializer hold for every platform;
    those about what the parser yields for a host the platform decides use
    [PlatformLaws]. *)
Section WithPlatform.
Context {pf : Platform} {laws : PlatformLaws pf}.

(** * Characters *)

Lemma lower_char_idem c : lower_char (lower_char c) = lower_char c.
Proof. each_char c. Qed.

Lemma toLowerCase_idem s : toLowerCase (toLowerCase s) = toLowerCase s.
Proof.
  unfold toLowerCase. rewrite map_map. apply map_ext. intros; apply lower_char_idem.
Qed.

Lemma toLowerCase_app a b : toLowerCase (a ++ b) = toLowerCase a ++ toLowerCase b.
Proof. apply map_app. Qed.

(** * Scanning *)

Lemma break_app p a t :
  forallb (fun c => negb (p c)) a = true ->
  match t with [] => True | c :: _ => p c = true end ->
  break p (a ++ t) = (a, t).
Proof.
  intros Ha Ht. induction a as [|c a IH]; simpl in *.
  - destruct t as [|c t]; [reflexivity|]. simpl. now rewrite Ht.
  - apply andb_prop in Ha as [Hc Ha]. apply negb_true_iff in Hc.
    rewrite Hc, (IH Ha). reflexivity.
Qed.

Lemma split_on_none p a :
  forallb (fun c => negb (p c)) a = true -> split_on p a = [a].
Proof.
  induction a as [|c a IH]; simpl; [reflexivity|]. intros Ha.
  apply andb_prop in Ha as [Hc Ha]. apply negb_true_iff in Hc.
  now rewrite Hc, (IH Ha).
Qed.

Lemma split_on_app p a c t :
  forallb (fun c => negb (p c)) a = true -> p c = true ->
  split_on p (a ++ c :: t) = a :: split_on p t.
Proof.
  intros Ha Hc. induction a as [|x a IH]; simpl in *.
  - now rewrite Hc.
  - apply andb_prop in Ha as [Hx Ha]. apply negb_true_iff in Hx.
    now rewrite Hx, (IH Ha).
Qed.

Lemma split_on_nonempty p s : split_on p s <> [].
Proof. induction s as [|c s IH]; simpl; [discriminate|]. destruct (p c); [discriminate|]. destruct (split_on p s); discriminate. Qed.

Lemma split_on_free p s :
  Forall (fun part => forallb (fun c => negb (p c)) part = true) (split_on p s).
Proof.
  induction s as [|c s IH]; simpl.
  - repeat constructor.
  - destruct (p c) eqn:Hc.
    + constructor; [reflexivity | assumption].
    + destruct (split_on p s) as [|h t]; inversion IH; subst; constructor; simpl; try rewrite Hc; simpl; auto.
Qed.

Lemma drop_while_id p s :
  match s with [] => True | c :: _ => p c = false end -> drop_while p s = s.
Proof. destruct s; simpl; [reflexivity|]. now intros ->. Qed.

(** * Lists of booleans *)

Lemma forallb_fmap {A B} (p : B -> bool) (f : A -> B) l :
  forallb p (map f l) = forallb (fun x => p (f x)) l.
Proof. induction l; simpl; congruence. Qed.

Lemma existsb_fmap {A B} (p : B -> bool) (f : A -> B) l :
  existsb p (map f l) = existsb (fun x => p (f x)) l.
Proof. induction l; simpl; congruence. Qed.

Lemma forallb_eq {A} (p q : A -> bool) l :
  (forall x, p x = q x) -> forallb p l = forallb q l.
Proof. intros H. induction l; simpl; congruence. Qed.

Lemma existsb_eq {A} (p q : A -> bool) l :
  (forall x, p x = q x) -> existsb p l = existsb q l.
Proof. intros H. induction l; simpl; congruence. Qed.

(** * Percent-encoding *)

Lemma percent_encode_free set s : free set s = true -> percent_encode set s = s.
Proof.
  unfold free, percent_encode. induction s as [|c s IH]; simpl; [reflexivity|].
  intros H. apply andb_prop in H as [Hc H]. apply negb_true_iff in Hc.
  rewrite Hc. simpl. now rewrite IH.
Qed.

Lemma free_app set a b : free set (a ++ b) = free set a && free set b.
Proof. apply forallb_app. Qed.

Lemma percent_encode_byte_free (set : ascii -> bool) c :
  (forall x, set x = true -> c0_control_set x = true \/ is_alnum x = false /\ x <> "%") ->
  free set (percent_encode_byte c) = true.
Proof.
  intros Hset. unfold free, percent_encode_byte.
  assert (H : forall x, In x ["%"; hex_digit (code c / 16); hex_digit (code c mod 16)] ->
               negb (set x) = true).
  { intros x Hx. apply negb_true_iff. destruct (set x) eqn:E; [|reflexivity].
    exfalso. apply Hset in E.
    assert (Hc : c0_control_set x = false /\ (is_alnum x = true \/ x = "%")).
    { clear E Hset. simpl in Hx. destruct Hx as [<-|[<-|[<-|[]]]].
      - split; [reflexivity | now right].
      - each_char c.
      - each_char c. }
    destruct Hc as [Hc0 Hal]. destruct E as [E|[E1 E2]]; [congruence|].
    destruct Hal; congruence. }
  apply forallb_forall. exact H.
Qed.

Lemma percent_encode_keeps set q s :
  encodable q ->
  (forall c, In c s -> set c = false -> q c = false) ->
  free q (percent_encode set s) = true.
Proof.
  intros Hq. unfold percent_encode. induction s as [|c s IH]; simpl; [reflexivity|].
  intros H. rewrite free_app. apply andb_true_intro. split.
  - destruct (set c) eqn:E.
    + now apply percent_encode_byte_free.
    + unfold free. simpl. rewrite (H c); auto.
  - apply IH. intros x Hx. apply H. now right.
Qed.

Lemma encodable_check q :
  (forall x, implb (q x) (c0_control_set x || negb (is_alnum x) && negb (bool_decide (x = "%"))) = true) ->
  encodable q.
Proof.
  intros H x Hx. specialize (H x). rewrite Hx in H. simpl in H.
  apply orb_prop in H as [H|H]; [now left|right].
  apply andb_prop in H as [H1 H2]. apply negb_true_iff in H1, H2.
  split; [assumption|]. now apply bool_decide_eq_false in H2.
Qed.

Lemma encodable_userinfo : encodable userinfo_set.
Proof. apply encodable_check. intros x. each_char x. Qed.
Lemma encodable_path : encodable path_set.
Proof.
  unfold path_set. destruct caret_in_path_set;
    apply encodable_check; intros x; each_char x.
Qed.
Lemma encodable_special_query : encodable special_query_set.
Proof. apply encodable_check. intros x. each_char x. Qed.
Lemma encodable_slash : encodable is_slash.
Proof. apply encodable_check. intros x. each_char x. Qed.

Lemma percent_encode_self set s :
  encodable set -> free set (percent_encode set s) = true.
Proof. intros H. apply percent_encode_keeps; auto. Qed.

Lemma free_In set s c : free set s = true -> In c s -> set c = false.
Proof.
  unfold free. rewrite forallb_forall. intros H Hc. apply H in Hc.
  now apply negb_true_iff.
Qed.

Lemma free_weaken (p q : ascii -> bool) s :
  (forall c, p c = false -> q c = false) -> free p s = true -> free q s = true.
Proof.
  intros Hpq. unfold free. rewrite !forallb_forall. intros H c Hc.
  apply negb_true_iff, Hpq, negb_true_iff, H, Hc.
Qed.

(** * Decimal numerals *)

Lemma uint_digits_digits d : forallb is_digit (uint_digits d) = true.
Proof. induction d; simpl; auto. Qed.

Lemma decimal_digits n : forallb is_digit (decimal n) = true.
Proof. apply uint_digits_digits. Qed.

Lemma all_from_spec P k : forall n,
  all_from P n k = true -> forall m, (n <= m)%N -> (m < n + N.of_nat k)%N -> P m = true.
Proof.
  induction k as [|k IH]; simpl; intros n H m H1 H2; [lia|].
  apply andb_prop in H as [Hn H].
  destruct (N.eq_dec m n) as [->|Hne]; [assumption|].
  apply (IH (N.succ n)); [assumption|lia|lia].
Qed.

Lemma numerals_checked : all_from numeral_ok 0 (Nat.pow 2 16) = true.
Proof. vm_compute. reflexivity. Qed.

Lemma numeral_ok_port n : (n <= 65535)%N -> numeral_ok n = true.
Proof.
  intros Hn. apply (all_from_spec _ _ _ numerals_checked); [lia|].
  replace (N.of_nat (Nat.pow 2 16)) with 65536%N by (vm_compute; reflexivity). lia.
Qed.

(** * Hosts *)

Lemma ipv4_serialize_dotted a : forallb dotted (ipv4_serialize a) = true.
Proof.
  assert (D : forall n, forallb dotted (decimal n) = true).
  { intros n. pose proof (decimal_digits n) as H. rewrite forallb_forall in *.
    intros c Hc. unfold dotted. now rewrite (H c Hc). }
  unfold ipv4_serialize.
  repeat (rewrite forallb_app; simpl). now rewrite !D.
Qed.

Lemma byte_numeral a k : numeral_ok (a / k mod 256) = true.
Proof. apply numeral_ok_port. pose proof (N.mod_lt (a / k) 256). lia. Qed.

Lemma numeral_ok_elim n :
  numeral_ok n = true ->
  decimal n <> [] /\ parse_radix 10 (decimal n) = Some n
  /\ ipv4_number (decimal n) = Some n /\ xn_label (decimal n) = false.
Proof.
  unfold numeral_ok. intros H.
  repeat (apply andb_prop in H as [H ?]).
  apply negb_true_iff in H, H0. apply bool_decide_eq_false in H.
  apply bool_decide_eq_true in H1, H2. auto.
Qed.

Lemma digits_free p s :
  (forall c, is_digit c = true -> p c = false) ->
  forallb is_digit s = true -> forallb (fun c => negb (p c)) s = true.
Proof.
  intros Hp. rewrite !forallb_forall. intros H c Hc.
  apply negb_true_iff, Hp, H, Hc.
Qed.

Lemma digit_not_dot c : is_digit c = true -> is_char "." c = false.
Proof. each_char c. Qed.

Lemma ipv4_split a :
  split_on (is_char ".") (ipv4_serialize a)
  = [decimal (a / 16777216 mod 256); decimal (a / 65536 mod 256);
     decimal (a / 256 mod 256); decimal (a mod 256)].
Proof.
  unfold ipv4_serialize.
  assert (D : forall n, forallb (fun c => negb (is_char "." c)) (decimal n) = true).
  { intros n. apply digits_free; [apply digit_not_dot | apply decimal_digits]. }
  rewrite !split_on_app by (auto using D). now rewrite split_on_none by apply D.
Qed.

Lemma ipv4_parse_serialize a :
  (a < 4294967296)%N -> ipv4_parse (ipv4_serialize a) = Some a.
Proof.
  intros Ha. unfold ipv4_parse. rewrite ipv4_split.
  pose proof (byte_numeral a 16777216) as H1. apply numeral_ok_elim in H1 as (N1 & _ & I1 & _).
  pose proof (byte_numeral a 65536) as H2. apply numeral_ok_elim in H2 as (N2 & _ & I2 & _).
  pose proof (byte_numeral a 256) as H3. apply numeral_ok_elim in H3 as (N3 & _ & I3 & _).
  pose proof (byte_numeral a 1) as H4. rewrite N.div_1_r in H4.
  apply numeral_ok_elim in H4 as (N4 & _ & I4 & _).
  unfold drop_last_empty. cbn [last length].
  destruct (decimal (a mod 256)) as [|d0 dr] eqn:E4; [congruence|].
  cbn [Nat.ltb Nat.leb]. cbn [mapM]. rewrite I1, I2, I3, I4. cbn -[N.div N.modulo N.pow N.mul N.add].
  assert (B1 : (255 <? a / 16777216 mod 256)%N = false) by (apply N.ltb_ge; pose proof (N.mod_lt (a / 16777216) 256); lia).
  assert (B2 : (255 <? a / 65536 mod 256)%N = false) by (apply N.ltb_ge; pose proof (N.mod_lt (a / 65536) 256); lia).
  assert (B3 : (255 <? a / 256 mod 256)%N = false) by (apply N.ltb_ge; pose proof (N.mod_lt (a / 256) 256); lia).
  rewrite B1, B2, B3. cbn -[N.div N.modulo N.pow N.mul N.add N.leb].
  assert (B4 : (256 ^ (5 - 4) <=? a mod 256)%N = false).
  { apply N.leb_gt. change (256 ^ (5 - 4))%N with 256%N. apply N.mod_lt. lia. }
  change (N.of_nat 4) with 4%N. rewrite B4. f_equal.
  change (256 ^ (3 - 0))%N with 16777216%N.
  change (256 ^ (3 - (0 + 1)))%N with 65536%N.
  change (256 ^ (3 - (0 + 1 + 1)))%N with 256%N.
  clear -Ha. zify. Z.to_euclidean_division_equations. lia.
Qed.

Lemma dotted_facts c :
  dotted c = true ->
  is_ascii c = true /\ forbidden_domain c = false /\ lower_char c = c
  /\ c <> "%" /\ c <> "[".
Proof. each_char c; repeat split; discriminate. Qed.

Lemma percent_decode_id s : ~ In "%" s -> percent_decode s = s.
Proof.
  induction s as [|c s IH]; simpl; [reflexivity|]. intros H.
  destruct (ascii_dec c "%") as [->|_]; [tauto|]. rewrite IH; tauto.
Qed.

Lemma toLowerCase_id s : (forall c, In c s -> lower_char c = c) -> toLowerCase s = s.
Proof.
  intros H. unfold toLowerCase. rewrite <- (map_id s) at 2.
  apply map_ext_in. exact H.
Qed.

Lemma existsb_false_forall {A} (p : A -> bool) l :
  existsb p l = false <-> forall x, In x l -> p x = false.
Proof.
  induction l as [|a l IH]; simpl; [tauto|].
  rewrite orb_false_iff, IH. split.
  - intros [Ha H] x [<-|Hx]; auto.
  - intros H. split; [apply H; now left | intros x Hx; apply H; now right].
Qed.

Lemma domain_ok_elim d :
  domain_ok d = true ->
  d <> [] /\ forallb is_ascii d = true
  /\ (plain_domain d = true \/ unicode_to_ascii d = Some d)
  /\ toLowerCase d = d /\ existsb forbidden_domain d = false
  /\ ends_in_number d = false.
Proof.
  unfold domain_ok. intros H. repeat (apply andb_prop in H as [H ?]).
  repeat match goal with
         | H : negb _ = true |- _ => apply negb_true_iff in H
         | H : bool_decide (toLowerCase _ = _) = true |- _ =>
             apply bool_decide_eq_true in H
         | H : bool_decide (_ = []) = false |- _ => apply bool_decide_eq_false in H
         end.
  repeat split; try assumption.
  match goal with
  | H : _ || _ = true |- _ =>
      apply orb_prop in H as [H|H]; [now left|right; now apply bool_decide_eq_true in H]
  end.
Qed.

Lemma host_parse_unfold input :
  ~ In "[" input ->
  host_parse input =
  match domain_to_ascii (percent_decode input) with
  | None => None
  | Some asciiDomain =>
      if existsb forbidden_domain asciiDomain then None
      else if ends_in_number asciiDomain
           then IPv4 <$> ipv4_parse asciiDomain
           else Some (Domain asciiDomain)
  end.
Proof.
  intros H. destruct input as [|c r]; [reflexivity|].
  assert (Hc : c <> "[") by (intros ->; apply H; now left).
  unfold host_parse.
  destruct c as [[] [] [] [] [] [] [] []]; try reflexivity. congruence.
Qed.

Lemma domain_to_ascii_id d :
  d <> [] -> plain_domain d = true \/ unicode_to_ascii d = Some d ->
  toLowerCase d = d -> domain_to_ascii d = Some d.
Proof.
  intros Hne Hd Hlow. unfold domain_to_ascii.
  destruct (plain_domain d) eqn:Hp.
  - rewrite Hlow. destruct d; congruence.
  - destruct Hd as [Hd|Hd]; [discriminate|]. rewrite Hd. destruct d; congruence.
Qed.

Lemma host_parse_domain d :
  domain_ok d = true -> host_parse d = Some (Domain d).
Proof.
  intros H. apply domain_ok_elim in H as (Hne & Hasc & Hxn & Hlow & Hforb & Hnum).
  pose proof Hforb as Hall. rewrite existsb_false_forall in Hall.
  rewrite host_parse_unfold by (intros Hin; apply Hall in Hin; discriminate).
  rewrite percent_decode_id by (intros Hin; apply Hall in Hin; discriminate).
  rewrite domain_to_ascii_id by assumption.
  now rewrite Hforb, Hnum.
Qed.

Lemma ends_in_number_ipv4 a : ends_in_number (ipv4_serialize a) = true.
Proof.
  unfold ends_in_number. rewrite ipv4_split. cbn [last].
  pose proof (byte_numeral a 1) as H. rewrite N.div_1_r in H.
  apply numeral_ok_elim in H as (Hne & _).
  destruct (decimal (a mod 256)) as [|c r] eqn:E; [congruence|].
  rewrite <- E, decimal_digits. rewrite E. reflexivity.
Qed.

Lemma host_parse_ipv4 a :
  (a < 4294967296)%N -> host_parse (ipv4_serialize a) = Some (IPv4 a).
Proof.
  intros Ha. pose proof (ipv4_serialize_dotted a) as Hdot.
  rewrite forallb_forall in Hdot.
  assert (Hne : ipv4_serialize a <> []).
  { unfold ipv4_serialize. destruct (decimal _); discriminate. }
  assert (Hasc : forallb is_ascii (ipv4_serialize a) = true).
  { apply forallb_forall. intros c Hc. now apply dotted_facts, Hdot. }
  assert (Hxn : existsb xn_label (split_on (is_char ".") (ipv4_serialize a)) = false).
  { rewrite ipv4_split. cbn [existsb].
    pose proof (byte_numeral a 16777216) as H1. apply numeral_ok_elim in H1 as (_ & _ & _ & ->).
    pose proof (byte_numeral a 65536) as H2. apply numeral_ok_elim in H2 as (_ & _ & _ & ->).
    pose proof (byte_numeral a 256) as H3. apply numeral_ok_elim in H3 as (_ & _ & _ & ->).
    pose proof (byte_numeral a 1) as H4. rewrite N.div_1_r in H4.
    apply numeral_ok_elim in H4 as (_ & _ & _ & ->). reflexivity. }
  assert (Hlow : toLowerCase (ipv4_serialize a) = ipv4_serialize a).
  { apply toLowerCase_id. intros c Hc. now apply dotted_facts, Hdot. }
  assert (Hforb : existsb forbidden_domain (ipv4_serialize a) = false).
  { apply existsb_false_forall. intros c Hc. now apply dotted_facts, Hdot. }
  rewrite host_parse_unfold
    by (intros Hin; apply Hdot, dotted_facts in Hin; tauto).
  rewrite percent_decode_id
    by (intros Hin; apply Hdot, dotted_facts in Hin; tauto).
  rewrite domain_to_ascii_id;
    [|assumption|left; unfold plain_domain; now rewrite Hasc, Hxn|assumption].
  now rewrite Hforb, ends_in_number_ipv4, ipv4_parse_serialize.
Qed.

Lemma removelast_snoc {A} (l : list A) x : removelast (l ++ [x]) = l.
Proof. rewrite removelast_app by discriminate. simpl. apply app_nil_r. Qed.

Lemma host_parse_ipv6 a :
  ipv6_address a = Some a -> host_parse ("[" :: a ++ ["]"]) = Some (IPv6 a).
Proof.
  intros H. cbn [host_parse]. rewrite last_snoc, removelast_snoc, H. reflexivity.
Qed.

Lemma host_parse_serialize h :
  host_ok h = true -> host_parse (host_serialize h) = Some h.
Proof.
  destruct h as [d|a|a]; simpl; intros H.
  - now apply host_parse_domain.
  - apply host_parse_ipv4. now apply N.ltb_lt.
  - apply andb_prop in H as [_ H]. apply bool_decide_eq_true in H.
    now apply host_parse_ipv6.
Qed.

(** ** What the host parser yields *)

Lemma ipv4_parse_bound s a : ipv4_parse s = Some a -> (a < 4294967296)%N.
Proof.
  unfold ipv4_parse.
  destruct (4 <? length (drop_last_empty (split_on (is_char ".") s)))%nat eqn:Hlen;
    [discriminate|].
  destruct (mapM ipv4_number _) as [numbers|] eqn:Hm; [|discriminate].
  apply length_mapM in Hm. rewrite Hm in Hlen. apply Nat.ltb_ge in Hlen. clear Hm.
  destruct numbers as [|n1 [|n2 [|n3 [|n4 [|n5 rest]]]]]; simpl in Hlen; try lia;
    cbn [last removelast existsb length ipv4_combine]; try discriminate.
  - change (256 ^ (5 - N.of_nat 1))%N with 4294967296%N.
    destruct (N.leb_spec 4294967296 n1); [discriminate|]. intros [= <-]. lia.
  - change (256 ^ (5 - N.of_nat 2))%N with 16777216%N.
    change (256 ^ (3 - 0))%N with 16777216%N.
    destruct (N.ltb_spec 255 n1); simpl; [discriminate|].
    destruct (N.leb_spec 16777216 n2); [discriminate|]. intros [= <-]. lia.
  - change (256 ^ (5 - N.of_nat 3))%N with 65536%N.
    change (256 ^ (3 - 0))%N with 16777216%N.
    change (256 ^ (3 - (0 + 1)))%N with 65536%N.
    destruct (N.ltb_spec 255 n1); simpl; [discriminate|].
    destruct (N.ltb_spec 255 n2); simpl; [discriminate|].
    destruct (N.leb_spec 65536 n3); [discriminate|]. intros [= <-]. lia.
  - change (256 ^ (5 - N.of_nat 4))%N with 256%N.
    change (256 ^ (3 - 0))%N with 16777216%N.
    change (256 ^ (3 - (0 + 1)))%N with 65536%N.
    change (256 ^ (3 - (0 + 1 + 1)))%N with 256%N.
    destruct (N.ltb_spec 255 n1); simpl; [discriminate|].
    destruct (N.ltb_spec 255 n2); simpl; [discriminate|].
    destruct (N.ltb_spec 255 n3); simpl; [discriminate|].
    destruct (N.leb_spec 256 n4); [discriminate|]. intros [= <-]. lia.
Qed.

Lemma split_on_map p (f : ascii -> ascii) s :
  (forall c, p (f c) = p c) ->
  split_on p (map f s) = map (map f) (split_on p s).
Proof.
  intros Hp. induction s as [|c s IH]; simpl; [reflexivity|].
  rewrite Hp. destruct (p c); simpl; [now rewrite IH|].
  rewrite IH. destruct (split_on p s) as [|h t] eqn:E; simpl; [|reflexivity].
  now apply split_on_nonempty in E.
Qed.

Lemma lower_char_dot c : is_char "." (lower_char c) = is_char "." c.
Proof. each_char c. Qed.

Lemma lower_char_ascii c : is_ascii (lower_char c) = is_ascii c.
Proof. each_char c. Qed.

Lemma xn_label_lower l : xn_label (toLowerCase l) = xn_label l.
Proof. unfold xn_label. now rewrite toLowerCase_idem. Qed.

Lemma plain_domain_lower d : plain_domain (toLowerCase d) = plain_domain d.
Proof.
  unfold plain_domain. f_equal.
  - unfold toLowerCase. rewrite forallb_fmap.
    apply forallb_eq. intros; apply lower_char_ascii.
  - f_equal. unfold toLowerCase. rewrite split_on_map by apply lower_char_dot.
    rewrite existsb_fmap. apply existsb_eq. intros; apply xn_label_lower.
Qed.

Lemma domain_ok_intro d :
  d <> [] -> forallb is_ascii d = true ->
  plain_domain d = true \/ unicode_to_ascii d = Some d ->
  toLowerCase d = d ->
  existsb forbidden_domain d = false -> ends_in_number d = false ->
  domain_ok d = true.
Proof.
  intros Hne Hasc Hd Hlow Hforb Hnum. unfold domain_ok.
  rewrite Hasc, Hforb, Hnum, (bool_decide_eq_true_2 _ Hlow),
    (bool_decide_eq_false_2 _ Hne).
  destruct Hd as [->|Hd]; [reflexivity|].
  rewrite (bool_decide_eq_true_2 _ Hd). now rewrite orb_true_r.
Qed.

Lemma domain_to_ascii_ok d0 d :
  domain_to_ascii d0 = Some d ->
  existsb forbidden_domain d = false -> ends_in_number d = false ->
  domain_ok d = true.
Proof.
  unfold domain_to_ascii. destruct (plain_domain d0) eqn:Hp.
  - destruct (toLowerCase d0) as [|c r] eqn:E; [discriminate|].
    intros [= <-] Hforb Hnum. rewrite <- E in *.
    assert (Hpl : plain_domain (toLowerCase d0) = true)
      by now rewrite plain_domain_lower.
    apply domain_ok_intro; try assumption.
    + rewrite E. discriminate.
    + unfold plain_domain in Hpl. now apply andb_prop in Hpl as [Hpl _].
    + now left.
    + apply toLowerCase_idem.
  - destruct (unicode_to_ascii d0) as [[|c r]|] eqn:E; try discriminate.
    intros [= <-] Hforb Hnum.
    apply domain_ok_intro; try assumption.
    + discriminate.
    + exact (to_ascii_ascii _ _ E).
    + destruct (plain_domain (c :: r)) eqn:Hpl; [now left|right].
      exact (to_ascii_fixed _ _ E Hpl).
    + exact (to_ascii_lower _ _ E).
Qed.

Lemma host_parse_ok input h : host_parse input = Some h -> host_ok h = true.
Proof.
  intros H.
  destruct (decide (head input = Some "[")) as [Hb|Hb].
  { destruct input as [|c r]; [discriminate|]. injection Hb as ->.
    cbn [host_parse] in H. destruct (last r) as [x|]; [|discriminate].
    destruct (ascii_dec x "]") as [->|Hx].
    - destruct (ipv6_address (removelast r)) as [a|] eqn:E; [|discriminate].
      injection H as <-. cbn [host_ok].
      rewrite (ipv6_chars _ _ E), (bool_decide_eq_true_2 _ (ipv6_fixed _ _ E)).
      reflexivity.
    - exfalso. revert H. clear -Hx.
      destruct x as [[] [] [] [] [] [] [] []]; try discriminate. congruence. }
  assert (H' : match domain_to_ascii (percent_decode input) with
               | None => None
               | Some asciiDomain =>
                   if existsb forbidden_domain asciiDomain then None
                   else if ends_in_number asciiDomain
                        then IPv4 <$> ipv4_parse asciiDomain
                        else Some (Domain asciiDomain)
               end = Some h).
  { unfold host_parse in H. destruct input as [|c r]; [exact H|].
    destruct c as [[] [] [] [] [] [] [] []]; try exact H. now destruct Hb. }
  clear H. destruct (domain_to_ascii _) as [d|] eqn:Hd; [|discriminate].
  destruct (existsb forbidden_domain d) eqn:Hforb; [discriminate|].
  destruct (ends_in_number d) eqn:Hnum.
  - destruct (ipv4_parse d) as [a|] eqn:Ha; [|discriminate].
    injection H' as <-. simpl. apply N.ltb_lt. eapply ipv4_parse_bound; eauto.
  - injection H' as <-. simpl. eapply domain_to_ascii_ok; eauto.
Qed.

(** * What the parser yields *)

Lemma forallb_removelast {A} (p : A -> bool) l :
  forallb p l = true -> forallb p (removelast l) = true.
Proof.
  induction l as [|a [|b l] IH]; simpl; auto.
  intros H. apply andb_prop in H as [Ha H]. rewrite Ha. simpl. apply IH. exact H.
Qed.

Lemma forallb_snoc {A} (p : A -> bool) l x :
  forallb p l = true -> p x = true -> forallb p (l ++ [x]) = true.
Proof. intros Hl Hx. rewrite forallb_app. simpl. now rewrite Hl, Hx. Qed.

Lemma segment_ok_encoded s :
  free is_slash s = true ->
  single_dot (percent_encode path_set s) = false ->
  double_dot (percent_encode path_set s) = false ->
  segment_ok (percent_encode path_set s) = true.
Proof.
  intros Hs H1 H2. unfold segment_ok. rewrite H1, H2.
  rewrite percent_encode_self by apply encodable_path.
  rewrite percent_encode_keeps; [reflexivity | apply encodable_slash |].
  intros c Hc _. eapply free_In; eauto.
Qed.

Lemma path_state_ok segs : forall acc,
  forallb segment_ok acc = true ->
  Forall (fun s => free is_slash s = true) segs ->
  segs <> [] ->
  forallb segment_ok (path_state acc segs) = true /\ path_state acc segs <> [].
Proof.
  induction segs as [|s rest IH]; intros acc Hacc Hsegs Hne; [congruence|].
  inversion Hsegs as [|? ? Hs Hrest]; subst. cbn [path_state].
  destruct rest as [|s2 rest].
  - destruct (double_dot _) eqn:H2; [|destruct (single_dot _) eqn:H1].
    + split; [|now destruct (shorten acc)].
      apply forallb_snoc; [now apply forallb_removelast | reflexivity].
    + split; [|now destruct acc]. now apply forallb_snoc.
    + split; [|now destruct acc]. apply forallb_snoc; [assumption|].
      now apply segment_ok_encoded.
  - apply IH; [|assumption|discriminate].
    destruct (double_dot _) eqn:H2; [|destruct (single_dot _) eqn:H1].
    + now apply forallb_removelast.
    + assumption.
    + apply forallb_snoc; [assumption|]. now apply segment_ok_encoded.
Qed.

Lemma parse_path_query_fragment_ok s p q f :
  parse_path_query_fragment s = (p, q, f) ->
  forallb segment_ok p = true /\ p <> []
  /\ match q with Some q => free special_query_set q = true | None => True end.
Proof.
  unfold parse_path_query_fragment.
  set (s1 := match s with [] => [] | c :: r => if is_slash c then r else s end).
  destruct (break _ s1) as [pp rest] eqn:Hb.
  pose proof (path_state_ok (split_on is_slash pp) [] eq_refl
                (split_on_free _ _) (split_on_nonempty _ _)) as [Hok Hne].
  destruct rest as [|c r].
  - intros [= <- <- <-]. auto.
  - destruct (is_char "?" c).
    + destruct (break (is_char "#") r) as [qq rest'].
      intros [= <- <- <-]. repeat split; auto.
      apply percent_encode_self, encodable_special_query.
    + intros [= <- <- <-]. auto.
Qed.

Lemma parse_port_ok scheme buffer p :
  parse_port scheme buffer = Some p -> port_ok scheme p = true.
Proof.
  unfold parse_port. destruct (forallb is_digit buffer); [|discriminate].
  destruct buffer as [|c r]; [now intros [= <-]|].
  destruct (parse_radix 10 (c :: r)) as [n|]; [|discriminate].
  destruct (N.ltb_spec 65535 n); [discriminate|].
  destruct (bool_decide (default_port scheme = Some n)) eqn:E.
  - now intros [= <-].
  - intros [= <-]. simpl. rewrite E. rewrite andb_true_r. apply N.leb_le. lia.
Qed.

Lemma parse_canonical input u :
  parse input = Some u -> canonical (clear_hash u) = true /\ path u <> [].
Proof.
  unfold parse. intros H.
  destruct (parse_scheme (preprocess input)) as [[sch r0]|]; [|discriminate].
  cbn [mbind option_bind] in H.
  destruct (default_port sch) as [dp|] eqn:Hdp; [|discriminate].
  cbn [mbind option_bind] in H.
  destruct (break is_authority_end (special_authority_slashes r0)) as [authority rest].
  match type of H with
  | mbind _ ?c = _ => destruct c as [[[user pass] hostport]|] eqn:Hcred; [|discriminate]
  end.
  cbn [mbind option_bind] in H.
  destruct (host_span false hostport) as [hn after].
  destruct hn as [|h0 hn]; [discriminate|].
  destruct (host_parse (h0 :: hn)) as [h|] eqn:Hhost; [|discriminate].
  cbn [mbind option_bind] in H.
  destruct (parse_port sch (tail after)) as [p|] eqn:Hport; [|discriminate].
  cbn [mbind option_bind] in H.
  destruct (parse_path_query_fragment rest) as [[pa q] f] eqn:Hpath.
  injection H as <-.
  apply parse_path_query_fragment_ok in Hpath as (Hpa & Hne & Hq).
  split; [|exact Hne].
  unfold canonical, clear_hash. cbn [scheme username password host port path query fragment].
  rewrite Hdp, (host_parse_ok _ _ Hhost), (parse_port_ok _ _ _ Hport), Hpa.
  rewrite bool_decide_eq_true_2 by eauto.
  assert (Hu : free userinfo_set user = true /\ free userinfo_set pass = true).
  { destruct (split_last_at authority) as [[cr hp]|].
    - destruct hp; [discriminate|].
      destruct (break (is_char ":") cr) as [x y]. injection Hcred as <- <- _.
      split; apply percent_encode_self, encodable_userinfo.
    - injection Hcred as <- <- _. auto. }
  destruct Hu as [-> ->]. simpl.
  destruct q; simpl; [rewrite Hq|]; reflexivity.
Qed.

(** * Parsing a serialised record *)

Lemma drop_while_rev_id p s :
  match last s with Some c => p c = false | None => True end ->
  rev (drop_while p (rev s)) = s.
Proof.
  destruct (last s) as [c|] eqn:E.
  - apply last_Some in E as [l ->]. rewrite rev_app_distr. simpl.
    intros ->. simpl. now rewrite rev_involutive.
  - apply last_None in E as ->. reflexivity.
Qed.

Lemma preprocess_id s : forallb printable s = true -> preprocess s = s.
Proof.
  intros H. unfold preprocess.
  assert (P1 : forall c, In c s -> is_c0_or_space c = false /\ is_tab_or_newline c = false).
  { rewrite forallb_forall in H. intros c Hc. apply H in Hc. revert Hc. each_char c. }
  rewrite (drop_while_id _ s).
  2:{ destruct s as [|c r]; [exact I|]. apply P1. now left. }
  rewrite drop_while_rev_id.
  2:{ destruct (last s) as [c|] eqn:E; [|exact I].
      apply last_Some in E as [l ->]. apply P1. apply in_or_app. right. now left. }
  clear H. induction s as [|c s IH]; [reflexivity|].
  rewrite filter_cons.
  destruct (decide _) as [_|Hn].
  - f_equal. apply IH. intros x Hx. apply P1. now right.
  - exfalso. apply Hn. apply P1. now left.
Qed.

Lemma scheme_cases sch :
  is_Some (default_port sch) -> sch = lit "http" \/ sch = lit "https".
Proof.
  unfold default_port. intros [p Hp].
  destruct (bool_decide (sch = lit "http")) eqn:E1.
  - left. now apply bool_decide_eq_true in E1.
  - destruct (bool_decide (sch = lit "https")) eqn:E2; [|discriminate].
    right. now apply bool_decide_eq_true in E2.
Qed.

Lemma parse_scheme_special sch r :
  is_Some (default_port sch) ->
  parse_scheme (sch ++ lit "://" ++ r) = Some (sch, "/" :: "/" :: r).
Proof. intros H. apply scheme_cases in H as [-> | ->]; reflexivity. Qed.

Lemma split_last_at_none s : free (is_char "@") s = true -> split_last_at s = None.
Proof.
  induction s as [|c s IH]; simpl; [reflexivity|]. intros H.
  apply andb_prop in H as [Hc H]. apply negb_true_iff in Hc. now rewrite IH, Hc.
Qed.

Lemma split_last_at_app c hp :
  free (is_char "@") hp = true -> split_last_at (c ++ "@" :: hp) = Some (c, hp).
Proof.
  intros H. induction c as [|x c IH]; simpl.
  - now rewrite split_last_at_none.
  - now rewrite IH.
Qed.

Lemma host_span_app h rest :
  free (fun c => is_char ":" c || is_char "[" c || is_char "]" c) h = true ->
  match rest with [] => True | c :: _ => c = ":" end ->
  host_span false (h ++ rest) = (h, rest).
Proof.
  intros Hh Hr. induction h as [|c h IH]; simpl.
  - destruct rest as [|c r]; [reflexivity|]. subst c. reflexivity.
  - simpl in Hh. apply andb_prop in Hh as [Hc Hh].
    apply negb_true_iff in Hc. apply orb_false_iff in Hc as [Hc H3].
    apply orb_false_iff in Hc as [H1 H2].
    rewrite H1, H2, H3. simpl. now rewrite IH.
Qed.

Lemma parse_port_decimal sch p :
  port_ok sch (Some p) = true -> parse_port sch (decimal p) = Some (Some p).
Proof.
  simpl. intros H. apply andb_prop in H as [Hp Hd].
  apply N.leb_le in Hp. apply negb_true_iff in Hd.
  pose proof (numeral_ok_port p Hp) as Hn.
  apply numeral_ok_elim in Hn as (Hne & Hparse & _).
  unfold parse_port. rewrite decimal_digits, Hparse, Hd.
  destruct (decimal p); [congruence|].
  destruct (N.ltb_spec 65535 p); [lia|reflexivity].
Qed.

(** ** Paths *)

Lemma segment_ok_elim s :
  segment_ok s = true ->
  free path_set s = true /\ free is_slash s = true
  /\ single_dot s = false /\ double_dot s = false.
Proof.
  unfold segment_ok. intros H. repeat (apply andb_prop in H as [H ?]).
  repeat match goal with H : negb _ = true |- _ => apply negb_true_iff in H end.
  auto.
Qed.

Lemma split_on_path s rest :
  forallb segment_ok (s :: rest) = true ->
  split_on is_slash (s ++ path_serialize rest) = s :: rest.
Proof.
  revert s. induction rest as [|s2 rest IH]; intros s H.
  - simpl. rewrite app_nil_r. apply split_on_none.
    simpl in H. rewrite andb_true_r in H. now apply segment_ok_elim in H.
  - simpl in H. apply andb_prop in H as [Hs H].
    change (path_serialize (s2 :: rest)) with ("/" :: s2 ++ path_serialize rest).
    rewrite split_on_app; [|now apply segment_ok_elim in Hs|reflexivity].
    f_equal. now apply IH.
Qed.

Lemma path_state_id segs : forall acc,
  forallb segment_ok segs = true -> segs <> [] ->
  path_state acc segs = acc ++ segs.
Proof.
  induction segs as [|s rest IH]; intros acc H Hne; [congruence|].
  simpl in H. apply andb_prop in H as [Hs H].
  apply segment_ok_elim in Hs as (Hp & _ & H1 & H2).
  cbn [path_state]. rewrite (percent_encode_free _ _ Hp), H1, H2.
  destruct rest as [|s2 rest]; [reflexivity|].
  rewrite IH by (assumption || discriminate). now rewrite <- app_assoc.
Qed.

Lemma path_serialize_free p set :
  set "/" = false ->
  (forall c, path_set c = false -> set c = false) ->
  forallb segment_ok p = true -> free set (path_serialize p) = true.
Proof.
  intros Hs Hw. induction p as [|s p IH]; simpl; [reflexivity|].
  intros H. apply andb_prop in H as [H1 H2].
  unfold free in *. simpl. rewrite Hs. simpl. rewrite forallb_app.
  rewrite IH by assumption. rewrite andb_true_r.
  apply segment_ok_elim in H1 as (H1 & _). eapply free_weaken; eauto.
Qed.

Lemma serialize_shape u :
  fragment u = None ->
  serialize u = scheme u ++ lit "://" ++ authority u ++ after_authority u.
Proof.
  intros Hf. unfold serialize, authority, after_authority, credentials,
    port_serialize, query_serialize, path_serialize. rewrite Hf.
  rewrite app_nil_r. now rewrite !app_assoc.
Qed.

(** Characters of the parts. *)

Lemma userinfo_free_facts c :
  userinfo_set c = false ->
  printable c = true /\ is_authority_end c = false /\ is_char "@" c = false
  /\ is_char ":" c = false.
Proof. each_char c. Qed.

Lemma hostish_strict c :
  hostish c = true ->
  printable c = true /\ is_authority_end c = false /\ is_char "@" c = false
  /\ (is_char ":" c || is_char "[" c || is_char "]" c) = false.
Proof. each_char c. Qed.

Lemma hostchar_strict c :
  hostchar c = true ->
  printable c = true /\ is_authority_end c = false /\ is_char "@" c = false.
Proof. each_char c. Qed.

Lemma hostish_hostchar c : hostish c = true -> hostchar c = true.
Proof. unfold hostchar. now intros ->. Qed.

Lemma ipv6_char_facts c :
  ipv6_char c = true ->
  hostchar c = true /\ lower_char c = c
  /\ (is_char "[" c || is_char "]" c) = false.
Proof. each_char c; repeat split; discriminate. Qed.

Lemma digit_hostish c : is_digit c = true -> hostish c = true.
Proof. each_char c. Qed.

Lemma digit_hostchar c : is_digit c = true -> hostchar c = true.
Proof. each_char c. Qed.

Lemma dotted_hostish c : dotted c = true -> hostish c = true.
Proof. each_char c. Qed.

Lemma path_free_facts c :
  path_set c = false ->
  printable c = true /\ one_of [63; 35]%N c = false.
Proof. unfold path_set. destruct caret_in_path_set; each_char c. Qed.

Lemma query_free_facts c :
  special_query_set c = false -> printable c = true /\ is_char "#" c = false.
Proof. each_char c. Qed.

Lemma forallb_impl {A} (p q : A -> bool) l :
  (forall x, p x = true -> q x = true) -> forallb p l = true -> forallb q l = true.
Proof. intros H. rewrite !forallb_forall. auto. Qed.

Lemma host_serialize_hostish h :
  host_ok h = true -> named h = true ->
  forallb hostish (host_serialize h) = true.
Proof.
  destruct h as [d|a|a]; simpl; intros H Hn; [| |discriminate].
  - apply domain_ok_elim in H as (Hne & Hasc & _ & _ & Hforb & _).
    rewrite existsb_false_forall in Hforb. rewrite forallb_forall in *.
    intros c Hc. unfold hostish. now rewrite (Hasc c Hc), (Hforb c Hc).
  - eapply forallb_impl; [apply dotted_hostish | apply ipv4_serialize_dotted].
Qed.

Lemma host_serialize_hostchar h :
  host_ok h = true ->
  forallb hostchar (host_serialize h) = true /\ host_serialize h <> [].
Proof.
  destruct h as [d|a|a]; intros H.
  - split; [|now apply domain_ok_elim in H].
    eapply forallb_impl; [apply hostish_hostchar|].
    now apply (host_serialize_hostish (Domain d)).
  - split.
    + eapply forallb_impl; [apply hostish_hostchar|].
      now apply (host_serialize_hostish (IPv4 a)).
    + simpl. unfold ipv4_serialize. destruct (decimal _); discriminate.
  - split; [|discriminate]. simpl in *. apply andb_prop in H as [H _].
    rewrite forallb_app. simpl. rewrite andb_true_r.
    eapply forallb_impl; [|exact H]. intros c Hc. now apply ipv6_char_facts in Hc.
Qed.

Lemma canonical_elim u :
  canonical u = true ->
  is_Some (default_port (scheme u))
  /\ free userinfo_set (username u) = true
  /\ free userinfo_set (password u) = true
  /\ host_ok (host u) = true
  /\ port_ok (scheme u) (port u) = true
  /\ forallb segment_ok (path u) = true
  /\ match query u with Some q => free special_query_set q = true | None => True end
  /\ fragment u = None.
Proof.
  unfold canonical. intros H. repeat (apply andb_prop in H as [H ?]).
  apply bool_decide_eq_true in H.
  match goal with H : bool_decide (fragment u = None) = true |- _ =>
    apply bool_decide_eq_true in H end.
  repeat split; auto. destruct (query u); auto.
Qed.

Lemma free_forallb set q s :
  (forall c, set c = false -> q c = true) -> free set s = true -> forallb q s = true.
Proof.
  intros H. unfold free. apply forallb_impl. intros c Hc. apply H.
  now apply negb_true_iff.
Qed.

Lemma forallb_free q set s :
  (forall c, q c = true -> set c = false) -> forallb q s = true -> free set s = true.
Proof.
  intros H. unfold free. apply forallb_impl. intros c Hc.
  apply negb_true_iff. auto.
Qed.

Lemma host_span_inside a rest :
  free (fun c => is_char "[" c || is_char "]" c) a = true ->
  match rest with [] => True | c :: _ => c = ":" end ->
  host_span true (a ++ "]" :: rest) = (a ++ ["]"], rest).
Proof.
  intros Ha Hr. induction a as [|c a IH].
  - cbn [app host_span]. change (is_char "[" "]") with false.
    change (is_char "]" "]") with true. change (is_char ":" "]") with false.
    cbv iota. cbn [andb negb].
    destruct rest as [|c r]; [reflexivity|]. subst c. reflexivity.
  - simpl in Ha. apply andb_prop in Ha as [Hc Ha].
    apply negb_true_iff in Hc. apply orb_false_iff in Hc as [H1 H2].
    cbn [app host_span]. rewrite H1, H2, andb_false_r. cbv iota.
    now rewrite (IH Ha).
Qed.

Lemma host_span_host h rest :
  host_ok h = true ->
  match rest with [] => True | c :: _ => c = ":" end ->
  host_span false (host_serialize h ++ rest) = (host_serialize h, rest).
Proof.
  intros H Hr. destruct (named h) eqn:Hn.
  - apply host_span_app; [|exact Hr].
    eapply forallb_free; [|exact (host_serialize_hostish h H Hn)].
    intros c Hc. now apply hostish_strict in Hc.
  - destruct h as [d|a|a]; try discriminate. simpl in H.
    apply andb_prop in H as [H _]. cbn [host_serialize app host_span].
    change (is_char ":" "[") with false. change (is_char "[" "[") with true.
    cbv iota. cbn [andb]. rewrite <- app_assoc. cbn [app].
    rewrite host_span_inside; [reflexivity| |exact Hr].
    eapply forallb_free; [|exact H]. intros c Hc. now apply ipv6_char_facts in Hc.
Qed.

(** The characters of the authority of a canonical record. *)
Lemma credentials_chars u (q : ascii -> bool) :
  canonical u = true ->
  (forall c, userinfo_set c = false -> q c = true) -> q ":" = true -> q "@" = true ->
  forallb q (credentials u) = true.
Proof.
  intros H Hq Hc Ha. apply canonical_elim in H as (_ & Hu & Hp & _).
  unfold credentials. destruct (_ && _); [reflexivity|].
  rewrite !forallb_app. rewrite (free_forallb _ _ _ Hq Hu). simpl.
  destruct (bool_decide _); simpl; rewrite ?Hc, ?Ha; [reflexivity|].
  now rewrite (free_forallb _ _ _ Hq Hp).
Qed.

Lemma host_port_chars u (q : ascii -> bool) :
  canonical u = true ->
  (forall c, hostchar c = true -> q c = true) -> q ":" = true ->
  forallb q (host_serialize (host u) ++ port_serialize (port u)) = true.
Proof.
  intros H Hq Hc. apply canonical_elim in H as (_ & _ & _ & Hh & _).
  apply host_serialize_hostchar in Hh as [Hh _].
  rewrite forallb_app, (forallb_impl _ _ _ Hq Hh). simpl.
  destruct (port u) as [p|]; simpl; [|reflexivity]. rewrite Hc. simpl.
  eapply forallb_impl; [|apply decimal_digits]. intros c Hd. apply Hq.
  now apply digit_hostchar.
Qed.

Lemma authority_chars u (q : ascii -> bool) :
  canonical u = true ->
  (forall c, userinfo_set c = false -> q c = true) ->
  (forall c, hostchar c = true -> q c = true) ->
  q ":" = true -> q "@" = true ->
  forallb q (authority u) = true.
Proof.
  intros H H1 H2 H3 H4. unfold authority. rewrite forallb_app.
  now rewrite credentials_chars, host_port_chars.
Qed.

Lemma after_authority_chars u (q : ascii -> bool) :
  canonical u = true ->
  (forall c, path_set c = false -> q c = true) ->
  (forall c, special_query_set c = false -> q c = true) ->
  q "/" = true -> q "?" = true ->
  forallb q (after_authority u) = true.
Proof.
  intros H H1 H2 H3 H4. apply canonical_elim in H as (_ & _ & _ & _ & _ & Hp & Hq & _).
  unfold after_authority. rewrite forallb_app. apply andb_true_intro. split.
  - clear Hq. induction (path u) as [|s p IH]; simpl; [reflexivity|].
    simpl in Hp. apply andb_prop in Hp as [Hs Hp]. rewrite H3. simpl.
    rewrite forallb_app, IH by assumption. rewrite andb_true_r.
    apply segment_ok_elim in Hs as (Hs & _). exact (free_forallb _ _ _ H1 Hs).
  - destruct (query u) as [q0|]; simpl; [|reflexivity]. rewrite H4. simpl.
    exact (free_forallb _ _ _ H2 Hq).
Qed.

Lemma serialize_printable u :
  canonical u = true -> forallb printable (serialize u) = true.
Proof.
  intros H. pose proof (canonical_elim u H) as (Hs & _ & _ & _ & _ & _ & _ & Hf).
  rewrite (serialize_shape u Hf), !forallb_app.
  rewrite authority_chars, after_authority_chars; try assumption; try reflexivity;
    try (intros c Hc; first [now apply userinfo_free_facts in Hc
                            | now apply hostchar_strict in Hc
                            | now apply path_free_facts in Hc
                            | now apply query_free_facts in Hc]).
  apply scheme_cases in Hs as [-> | ->]; reflexivity.
Qed.

Lemma parse_after_authority u :
  canonical u = true -> (path u = [] -> query u = None) ->
  parse_path_query_fragment (after_authority u) = (fix_path (path u), query u, None).
Proof.
  intros H Hpq. apply canonical_elim in H as (_ & _ & _ & _ & _ & Hp & Hq & _).
  unfold after_authority. destruct (path u) as [|s rest] eqn:Epath.
  - rewrite (Hpq eq_refl). reflexivity.
  - unfold parse_path_query_fragment.
    change (path_serialize (s :: rest)) with ("/" :: s ++ path_serialize rest).
    cbn [app]. change (is_slash "/") with true. cbv iota.
    assert (Hfree : forallb (fun c => negb (one_of [63; 35]%N c)) (s ++ path_serialize rest) = true).
    { change (free (one_of [63; 35]%N) (s ++ path_serialize rest) = true).
      rewrite free_app. simpl in Hp. apply andb_prop in Hp as [Hs Hr].
      rewrite (path_serialize_free rest); [|reflexivity| |assumption].
      2:{ intros c Hc. now apply path_free_facts in Hc. }
      rewrite andb_true_r. apply segment_ok_elim in Hs as (Hs & _).
      eapply free_weaken; [|exact Hs]. intros c Hc. now apply path_free_facts in Hc. }
    rewrite break_app; [|exact Hfree|].
    2:{ destruct (query u); simpl; [reflexivity|exact I]. }
    rewrite split_on_path by assumption.
    rewrite path_state_id by (assumption || discriminate). cbn [app fix_path].
    destruct (query u) as [q|]; [|reflexivity].
    cbn [query_serialize]. change (is_char "?" "?") with true. cbv iota.
    rewrite <- (app_nil_r q) at 1. rewrite break_app; [| |exact I].
    2:{ eapply free_weaken; [|exact Hq]. intros c Hc. now apply query_free_facts in Hc. }
    now rewrite (percent_encode_free _ _ Hq).
Qed.

Lemma authority_free u :
  canonical u = true -> free is_authority_end (authority u) = true.
Proof.
  intros H. apply (authority_chars u (fun c => negb (is_authority_end c))); auto.
  - intros c Hc. apply userinfo_free_facts in Hc as (_ & -> & _). reflexivity.
  - intros c Hc. apply hostchar_strict in Hc as (_ & -> & _). reflexivity.
Qed.

Lemma host_port_free_at u :
  canonical u = true ->
  free (is_char "@") (host_serialize (host u) ++ port_serialize (port u)) = true.
Proof.
  intros H. apply (host_port_chars u (fun c => negb (is_char "@" c))); auto.
  intros c Hc. apply hostchar_strict in Hc as (_ & _ & ->). reflexivity.
Qed.

Lemma special_authority_slashes_id r :
  match r with [] => True | c :: _ => is_authority_end c = false end ->
  special_authority_slashes ("/" :: "/" :: r) = r.
Proof.
  intros H. change (special_authority_slashes ("/" :: "/" :: r)) with (drop_while is_slash r).
  apply drop_while_id. destruct r as [|c r]; [exact I|]. revert H. each_char c.
Qed.

Lemma parse_serialize u :
  canonical u = true -> (path u = [] -> query u = None) ->
  parse (serialize u) = Some (with_path (fix_path (path u)) u).
Proof.
  intros H Hpq.
  pose proof (canonical_elim u H) as (Hs & Huser & Hpass & Hhost & Hport & _ & _ & Hf).
  pose proof (host_serialize_hostchar _ Hhost) as [Hhc Hhne].
  unfold parse. rewrite preprocess_id by now apply serialize_printable.
  rewrite (serialize_shape u Hf), (parse_scheme_special _ _ Hs).
  cbn [mbind option_bind]. destruct Hs as [dp Hdp]. rewrite Hdp. cbn [mbind option_bind].
  pose proof (authority_free u H) as Hauth.
  assert (Hane : authority u <> []).
  { unfold authority. destruct (credentials u); [|discriminate].
    destruct (host_serialize (host u)); [congruence|discriminate]. }
  rewrite special_authority_slashes_id.
  2:{ destruct (authority u) as [|c r] eqn:E; [congruence|]. simpl.
      simpl in Hauth. apply andb_prop in Hauth as [Hc _]. now apply negb_true_iff. }
  rewrite break_app; [|exact Hauth|].
  2:{ unfold after_authority. destruct (path u); simpl; [|reflexivity].
      destruct (query u); simpl; [reflexivity|exact I]. }
  (* credentials *)
  assert (Hcred :
    match split_last_at (authority u) with
    | Some (credentials, hostport) =>
        match hostport with
        | [] => None
        | _ =>
            let '(u0, p) := break (is_char ":") credentials in
            Some (percent_encode userinfo_set u0,
                  percent_encode userinfo_set (tail p), hostport)
        end
    | None => Some ([], [], authority u)
    end = Some (username u, password u,
                host_serialize (host u) ++ port_serialize (port u))).
  { unfold authority, credentials.
    destruct (bool_decide (username u = []) && bool_decide (password u = [])) eqn:E.
    - apply andb_prop in E as [Eu Ep].
      apply bool_decide_eq_true in Eu, Ep. cbn [app].
      rewrite split_last_at_none by now apply host_port_free_at. now rewrite Eu, Ep.
    - change (lit "@") with ["@"]. rewrite <- !app_assoc.
      set (pw := if bool_decide (password u = []) then [] else ":" :: password u).
      rewrite (app_assoc (username u) pw). cbn [app].
      rewrite split_last_at_app by now apply host_port_free_at.
      destruct (host_serialize (host u) ++ port_serialize (port u)) eqn:Ehp.
      { destruct (host_serialize (host u)); [congruence|discriminate]. }
      rewrite break_app.
      + rewrite (percent_encode_free _ _ Huser). subst pw.
        destruct (bool_decide (password u = [])) eqn:Ep.
        * apply bool_decide_eq_true in Ep. now rewrite Ep.
        * cbn [tail]. now rewrite (percent_encode_free _ _ Hpass).
      + eapply free_weaken; [|exact Huser]. intros c Hc.
        now apply userinfo_free_facts in Hc.
      + subst pw. destruct (bool_decide (password u = [])); [exact I|reflexivity]. }
  rewrite Hcred. clear Hcred. cbn [mbind option_bind].
  rewrite (host_span_host _ _ Hhost).
  2:{ destruct (port u); simpl; auto. }
  destruct (host_serialize (host u)) as [|h0 hr] eqn:Eh; [congruence|].
  rewrite <- Eh, (host_parse_serialize _ Hhost). cbn [mbind option_bind].
  assert (Hp : parse_port (scheme u) (tail (port_serialize (port u))) = Some (port u)).
  { destruct (port u) as [p|]; simpl tail; [|reflexivity]. now apply parse_port_decimal. }
  rewrite Hp. cbn [mbind option_bind].
  rewrite (parse_after_authority u H Hpq). rewrite <- Hf.
  unfold with_path. rewrite Hf. reflexivity.
Qed.

(** * Lower-casing a serialised record *)

Lemma free_lower set s :
  (forall c, set c = false -> set (lower_char c) = false) ->
  free set s = true -> free set (toLowerCase s) = true.
Proof.
  intros Hset. unfold free, toLowerCase. rewrite forallb_fmap.
  apply forallb_impl. intros c Hc. apply negb_true_iff, Hset. now apply negb_true_iff.
Qed.

Lemma lower_userinfo c : userinfo_set c = false -> userinfo_set (lower_char c) = false.
Proof. each_char c. Qed.
Lemma lower_path c : path_set c = false -> path_set (lower_char c) = false.
Proof. unfold path_set. destruct caret_in_path_set; each_char c. Qed.
Lemma lower_query c : special_query_set c = false -> special_query_set (lower_char c) = false.
Proof. each_char c. Qed.
Lemma lower_slash c : is_slash c = false -> is_slash (lower_char c) = false.
Proof. each_char c. Qed.
Lemma lower_digit c : is_digit c = true -> lower_char c = c.
Proof. each_char c. Qed.

Lemma single_dot_lower s : single_dot (toLowerCase s) = single_dot s.
Proof. unfold single_dot. now rewrite toLowerCase_idem. Qed.
Lemma double_dot_lower s : double_dot (toLowerCase s) = double_dot s.
Proof. unfold double_dot. now rewrite toLowerCase_idem. Qed.

Lemma segment_ok_lower s : segment_ok s = true -> segment_ok (toLowerCase s) = true.
Proof.
  intros H. apply segment_ok_elim in H as (H1 & H2 & H3 & H4).
  unfold segment_ok. rewrite single_dot_lower, double_dot_lower, H3, H4.
  rewrite (free_lower _ _ lower_path H1), (free_lower _ _ lower_slash H2). reflexivity.
Qed.

Lemma canonical_lower u : canonical u = true -> canonical (lower_url u) = true.
Proof.
  intros H. apply canonical_elim in H as (Hs & Hu & Hp & Hh & Hport & Hpath & Hq & Hf).
  unfold canonical, lower_url.
  cbn [scheme username password host port path query fragment].
  rewrite bool_decide_eq_true_2 by assumption.
  rewrite (free_lower _ _ lower_userinfo Hu), (free_lower _ _ lower_userinfo Hp), Hh, Hport.
  rewrite forallb_fmap, (forallb_impl _ _ _ segment_ok_lower Hpath).
  rewrite (bool_decide_eq_true_2 _ Hf).
  destruct (query u) as [q|]; simpl; [|reflexivity].
  now rewrite (free_lower _ _ lower_query Hq).
Qed.

Lemma toLowerCase_nil s : toLowerCase s = [] <-> s = [].
Proof. destruct s; simpl; split; congruence. Qed.

Lemma bool_decide_lower_nil s :
  bool_decide (toLowerCase s = []) = bool_decide (s = []).
Proof. apply bool_decide_ext, toLowerCase_nil. Qed.

Lemma host_serialize_lower h :
  host_ok h = true -> toLowerCase (host_serialize h) = host_serialize h.
Proof.
  destruct h as [d|a|a]; simpl; intros H.
  - now apply domain_ok_elim in H as (_ & _ & _ & H & _).
  - apply toLowerCase_id. intros c Hc.
    pose proof (ipv4_serialize_dotted a) as Hd. rewrite forallb_forall in Hd.
    now apply dotted_facts, Hd.
  - apply andb_prop in H as [H _]. rewrite forallb_forall in H.
    apply (toLowerCase_id ("[" :: a ++ ["]"])). intros c [<-|Hc]; [reflexivity|].
    apply in_app_or in Hc as [Hc|[<-|[]]]; [|reflexivity].
    now apply ipv6_char_facts, H.
Qed.

Lemma decimal_lower n : toLowerCase (decimal n) = decimal n.
Proof.
  apply toLowerCase_id. intros c Hc. apply lower_digit.
  pose proof (decimal_digits n) as H. rewrite forallb_forall in H. auto.
Qed.

Lemma path_serialize_lower p :
  toLowerCase (path_serialize p) = path_serialize (map toLowerCase p).
Proof.
  induction p as [|s p IH]; [reflexivity|].
  change (path_serialize (s :: p)) with ("/" :: s ++ path_serialize p).
  cbn [toLowerCase map]. fold (toLowerCase (s ++ path_serialize p)).
  rewrite toLowerCase_app, IH. reflexivity.
Qed.

Lemma serialize_lower u :
  canonical u = true -> toLowerCase (serialize u) = serialize (lower_url u).
Proof.
  intros H. pose proof (canonical_lower u H) as Hl.
  pose proof (canonical_elim u H) as (Hs & _ & _ & Hh & _ & _ & _ & Hf).
  rewrite (serialize_shape u Hf), (serialize_shape (lower_url u)) by exact Hf.
  rewrite !toLowerCase_app.
  assert (E1 : toLowerCase (scheme u) = scheme (lower_url u)).
  { cbn [lower_url scheme]. apply scheme_cases in Hs as [-> | ->]; reflexivity. }
  assert (E2 : toLowerCase (authority u) = authority (lower_url u)).
  { unfold authority, credentials. cbn [lower_url username password host port].
    rewrite !bool_decide_lower_nil. rewrite !toLowerCase_app, (host_serialize_lower _ Hh).
    f_equal.
    - destruct (_ && _); [reflexivity|]. rewrite !toLowerCase_app. f_equal.
      destruct (bool_decide (password u = [])); reflexivity.
    - f_equal. destruct (port u) as [p|]; [|reflexivity].
      cbn [port_serialize toLowerCase map]. fold (toLowerCase (decimal p)).
      now rewrite decimal_lower. }
  assert (E3 : toLowerCase (after_authority u) = after_authority (lower_url u)).
  { unfold after_authority. cbn [lower_url path query].
    rewrite toLowerCase_app, path_serialize_lower. f_equal.
    destruct (query u); reflexivity. }
  now rewrite E1, E2, E3.
Qed.

Lemma lower_url_lowered u : lowered (lower_url u).
Proof.
  unfold lowered, lower_url. cbn [scheme username password host port path query fragment].
  rewrite !toLowerCase_idem. f_equal.
  - rewrite map_map. apply map_ext. intros; apply toLowerCase_idem.
  - destruct (query u); simpl; [|reflexivity]. now rewrite toLowerCase_idem.
Qed.

Lemma lowered_serialize u :
  canonical u = true -> lowered u -> toLowerCase (serialize u) = serialize u.
Proof. intros H Hl. now rewrite (serialize_lower u H), Hl. Qed.

(** * [trim] on printable text *)

Lemma ws_len_printable c r : printable c = true -> ws_len (c :: r) = 0%nat.
Proof.
  intros H. destruct c as [[] [] [] [] [] [] [] []];
    vm_compute in H; try discriminate H; reflexivity.
Qed.

Lemma printable_not_ws c : printable c = true -> is_ws1 c = false.
Proof. each_char c. Qed.

Lemma ws_len_rev_printable s : forallb printable s = true -> ws_len_rev s = 0%nat.
Proof.
  intros H. destruct s as [|c r]; [reflexivity|].
  simpl in H. apply andb_prop in H as [Hc H].
  unfold ws_len_rev. rewrite (printable_not_ws c Hc).
  destruct r as [|c2 r]; [reflexivity|].
  simpl in H. apply andb_prop in H as [Hc2 H].
  rewrite (ws_len_printable c2 [c] Hc2). cbn [Nat.eqb].
  destruct r as [|c3 r]; [reflexivity|].
  simpl in H. apply andb_prop in H as [Hc3 H].
  now rewrite (ws_len_printable c3 [c2; c] Hc3).
Qed.

Lemma strip_with_zero len fuel s : len s = 0%nat -> strip_with len fuel s = s.
Proof. intros H. destruct fuel; simpl; [reflexivity|]. now rewrite H. Qed.

Lemma trim_printable s : forallb printable s = true -> trim s = s.
Proof.
  intros H. unfold trim, trimStart, trimEnd.
  assert (E : strip_with ws_len (length s) s = s).
  { apply strip_with_zero. destruct s as [|c r]; [reflexivity|].
    simpl in H. apply andb_prop in H as [Hc _]. now apply ws_len_printable. }
  rewrite E. rewrite strip_with_zero; [apply rev_involutive|].
  apply ws_len_rev_printable. rewrite forallb_forall in *. intros c Hc.
  apply H. now apply in_rev.
Qed.

(** * Removing the trailing slash *)

Lemma drop_last_snoc (l : str) x : drop_last (l ++ [x]) = l.
Proof.
  unfold drop_last. rewrite length_app. simpl.
  replace (length l + 1 - 1)%nat with (length l) by lia.
  now rewrite take_app_length.
Qed.

Lemma ends_with_slash_snoc (l : str) x :
  ends_with_slash (l ++ [x]) = bool_decide (x = "/").
Proof.
  unfold ends_with_slash. rewrite last_snoc.
  destruct x as [[] [] [] [] [] [] [] []]; reflexivity.
Qed.

Lemma ends_with_slash_app (a b : str) :
  b <> [] -> ends_with_slash (a ++ b) = ends_with_slash b.
Proof.
  intros Hb. destruct (last b) as [x|] eqn:E.
  - apply last_Some in E as [l ->]. rewrite app_assoc.
    now rewrite !ends_with_slash_snoc.
  - now apply last_None in E.
Qed.

Lemma ends_with_slash_free set s :
  set "/" = true -> free set s = true -> s <> [] -> ends_with_slash s = false.
Proof.
  intros Hset Hs Hne. destruct (last s) as [x|] eqn:E.
  - apply last_Some in E as [l ->]. rewrite ends_with_slash_snoc.
    apply bool_decide_eq_false. intros ->.
    rewrite free_app in Hs. apply andb_prop in Hs as [_ Hs].
    simpl in Hs. now rewrite Hset in Hs.
  - now apply last_None in E.
Qed.

Lemma toLowerCase_drop_last s : toLowerCase (drop_last s) = drop_last (toLowerCase s).
Proof.
  unfold drop_last, toLowerCase. now rewrite length_map, <- fmap_take.
Qed.

Lemma path_serialize_snoc p s :
  path_serialize (p ++ [s]) = path_serialize p ++ "/" :: s.
Proof.
  unfold path_serialize. rewrite flat_map_app. simpl. now rewrite app_nil_r.
Qed.

Lemma with_path_canonical p u :
  canonical u = true -> forallb segment_ok p = true -> canonical (with_path p u) = true.
Proof.
  intros H Hp. apply canonical_elim in H as (Hs & Hu & Hpw & Hh & Hport & _ & Hq & Hf).
  unfold canonical, with_path.
  cbn [scheme username password host port path query fragment].
  rewrite (bool_decide_eq_true_2 _ Hs), Hu, Hpw, Hh, Hport, Hp, (bool_decide_eq_true_2 _ Hf).
  destruct (query u); simpl; [now rewrite Hq|reflexivity].
Qed.

Lemma with_query_canonical q u :
  canonical u = true -> free special_query_set q = true ->
  canonical (with_query (Some q) u) = true.
Proof.
  intros H Hq. apply canonical_elim in H as (Hs & Hu & Hpw & Hh & Hport & Hp & _ & Hf).
  unfold canonical, with_query.
  cbn [scheme username password host port path query fragment].
  now rewrite (bool_decide_eq_true_2 _ Hs), Hu, Hpw, Hh, Hport, Hp,
    (bool_decide_eq_true_2 _ Hf), Hq.
Qed.

(** A canonical record with a path whose serialisation ends with a slash:
    without that slash, it is the serialisation of a canonical record. *)
Lemma strip_canonical u :
  canonical u = true -> path u <> [] -> ends_with_slash (serialize u) = true ->
  exists u', canonical u' = true /\ (path u' = [] -> query u' = None)
             /\ host u' = host u
             /\ drop_last (serialize u) = serialize u'.
Proof.
  intros H Hne Hend.
  pose proof (canonical_elim u H) as (_ & _ & _ & _ & _ & Hp & Hq & Hf).
  rewrite (serialize_shape u Hf) in *. unfold after_authority in *.
  destruct (query u) as [q|] eqn:Eq.
  - cbn [query_serialize] in *. rewrite !app_assoc in Hend.
    rewrite ends_with_slash_app in Hend by discriminate.
    destruct (last q) as [x|] eqn:El.
    + apply last_Some in El as [q' ->].
      change ("?" :: q' ++ [x]) with (("?" :: q') ++ [x]) in Hend.
      rewrite ends_with_slash_snoc in Hend. apply bool_decide_eq_true in Hend. subst x.
      exists (with_query (Some q') u). rewrite free_app in Hq.
      apply andb_prop in Hq as [Hq _]. repeat split.
      * now apply with_query_canonical.
      * intros Hpath. now apply Hne in Hpath.
      * rewrite (serialize_shape (with_query (Some q') u)) by exact Hf.
        unfold after_authority, authority, credentials. cbn [with_query scheme username password host port path query query_serialize].
        rewrite !app_assoc.
        change (?a ++ "?" :: q' ++ ["/"]) with (a ++ ("?" :: q') ++ ["/"]).
        rewrite (app_assoc _ ("?" :: q')). now rewrite drop_last_snoc.
    + apply last_None in El as ->. discriminate Hend.
  - cbn [query_serialize] in *. rewrite !app_nil_r in *.
    destruct (last (path u)) as [s|] eqn:El; [|now apply last_None in El].
    apply last_Some in El as [p' Ep]. rewrite Ep in *.
    rewrite forallb_app in Hp. apply andb_prop in Hp as [Hp' Hs].
    simpl in Hs. rewrite andb_true_r in Hs.
    apply segment_ok_elim in Hs as (_ & Hslash & _).
    rewrite path_serialize_snoc in *. rewrite !app_assoc in Hend.
    assert (s = []) as ->.
    { destruct s as [|c s]; [reflexivity|]. exfalso.
      rewrite <- !app_assoc in Hend.
      change ("/" :: c :: s) with (["/"] ++ c :: s) in Hend.
      rewrite !app_assoc in Hend. rewrite ends_with_slash_app in Hend by discriminate.
      rewrite (ends_with_slash_free is_slash) in Hend; [discriminate|reflexivity|assumption|discriminate]. }
    exists (with_path p' u). repeat split.
    + now apply with_path_canonical.
    + intros _. exact Eq.
    + rewrite (serialize_shape (with_path p' u)) by exact Hf.
      unfold after_authority, authority, credentials.
      cbn [with_path scheme username password host port path query].
      rewrite Eq. cbn [query_serialize]. rewrite app_nil_r.
      rewrite !app_assoc. now rewrite drop_last_snoc.
Qed.

(** * [normalizeUrl] *)

Lemma normal_lower u :
  canonical u = true -> (path u = [] -> query u = None) -> normal (lower_url u).
Proof.
  intros H Hpq. repeat split.
  - now apply canonical_lower.
  - apply lower_url_lowered.
  - cbn [lower_url path query]. intros Hp. apply map_eq_nil in Hp.
    now rewrite (Hpq Hp).
Qed.

Lemma clear_hash_canonical u : fragment u = None -> clear_hash u = u.
Proof. destruct u. simpl. now intros ->. Qed.

Lemma normalizeUrl_shape x y :
  normalizeUrl x = Some y -> exists u, normal u /\ y = serialize u.
Proof.
  unfold normalizeUrl. destruct x as [|x0 x]; [discriminate|].
  destruct (parse _) as [u0|] eqn:Hparse; [|discriminate].
  apply parse_canonical in Hparse as [Hc Hne].
  set (u1 := clear_hash u0) in *. unfold toString.
  assert (Hne1 : path u1 <> []) by exact Hne.
  destruct (ends_with_slash (serialize u1)) eqn:Hend; intros [= <-].
  - destruct (strip_canonical u1 Hc Hne1 Hend) as (u' & Hc' & Hpq & _ & ->).
    exists (lower_url u'). split; [now apply normal_lower|].
    now apply serialize_lower.
  - exists (lower_url u1). split; [apply normal_lower; [assumption|tauto]|].
    now apply serialize_lower.
Qed.

Lemma serialize_nonempty u : canonical u = true -> serialize u <> [].
Proof.
  intros H. pose proof (canonical_elim u H) as (Hs & _ & _ & _ & _ & _ & _ & Hf).
  rewrite (serialize_shape u Hf). apply scheme_cases in Hs as [-> | ->]; discriminate.
Qed.

Lemma has_http_scheme_serialize u :
  canonical u = true -> lowered u -> has_http_scheme (serialize u) = true.
Proof.
  intros H Hl. unfold has_http_scheme. rewrite (lowered_serialize u H Hl).
  pose proof (canonical_elim u H) as (Hs & _ & _ & _ & _ & _ & _ & Hf).
  rewrite (serialize_shape u Hf). apply scheme_cases in Hs as [-> | ->]; reflexivity.
Qed.

Lemma authority_no_slash u :
  canonical u = true -> ends_with_slash (authority u) = false.
Proof.
  intros H. apply (ends_with_slash_free is_authority_end); [reflexivity| |].
  - now apply authority_free.
  - pose proof (canonical_elim u H) as (_ & _ & _ & Hh & _).
    apply host_serialize_hostchar in Hh as [_ Hne]. unfold authority.
    destruct (credentials u); [|discriminate].
    destruct (host_serialize (host u)); [congruence|discriminate].
Qed.

Lemma authority_nonempty u : canonical u = true -> authority u <> [].
Proof.
  intros H. pose proof (canonical_elim u H) as (_ & _ & _ & Hh & _).
  apply host_serialize_hostchar in Hh as [_ Hne]. unfold authority.
  destruct (credentials u); [|discriminate].
  destruct (host_serialize (host u)); [congruence|discriminate].
Qed.

Lemma normalizeUrl_serialize u :
  normal u -> normalizeUrl (serialize u) = Some (strip_slash (serialize u)).
Proof.
  intros (H & Hl & Hpq).
  pose proof (canonical_elim u H) as (Hs & _ & _ & _ & _ & _ & _ & Hf).
  unfold normalizeUrl.
  destruct (serialize u) as [|c0 r0] eqn:Es; [now apply serialize_nonempty in Es|].
  rewrite <- Es. rewrite (trim_printable _ (serialize_printable u H)).
  rewrite (has_http_scheme_serialize u H Hl), (parse_serialize u H Hpq).
  rewrite clear_hash_canonical by exact Hf. unfold toString, strip_slash.
  destruct (path u) as [|s p] eqn:Ep.
  - (* the path was the single empty segment, its slash is gone *)
    assert (E : serialize (with_path (fix_path []) u) = serialize u ++ ["/"]).
    { cbn [fix_path].
      rewrite (serialize_shape u Hf), (serialize_shape (with_path [[]] u)) by exact Hf.
      unfold after_authority, authority, credentials.
      cbn [with_path fix_path scheme username password host port path query].
      rewrite Ep, (Hpq eq_refl). cbn [path_serialize flat_map query_serialize app].
      now rewrite !app_nil_r, <- !app_assoc. }
    rewrite E, ends_with_slash_snoc, drop_last_snoc. cbn [bool_decide decide_rel].
    rewrite bool_decide_eq_true_2 by reflexivity.
    rewrite (lowered_serialize u H Hl).
    assert (Hn : ends_with_slash (serialize u) = false).
    { rewrite (serialize_shape u Hf). unfold after_authority.
      rewrite Ep, (Hpq eq_refl). cbn [path_serialize flat_map query_serialize app].
      rewrite app_nil_r, !app_assoc.
      rewrite ends_with_slash_app by now apply authority_nonempty.
      now apply authority_no_slash. }
    now rewrite Hn.
  - assert (E : with_path (fix_path (s :: p)) u = u).
    { unfold with_path, fix_path. rewrite <- Ep. now destruct u. }
    rewrite E. destruct (ends_with_slash (serialize u)).
    + now rewrite toLowerCase_drop_last, (lowered_serialize u H Hl).
    + now rewrite (lowered_serialize u H Hl).
Qed.

Lemma parse_normal u :
  normal u -> parse (serialize u) = Some (with_path (fix_path (path u)) u).
Proof. intros (H & _ & Hpq). now apply parse_serialize. Qed.

(** Normalising a normalised URL removes one more trailing slash, if there is
    one, and nothing else. *)
Lemma normalizeUrl_again x y :
  normalizeUrl x = Some y -> normalizeUrl y = Some (strip_slash y).
Proof.
  intros H. apply normalizeUrl_shape in H as (u & Hu & ->).
  now apply normalizeUrl_serialize.
Qed.

Lemma normalizeUrl_parses x y :
  normalizeUrl x = Some y -> exists u, parse y = Some u.
Proof.
  intros H. apply normalizeUrl_shape in H as (u & Hu & ->).
  eexists. now apply parse_normal.
Qed.

(** The serialisation holds at least [://]: what is left without its last
    character is not empty, whatever the parser answered. *)
Lemma normalizeUrl_nonempty x y : normalizeUrl x = Some y -> y <> [].
Proof.
  unfold normalizeUrl. destruct x as [|x0 x]; [discriminate|].
  destruct (parse _) as [u|]; [|discriminate]. intros [= <-] Hnil.
  apply (f_equal length) in Hnil. unfold toLowerCase in Hnil.
  rewrite length_map in Hnil.
  assert (Hlen : 3 <= length (toString (clear_hash u))).
  { unfold toString, serialize. rewrite !length_app.
    change (length (lit "://")) with 3. lia. }
  destruct (ends_with_slash _).
  - unfold drop_last in Hnil. rewrite length_take in Hnil. simpl in Hnil. lia.
  - simpl in Hnil. lia.
Qed.

(** * The scheme of a candidate

    [normalizeUrl] hands the parser a text that starts with [http://] or
    [https://], in any case; the parser finds one of the two schemes of the
    model in it. *)

Lemma drop_while_app_stop p l1 l2 :
  match l2 with [] => False | c :: _ => p c = false end ->
  exists t, drop_while p (l1 ++ l2) = t ++ l2.
Proof.
  intros H. induction l1 as [|c l1 [t IH]]; simpl.
  - exists []. destruct l2 as [|c l2]; [contradiction|]. simpl. now rewrite H.
  - destruct (p c); [eauto|]. now exists (c :: l1).
Qed.

Lemma preprocess_prefix p s :
  p <> [] ->
  Forall (fun c => is_c0_or_space c = false /\ is_tab_or_newline c = false) p ->
  exists s', preprocess (p ++ s) = p ++ s'.
Proof.
  intros Hne Hp. unfold preprocess.
  assert (Hhead : match p with [] => False | c :: _ => is_c0_or_space c = false end).
  { destruct p as [|c p]; [congruence|]. now inversion Hp as [|? ? [? _] _]. }
  rewrite (drop_while_id _ (p ++ s)).
  2:{ destruct p as [|c p]; [contradiction|]. exact Hhead. }
  rewrite rev_app_distr.
  destruct (drop_while_app_stop is_c0_or_space (rev s) (rev p)) as [t Ht].
  { destruct (last p) as [c|] eqn:El; [|now apply last_None in El].
    apply last_Some in El as [l ->]. rewrite rev_app_distr. simpl.
    apply Forall_app in Hp as [_ Hc]. now inversion Hc as [|? ? [? _] _]. }
  rewrite Ht, rev_app_distr, rev_involutive, filter_app.
  exists (filter (fun c => is_tab_or_newline c = false) (rev t)). f_equal.
  clear -Hp. induction Hp as [|c p [_ Hc] _ IH]; [reflexivity|].
  rewrite filter_cons. destruct (decide _); [now rewrite IH|contradiction].
Qed.

Lemma scheme_letter c x :
  lower_char c = x -> (is_lower x = true \/ x = ":" \/ x = "/") ->
  scheme_char c = scheme_char x /\ lower_char c = x
  /\ is_c0_or_space c = false /\ is_tab_or_newline c = false
  /\ (x = ":" -> c = ":") /\ (x = "/" -> c = "/").
Proof.
  intros <-. each_char c; intuition discriminate.
Qed.

Lemma candidate_scheme candidate :
  has_http_scheme candidate = true ->
  exists scheme rest,
    parse_scheme (preprocess candidate) = Some (scheme, rest)
    /\ is_Some (default_port scheme).
Proof.
  unfold has_http_scheme, starts_with. intros H.
  apply orb_prop in H as [H|H]; apply bool_decide_eq_true in H.
  - destruct candidate as [|c1 [|c2 [|c3 [|c4 [|c5 [|c6 [|c7 r]]]]]]]; try discriminate H.
    cbn in H. injection H as H1 H2 H3 H4 H5 H6 H7.
    apply scheme_letter in H1 as (S1 & L1 & P1 & Q1 & _); [|now left].
    apply scheme_letter in H2 as (S2 & L2 & P2 & Q2 & _); [|now left].
    apply scheme_letter in H3 as (S3 & L3 & P3 & Q3 & _); [|now left].
    apply scheme_letter in H4 as (S4 & L4 & P4 & Q4 & _); [|now left].
    apply scheme_letter in H5 as (_ & _ & P5 & Q5 & E5 & _); [|now (right; left)].
    specialize (E5 eq_refl). subst c5.
    destruct (preprocess_prefix [c1; c2; c3; c4; ":"] (c6 :: c7 :: r)) as [s' Hs'];
      [discriminate | repeat constructor; assumption |].
    cbn [app] in Hs'. rewrite Hs'.
    exists (lit "http"), s'. split; [|now exists 80%N].
    unfold parse_scheme.
    assert (A1 : is_alpha c1 = true) by (revert L1; clear; each_char c1).
    rewrite A1. cbn [break]. rewrite S1, S2, S3, S4. scheme_chars.
    now rewrite L1, L2, L3, L4.
  - destruct candidate as [|c1 [|c2 [|c3 [|c4 [|c5 [|c6 [|c7 [|c8 r]]]]]]]];
      try discriminate H.
    cbn in H. injection H as H1 H2 H3 H4 H5 H6 H7 H8.
    apply scheme_letter in H1 as (S1 & L1 & P1 & Q1 & _); [|now left].
    apply scheme_letter in H2 as (S2 & L2 & P2 & Q2 & _); [|now left].
    apply scheme_letter in H3 as (S3 & L3 & P3 & Q3 & _); [|now left].
    apply scheme_letter in H4 as (S4 & L4 & P4 & Q4 & _); [|now left].
    apply scheme_letter in H5 as (S5 & L5 & P5 & Q5 & _); [|now left].
    apply scheme_letter in H6 as (_ & _ & P6 & Q6 & E6 & _); [|now (right; left)].
    specialize (E6 eq_refl). subst c6.
    destruct (preprocess_prefix [c1; c2; c3; c4; c5; ":"] (c7 :: c8 :: r)) as [s' Hs'];
      [discriminate | repeat constructor; assumption |].
    cbn [app] in Hs'. rewrite Hs'.
    exists (lit "https"), s'. split; [|now exists 443%N].
    unfold parse_scheme.
    assert (A1 : is_alpha c1 = true) by (revert L1; clear; each_char c1).
    rewrite A1. cbn [break]. rewrite S1, S2, S3, S4, S5. scheme_chars.
    now rewrite L1, L2, L3, L4, L5.
Qed.

Lemma normalizeUrl_candidate trimmed :
  has_http_scheme (if has_http_scheme trimmed then trimmed else lit "https://" ++ trimmed)
  = true.
Proof. destruct (has_http_scheme trimmed) eqn:E; [exact E|reflexivity]. Qed.

End WithPlatform.

End URLFacts.
Import URLFacts.

(** ** The service

    From here on everything is stated and proved for every platform.  A
    statement that needs what [PlatformLaws] says of the platform has it as
    a hypothesis; the others hold whatever the platform answers. *)

Section Service.
Context {pf : Platform} {laws : PlatformLaws pf}.

(** * The cache as a state machine *)

Lemma load_single_flight now w : single_flight w -> single_flight (snd (load now w)).
Proof.
  unfold single_flight, load. intros H.
  destruct (isFresh now (urlhaus w)); [exact H|].
  destruct (loading (urlhaus w)) as [p|] eqn:E; simpl; [now rewrite E|].
  now rewrite H.
Qed.

Lemma phish_single_flight u w :
  single_flight w -> single_flight (snd (checkPhishFeed_call u w)).
Proof.
  unfold single_flight, checkPhishFeed_call. intros H.
  destruct (normalizeUrl u) as [[|c n]|]; try exact H.
  destruct (URL.parse (c :: n)); exact H.
Qed.

Lemma resume_single_flight p answer now w :
  single_flight w -> In p (suspended w) ->
  single_flight (snd (fetchFeed_resume p answer now w)).
Proof.
  unfold single_flight. intros H Hp.
  assert (Hs : filter (fun q => q <> p) (suspended w) = []).
  { rewrite H in *. destruct (loading (urlhaus w)) as [p'|]; [|reflexivity].
    destruct Hp as [->|[]]. rewrite filter_cons.
    destruct (decide (p <> p)); [congruence|reflexivity]. }
  unfold fetchFeed_resume.
  destruct answer as [resp|m]; [|simpl; now rewrite Hs].
  destruct (negb (resp_ok resp)); [simpl; now rewrite Hs|].
  destruct (text resp) as [body|m]; [|simpl; now rewrite Hs].
  destruct (feed_maps body). simpl. now rewrite Hs.
Qed.

Lemma reachable_single_flight w : reachable w -> single_flight w.
Proof.
  induction 1 as [|w w' Hr IH Hstep]; [reflexivity|].
  destruct Hstep.
  - now apply load_single_flight.
  - now apply phish_single_flight.
  - now apply resume_single_flight.
Qed.

Lemma load_pending now w p :
  isFresh now (urlhaus w) = false -> loading (urlhaus w) = Some p ->
  load now w = (Pending p, w).
Proof. unfold load. now intros -> ->. Qed.

Lemma loads_pending times w p :
  Forall (fun now => isFresh now (urlhaus w) = false) times ->
  loading (urlhaus w) = Some p ->
  loads times w = (map (fun _ => Pending p) times, w).
Proof.
  intros Ht Hp. induction Ht as [|now rest Hn _ IH]; [reflexivity|].
  cbn [loads map]. now rewrite (load_pending now w p Hn Hp), IH.
Qed.

(** The calls of the service only take steps of the machine. *)
Lemma reachable_check_call inputUrl now w :
  reachable w -> reachable (snd (check_call inputUrl now w)).
Proof.
  intros H. unfold check_call.
  destruct (normalizeUrl inputUrl) as [[|c n]|]; try exact H.
  destruct (URL.parse (c :: n)); [|exact H].
  pose proof (reachable_step _ _ H (step_load now w)) as Hl.
  now destruct (load now w).
Qed.

Lemma reachable_inspectUrl_call rawUrl now w :
  reachable w -> reachable (snd (inspectUrl_call rawUrl now w)).
Proof.
  intros H. unfold inspectUrl_call.
  destruct (normalizeUrl rawUrl) as [[|c n]|]; try exact H.
  destruct (URL.parse (c :: n)); [|exact H].
  pose proof (reachable_step _ _ H (step_phish (c :: n) w)) as Hp.
  destruct (checkPhishFeed_call (c :: n) w) as [ph w1]. cbn [snd] in Hp.
  pose proof (reachable_check_call (c :: n) now w1 Hp) as Hc.
  now destruct (check_call (c :: n) now w1).
Qed.

Lemma reachable_inspect_calls limited now : forall w,
  reachable w -> reachable (snd (inspect_calls limited now w)).
Proof.
  induction limited as [|u rest IH]; intros w H; [exact H|]. cbn [inspect_calls].
  pose proof (reachable_inspectUrl_call u (now u) w H) as H1.
  destruct (inspectUrl_call u (now u) w) as [call w1]. cbn [snd] in H1.
  specialize (IH w1 H1). now destruct (inspect_calls rest now w1).
Qed.

(** * The lookups *)

Lemma normalizeUrl_Some_cons x y :
  normalizeUrl x = Some y -> exists c n, y = c :: n.
Proof.
  intros H. apply normalizeUrl_nonempty in H. destruct y as [|c n]; [congruence|eauto].
Qed.

Lemma check_call_parsed inputUrl normalized parsed now w :
  normalizeUrl inputUrl = Some normalized ->
  URL.parse normalized = Some parsed ->
  check_call inputUrl now w =
  (Fulfilled (normalized, toLowerCase (strip_www (URL.hostname parsed)),
              fst (load now w)),
   snd (load now w)).
Proof.
  intros H Hp. destruct (normalizeUrl_Some_cons _ _ H) as (c & n & ->).
  unfold check_call. rewrite H, Hp. now destruct (load now w).
Qed.

Lemma check_call_unparsed inputUrl normalized now w :
  normalizeUrl inputUrl = Some normalized ->
  URL.parse normalized = None ->
  check_call inputUrl now w = (Rejected (Some (lit "Invalid URL")), w).
Proof.
  intros H Hp. destruct (normalizeUrl_Some_cons _ _ H) as (c & n & ->).
  unfold check_call. now rewrite H, Hp.
Qed.

Lemma check_call_normalized inputUrl normalized now w :
  normalizeUrl inputUrl = Some normalized ->
  exists parsed,
    URL.parse normalized = Some parsed
    /\ check_call inputUrl now w =
       (Fulfilled (normalized, toLowerCase (strip_www (URL.hostname parsed)),
                   fst (load now w)),
        snd (load now w)).
Proof.
  intros H. destruct (normalizeUrl_parses _ _ H) as [parsed Hp].
  exists parsed. split; [exact Hp|]. now apply check_call_parsed.
Qed.

Lemma checkPhishFeed_call_parsed targetUrl normalized parsed w :
  normalizeUrl targetUrl = Some normalized ->
  URL.parse normalized = Some parsed ->
  checkPhishFeed_call targetUrl w =
  (Fulfilled (length (requests w)),
   {| urlhaus := urlhaus w;
      requests := requests w
                  ++ [PHISH_API ++ encodeURIComponent (toLowerCase (URL.hostname parsed))];
      suspended := suspended w |}).
Proof.
  intros H Hp. destruct (normalizeUrl_Some_cons _ _ H) as (c & n & ->).
  unfold checkPhishFeed_call. now rewrite H, Hp.
Qed.

Lemma checkPhishFeed_call_unparsed targetUrl normalized w :
  normalizeUrl targetUrl = Some normalized ->
  URL.parse normalized = None ->
  checkPhishFeed_call targetUrl w = (Rejected (Some (lit "Invalid URL")), w).
Proof.
  intros H Hp. destruct (normalizeUrl_Some_cons _ _ H) as (c & n & ->).
  unfold checkPhishFeed_call. now rewrite H, Hp.
Qed.

Lemma checkPhishFeed_call_normalized targetUrl normalized w :
  normalizeUrl targetUrl = Some normalized ->
  exists parsed,
    URL.parse normalized = Some parsed
    /\ checkPhishFeed_call targetUrl w =
       (Fulfilled (length (requests w)),
        {| urlhaus := urlhaus w;
           requests := requests w
                       ++ [PHISH_API ++ encodeURIComponent (toLowerCase (URL.hostname parsed))];
           suspended := suspended w |}).
Proof.
  intros H. destruct (normalizeUrl_parses _ _ H) as [parsed Hp].
  destruct (normalizeUrl_Some_cons _ _ H) as (c & n & ->).
  exists parsed. split; [exact Hp|]. unfold checkPhishFeed_call. now rewrite H, Hp.
Qed.

(** * The feed *)

Lemma feed_line_entry maps line :
  feed_line maps line =
  match line_entry line with
  | Some e =>
      (<[url e := e]> (fst maps),
       match entry_host e with
       | Some host => <[host := push5 (default [] (snd maps !! host)) e]> (snd maps)
       | None => snd maps
       end)
  | None => maps
  end.
Proof.
  destruct maps as [um hm]. unfold feed_line, line_entry, line_parts.
  destruct line as [|c line]; [reflexivity|].
  destruct (bool_decide (c = "#")); [reflexivity|].
  destruct (length _ <? 3)%nat; [reflexivity|].
  destruct (normalizeUrl _) as [[|n0 n]|]; try reflexivity.
  unfold entry_host. cbn [feed_entry url fst snd].
  destruct (URL.parse (n0 :: n)); reflexivity.
Qed.

Lemma take5_push (es : list FeedEntry) e : push5 (take 5 es) e = take 5 (es ++ [e]).
Proof.
  unfold push5. destruct (Nat.ltb_spec (length (take 5 es)) 5) as [H|H].
  - rewrite length_take in H.
    assert (Hl : length es < 5) by lia.
    rewrite !take_ge by (rewrite ?length_app; simpl; lia). reflexivity.
  - rewrite length_take in H. rewrite take_app_le by lia. reflexivity.
Qed.

Lemma host_entries_snoc host lines line :
  host_entries host (lines ++ [line]) =
  host_entries host lines
  ++ match line_entry line with
     | Some e => if decide (entry_host e = Some host) then [e] else []
     | None => []
     end.
Proof.
  unfold host_entries. rewrite omap_app, filter_app. f_equal.
  cbn -[filter]. destruct (line_entry line) as [e|]; [|reflexivity].
  rewrite filter_cons, filter_nil. reflexivity.
Qed.

Lemma feed_host_index lines host :
  snd (foldl feed_line (∅, ∅) lines) !! host =
  match host_entries host lines with
  | [] => None
  | es => Some (take 5 es)
  end.
Proof.
  induction lines as [|line lines IH] using rev_ind.
  - cbn. apply lookup_empty.
  - rewrite foldl_app. cbn [foldl]. rewrite feed_line_entry, host_entries_snoc.
    destruct (line_entry line) as [e|]; [|now rewrite app_nil_r].
    cbn [snd]. destruct (entry_host e) as [h|] eqn:Eh.
    + destruct (decide (Some h = Some host)) as [[= ->]|Hne].
      * rewrite lookup_insert_eq, IH.
        destruct (host_entries host lines) as [|e0 es] eqn:E.
        -- reflexivity.
        -- change (default [] (Some (take 5 (e0 :: es)))) with (take 5 (e0 :: es)).
           rewrite take5_push. reflexivity.
      * rewrite lookup_insert_ne by congruence. now rewrite app_nil_r.
    + destruct (decide (None = Some host)); [discriminate|]. now rewrite app_nil_r.
Qed.

(** * Extraction *)







(** * [inspectText] *)



End Service.

Section Properties.
Context {pf : Platform} {laws : PlatformLaws pf}.

(** * Texts made of URL tokens *)





















(** * The claims *)

(** C1, amended: when [normalizeUrl] succeeds on [x] and yields [y], it succeeds
    on [y] too and yields [y] without its last character if that is a slash,
    and [y] itself otherwise; so [normalizeUrl] is idempotent on every input
    whose normal form does not end with a slash. *)
Theorem normalizeUrl_idempotent_modulo_slash x y :
  normalizeUrl x = Some y ->
  normalizeUrl y = Some (if ends_with_slash y then drop_last y else y)
  /\ (ends_with_slash y = false -> normalizeUrl y = Some y).
Proof.
  intros H. pose proof (normalizeUrl_again x y H) as H2. unfold strip_slash in H2.
  split; [exact H2|]. intros Hs. now rewrite Hs in H2.
Qed.

(** C2: when the input normalises and [load] delivers a snapshot, [check]
    fulfils with a result whose [matches] are the exact match of the
    normalised URL in [urlMap], tagged [url], followed by the entries of
    [hostMap] for the lower-case host without its [www.] prefix, tagged
    [host], cut to the first 5; [listed] is true exactly when the list before
    the cut is not empty. *)
Theorem check_matches inputUrl normalized now env w snap :
  normalizeUrl inputUrl = Some normalized ->
  loaded env (fst (load now w)) = Fulfilled snap ->
  exists parsed result,
    URL.parse normalized = Some parsed
    /\ fst (check inputUrl now env w) = Fulfilled result
    /\ let hostKey := toLowerCase (strip_www (URL.hostname parsed)) in
       let combined :=
         match snap_urlMap snap !! normalized with
         | Some direct => [{| entry := direct; matchType := match_url |}]
         | None => []
         end
         ++ map (fun hit => {| entry := hit; matchType := match_host |})
              (default [] (snap_hostMap snap !! hostKey)) in
       matches result = take 5 combined
       /\ length (matches result) <= 5
       /\ (listed result = true <-> combined <> [])
       /\ refreshedAt result = snap_refreshedAt snap.
Proof.
  intros H Hl.
  destruct (check_call_normalized inputUrl normalized now w H) as (parsed & Hp & Hc).
  exists parsed. eexists. split; [exact Hp|].
  unfold check. rewrite Hc. cbn [fst snd check_settled]. rewrite Hl.
  cbn [check_resume]. split; [reflexivity|].
  cbn [matches listed refreshedAt]. unfold all_matches.
  split; [reflexivity|]. split; [rewrite length_take; lia|]. split; [|reflexivity].
  rewrite Nat.ltb_lt. destruct (_ ++ _); simpl; split; (congruence || lia).
Qed.

(** C3: when a suspended [fetchFeed] resumes, it clears [loading].  Its
    promise rejects with the message of the request when the request failed,
    with [URLHaus responded with] and the status when the status is not a
    success status, and with the message of the reading when the body could
    not be read; then every [check] waiting on that promise rejects with that
    same message, and [urlMap], [hostMap] and [lastFetched] are what they
    were.  Otherwise, and only then, it fulfils with the snapshot of the maps
    built from the body and of the time of the refresh; the three fields are
    replaced together by those of that snapshot, and every [check] waiting on
    the promise is answered from it. *)
Theorem fetchFeed_atomic p answer now w :
  let '(outcome, w') := fetchFeed_resume p answer now w in
  loading (urlhaus w') = None
  /\ match outcome with
     | Rejected message =>
         urlMap (urlhaus w') = urlMap (urlhaus w)
         /\ hostMap (urlhaus w') = hostMap (urlhaus w)
         /\ lastFetched (urlhaus w') = lastFetched (urlhaus w)
         /\ (forall env normalized hostKey,
               refreshed env p = outcome ->
               check_settled env (Fulfilled (normalized, hostKey, Pending p))
               = Rejected message)
     | Fulfilled snap =>
         urlMap (urlhaus w') = snap_urlMap snap
         /\ hostMap (urlhaus w') = snap_hostMap snap
         /\ lastFetched (urlhaus w') = snap_refreshedAt snap
         /\ snap_refreshedAt snap = now
         /\ (exists resp body,
               answer = Fulfilled resp /\ resp_ok resp = true
               /\ text resp = Fulfilled body
               /\ (snap_urlMap snap, snap_hostMap snap) = feed_maps body)
         /\ (forall env normalized hostKey,
               refreshed env p = outcome ->
               check_settled env (Fulfilled (normalized, hostKey, Pending p))
               = check_resume normalized hostKey (Fulfilled snap))
     end
  /\ (match answer with
      | Rejected _ => True
      | Fulfilled resp =>
          resp_ok resp = false \/ (exists m, text resp = Rejected m)
      end -> exists message, outcome = Rejected message)
  /\ outcome =
     match answer with
     | Rejected message => Rejected message
     | Fulfilled resp =>
         if resp_ok resp then
           match text resp with
           | Fulfilled body => Fulfilled (feed_snapshot body now)
           | Rejected message => Rejected message
           end
         else Rejected (Some (lit "URLHaus responded with "
                              ++ URL.decimal (status resp)))
     end.
Proof.
  unfold fetchFeed_resume, feed_snapshot.
  destruct answer as [resp|m].
  - destruct (resp_ok resp) eqn:Hok; cbn [negb].
    + destruct (text resp) as [body|m] eqn:Ht.
      * destruct (feed_maps body) as [um hm] eqn:Hm. cbn.
        repeat split; eauto 10.
        -- intros env n hk ->. reflexivity.
        -- intros [?|[m ?]]; congruence.
      * cbn. repeat split; eauto. intros env n hk ->. reflexivity.
    + cbn. repeat split; eauto. intros env n hk ->. reflexivity.
  - cbn. repeat split; eauto. intros env n hk ->. reflexivity.
Qed.

End Properties.

Section SingleFlight.
Context {pf : Platform}.

(** C4: in every world the service can reach, at most one refresh is in
    flight.  While one is and the snapshot is stale, every call of [load] in
    a burst, and every [check] of a URL that normalises, is handed the promise
    of that refresh and issues no request; when none is, a burst of stale
    calls issues exactly one request and all its callers are handed the
    promise of that one refresh.  Only the part on [check] consults the
    platform: there it is assumed to obey [PlatformLaws]. *)
Theorem load_single_flight_coalescing w :
  reachable w ->
  length (suspended w) <= 1
  /\ (forall p times,
        loading (urlhaus w) = Some p ->
        Forall (fun now => isFresh now (urlhaus w) = false) times ->
        loads times w = (map (fun _ => Pending p) times, w))
  /\ (forall p now inputUrl normalized,
        loading (urlhaus w) = Some p ->
        isFresh now (urlhaus w) = false ->
        normalizeUrl inputUrl = Some normalized ->
        PlatformLaws pf ->
        exists hostKey,
          check_call inputUrl now w = (Fulfilled (normalized, hostKey, Pending p), w))
  /\ (forall now times,
        loading (urlhaus w) = None ->
        Forall (fun now => isFresh now (urlhaus w) = false) (now :: times) ->
        exists p w',
          loads (now :: times) w = (map (fun _ => Pending p) (now :: times), w')
          /\ requests w' = requests w ++ [URLHAUS_FEED]
          /\ suspended w' = [p]).
Proof.
  intros Hr. pose proof (reachable_single_flight w Hr) as Hsf.
  split; [|split; [|split]].
  - rewrite Hsf. destruct (loading (urlhaus w)); simpl; lia.
  - intros p times Hp Ht. now apply loads_pending.
  - intros p now inputUrl normalized Hp Hn H laws.
    destruct (check_call_normalized inputUrl normalized now w H) as (parsed & _ & ->).
    rewrite (load_pending now w p Hn Hp). eauto.
  - intros now times Hp Ht. inversion Ht as [|? ? Hn Hrest]; subst.
    exists (length (requests w)). eexists. cbn [loads].
    unfold load at 1. rewrite Hn, Hp. cbn [fetchFeed_call].
    rewrite loads_pending with (p := length (requests w)); [|exact Hrest|reflexivity].
    cbn [map]. split; [reflexivity|]. split; [reflexivity|].
    cbn [suspended]. unfold single_flight in Hsf. now rewrite Hsf, Hp.
Qed.

End SingleFlight.

Section Inspection.
Context {pf : Platform} {laws : PlatformLaws pf}.

(** C5: [inspectUrl] always fulfils.  Its result has [ok] false exactly when
    the input does not normalise; when it does, the result is the inspection
    of the normalised URL, and each source is the payload of its lookup when
    that fulfilled and the descriptor of its name and error message when it
    rejected, whatever the other did. *)
Theorem inspectUrl_isolates_failures rawUrl now env done w :
  exists result,
    fst (inspectUrl rawUrl now env done w) = Fulfilled result
    /\ (ok result = false <-> normalizeUrl rawUrl = None)
    /\ forall normalized,
         normalizeUrl rawUrl = Some normalized ->
         exists parsed sources,
           URL.parse normalized = Some parsed
           /\ result = Inspected (toLowerCase (strip_www (URL.hostname parsed)))
                         normalized sources done
           /\ phishFeed sources
              = match fst (checkPhishFeed normalized env w) with
                | Fulfilled value => Payload value
                | Rejected message =>
                    SourceError (lit "phish.sinking.yachts")
                      (or_else message (lit "Lookup failed"))
                end
           /\ src_urlhaus sources
              = match fst (check normalized now env
                             (snd (checkPhishFeed normalized env w))) with
                | Fulfilled value => Payload value
                | Rejected message =>
                    SourceError (lit "URLHaus") (or_else message (lit "Lookup failed"))
                end.
Proof.
  destruct (normalizeUrl rawUrl) as [normalized|] eqn:H.
  - destruct (normalizeUrl_parses _ _ H) as [parsed Hp].
    destruct (normalizeUrl_Some_cons _ _ H) as (c & n & ->).
    unfold inspectUrl, inspectUrl_call. rewrite H, Hp.
    destruct (checkPhishFeed_call (c :: n) w) as [ph w1] eqn:Hph.
    destruct (check_call (c :: n) now w1) as [ck w2] eqn:Hck.
    eexists. cbn [fst inspectUrl_resume]. split; [reflexivity|].
    split; [cbn; split; discriminate|].
    intros ? [= <-]. exists parsed. eexists. split; [exact Hp|]. split; [reflexivity|].
    cbn [phishFeed src_urlhaus]. unfold checkPhishFeed, check. rewrite Hph.
    cbn [fst snd]. rewrite Hck. split; reflexivity.
  - unfold inspectUrl, inspectUrl_call. rewrite H. eexists. split; [reflexivity|].
    split; [cbn; tauto|]. discriminate.
Qed.

(** C6: the host index built from a feed maps a host to the first 5 of the
    entries of that host, in the order of their lines, and to nothing when
    the feed has no entry for it; so no list is longer than 5 and entries
    after the fifth are dropped. *)
Theorem host_index_bounded text host :
  let lines := split_on (is_char "010") text in
  snd (feed_maps text) !! host =
    match host_entries host lines with
    | [] => None
    | es => Some (take 5 es)
    end
  /\ forall entries,
       snd (feed_maps text) !! host = Some entries ->
       length entries <= 5 /\ entries = take 5 (host_entries host lines).
Proof.
  intros lines. unfold feed_maps. fold lines. rewrite feed_host_index. split; [reflexivity|].
  intros entries Hsome.
  assert (E : entries = take 5 (host_entries host lines)).
  { destruct (host_entries host lines) as [|e es]; [discriminate|]. congruence. }
  split; [|exact E]. rewrite E, length_take. lia.
Qed.


(** C8: when the input normalises, [checkPhishFeed] issues one request, for
    the lower-case host name of the normalised URL as the parser gives it,
    [www.] included; it rejects when the request does, when the status is not
    a success status and when the body cannot be read; otherwise it fulfils
    with [flagged] true exactly when the body, trimmed and lower-cased, is
    [true]. *)
Theorem checkPhishFeed_host targetUrl normalized env w :
  normalizeUrl targetUrl = Some normalized ->
  exists parsed,
    URL.parse normalized = Some parsed
    /\ requests (snd (checkPhishFeed targetUrl env w))
       = requests w
         ++ [PHISH_API ++ encodeURIComponent (toLowerCase (URL.hostname parsed))]
    /\ match answer env (length (requests w)) with
       | Rejected message =>
           fst (checkPhishFeed targetUrl env w) = Rejected message
       | Fulfilled resp =>
           if resp_ok resp then
             match text resp with
             | Fulfilled body =>
                 exists result,
                   fst (checkPhishFeed targetUrl env w) = Fulfilled result
                   /\ (flagged result = true <-> toLowerCase (trim body) = lit "true")
             | Rejected message =>
                 fst (checkPhishFeed targetUrl env w) = Rejected message
             end
           else exists message,
               fst (checkPhishFeed targetUrl env w) = Rejected message
       end.
Proof.
  intros H.
  destruct (checkPhishFeed_call_normalized targetUrl normalized w H) as (parsed & Hp & Hc).
  exists parsed. split; [exact Hp|]. unfold checkPhishFeed. rewrite Hc.
  cbn [fst snd requests phish_settled]. split; [reflexivity|].
  unfold checkPhishFeed_resume.
  destruct (answer env (length (requests w))) as [resp|m]; [|reflexivity].
  destruct (resp_ok resp); cbn [negb]; [|eauto].
  destruct (text resp) as [body|m]; [|reflexivity].
  eexists. split; [reflexivity|]. cbn [flagged]. apply bool_decide_eq_true.
Qed.

(** C9: when the input does not normalise, [inspectUrl] returns the result
    with [ok] false and the error message before any [await]: the world, and
    with it the list of the requests issued, is unchanged. *)
Theorem inspectUrl_invalid rawUrl now env done w :
  normalizeUrl rawUrl = None ->
  inspectUrl_call rawUrl now w
  = (Returned (Invalid (lit "Enter a valid URL (example: https://example.com).")), w)
  /\ exists result,
       inspectUrl rawUrl now env done w = (Fulfilled result, w)
       /\ ok result = false
       /\ result = Invalid (lit "Enter a valid URL (example: https://example.com).").
Proof.
  intros H. unfold inspectUrl, inspectUrl_call. rewrite H. split; [reflexivity|].
  eexists. split; [reflexivity|]. split; reflexivity.
Qed.

(** C10: for a data line of at least 3 fields whose URL field normalises, the
    entry stored under the normalised URL in [urlMap], and appended to the
    list of its host in [hostMap] while that list has fewer than 5 entries,
    has the threat [listed] when the threat field is missing or empty and the
    field otherwise, and the last-online value [null] when that field is
    missing or empty and the field otherwise.  The host is the one the URL
    class reads from the normalised URL; were it to refuse that URL, the
    line would leave [hostMap] as it was. *)
Theorem feed_entry_defaults maps line parts normalized :
  line_parts line = Some parts ->
  normalizeUrl (default [] (parts !! 2%nat)) = Some normalized ->
  let e := {| url := normalized;
              threat := match parts !! 5%nat with
                        | None | Some [] => lit "listed"
                        | Some t => t
                        end;
              lastOnline := match parts !! 4%nat with
                            | None | Some [] => None
                            | Some t => Some t
                            end |} in
  3 <= length parts
  /\ fst (feed_line maps line) = <[normalized := e]> (fst maps)
  /\ match URL.parse normalized with
     | Some parsed =>
         let host := toLowerCase (strip_www (URL.hostname parsed)) in
         let existing := default [] (snd maps !! host) in
         snd (feed_line maps line)
         = <[host := if (length existing <? 5)%nat then existing ++ [e] else existing]>
             (snd maps)
     | None => snd (feed_line maps line) = snd maps
     end.
Proof.
  intros Hparts Hnorm e.
  destruct (normalizeUrl_Some_cons _ _ Hnorm) as (c & n & ->).
  assert (Hlen : 3 <= length parts).
  { unfold line_parts in Hparts. destruct line as [|c0 line]; [discriminate|].
    destruct (bool_decide (c0 = "#")); [discriminate|].
    destruct (Nat.ltb_spec (length (split_sep [dquote; ","; dquote]
                                      (strip_quotes (trim (c0 :: line))))) 3);
      [discriminate|]. injection Hparts as <-. assumption. }
  split; [exact Hlen|].
  assert (He : line_entry line = Some e).
  { unfold line_entry. rewrite Hparts, Hnorm. f_equal.
    unfold feed_entry, e, or_else. f_equal.
    - destruct (_ !! 5%nat) as [[|]|]; reflexivity.
    - destruct (_ !! 4%nat) as [[|]|]; reflexivity. }
  rewrite feed_line_entry, He. cbn [fst snd]. split; [reflexivity|].
  unfold entry_host. cbn [url e].
  destruct (URL.parse (c :: n)) as [parsed|]; reflexivity.
Qed.

(** * Further properties of the code *)

(** ** [normalizeUrl] *)

Lemma serialize_chars u (q : ascii -> bool) :
  Canon.canonical u = true ->
  (forall c, Canon.printable c = true -> c <> "#" -> q c = true) ->
  forallb q (URL.serialize u) = true.
Proof.
  intros H Hq.
  pose proof (canonical_elim u H) as (Hs & _ & _ & _ & _ & _ & _ & Hf).
  rewrite (serialize_shape u Hf), !forallb_app.
  rewrite authority_chars, after_authority_chars; try assumption;
    try (apply Hq; [reflexivity|discriminate]);
    try (intros c Hc; apply Hq;
         first [ apply userinfo_free_facts in Hc; tauto
               | apply hostchar_strict in Hc; tauto
               | apply path_free_facts in Hc; tauto
               | apply query_free_facts in Hc; tauto
               | idtac ]).
  - apply scheme_cases in Hs as [-> | ->]; cbn;
      rewrite ?Hq by (reflexivity || discriminate); reflexivity.
  - revert Hc. clear. each_char c.
  - revert Hc. clear. each_char c.
  - revert Hc. clear. each_char c.
  - revert Hc. clear. each_char c.
Qed.

(** X1: every URL [normalizeUrl] returns starts with [http://] or
    [https://], is in lower case, is made of printable ASCII characters (no
    white space, no control character, no byte above 127), holds no [#],
    has no white space to trim, and is accepted by the URL parser. *)
Theorem normalizeUrl_output x y :
  normalizeUrl x = Some y ->
  (starts_with (lit "http://") y || starts_with (lit "https://") y = true)
  /\ toLowerCase y = y
  /\ forallb Canon.printable y = true
  /\ ~ In "#" y
  /\ trim y = y
  /\ is_Some (URL.parse y).
Proof.
  intros H. pose proof (normalizeUrl_parses x y H) as [p Hp].
  apply normalizeUrl_shape in H as (u & (Hc & Hl & Hpq) & ->).
  pose proof (has_http_scheme_serialize u Hc Hl) as Hh.
  unfold has_http_scheme in Hh. rewrite (lowered_serialize u Hc Hl) in Hh.
  split; [exact Hh|]. split; [now apply lowered_serialize|].
  split; [now apply serialize_printable|]. split.
  - intros Hin.
    pose proof (serialize_chars u (fun c => negb (is_char "#" c)) Hc) as Hq.
    rewrite forallb_forall in Hq. specialize (Hq ltac:(intros c _ Hne;
      apply negb_true_iff, bool_decide_eq_false; exact Hne) _ Hin).
    discriminate Hq.
  - split; [apply trim_printable; now apply serialize_printable|]. now exists p.
Qed.

(** X2: [normalizeUrl] answers null on an input that is empty once
    trimmed: the candidate is then the bare [https://], which is no URL. *)
Theorem normalizeUrl_blank x : trim x = [] -> normalizeUrl x = None.
Proof.
  intros H. unfold normalizeUrl. destruct x as [|c x]; [reflexivity|].
  rewrite H. reflexivity.
Qed.

Lemma strip_with_drop len : forall fuel s, exists k, strip_with len fuel s = drop k s.
Proof.
  induction fuel as [|fuel IH]; intros s; [now exists 0|]. cbn [strip_with].
  destruct (len s) as [|n]; [now exists 0|].
  destruct (IH (drop (S n) s)) as [k ->]. exists (S n + k). now rewrite drop_drop.
Qed.

Lemma strip_with_done len :
  len [] = 0 ->
  forall fuel s, length s <= fuel -> len (strip_with len fuel s) = 0.
Proof.
  intros Hnil. induction fuel as [|fuel IH]; intros s Hs.
  - destruct s; [exact Hnil|cbn in Hs; lia].
  - cbn [strip_with]. destruct (len s) as [|n] eqn:E; [exact E|]. apply IH.
    rewrite length_drop. lia.
Qed.

Lemma ws_len_prefix a b : ws_len (a ++ b) = 0 -> ws_len a = 0.
Proof.
  destruct a as [|c [|c2 [|c3 a]]]; [reflexivity| | |].
  - destruct (is_ws1 c) eqn:Ew.
    + intros H. cbn [app] in H. unfold ws_len in H. rewrite Ew in H. discriminate.
    + intros _. revert Ew. clear. each_char c.
  - cbn [app]. destruct c as [[] [] [] [] [] [] [] []]; cbn; try (intros; assumption);
      try reflexivity; try discriminate.
  - cbn [app]. destruct c as [[] [] [] [] [] [] [] []]; cbn; intros; assumption.
Qed.

Lemma trimStart_done s : ws_len (trimStart s) = 0.
Proof. unfold trimStart. now apply strip_with_done. Qed.

Lemma trimEnd_done s : ws_len_rev (rev (trimEnd s)) = 0.
Proof.
  unfold trimEnd. rewrite rev_involutive. apply strip_with_done; [reflexivity|].
  now rewrite length_rev.
Qed.

Lemma trimEnd_prefix s : exists rest, s = trimEnd s ++ rest.
Proof.
  unfold trimEnd. destruct (strip_with_drop ws_len_rev (length s) (rev s)) as [k ->].
  exists (rev (take k (rev s))). rewrite <- rev_app_distr, take_drop.
  now rewrite rev_involutive.
Qed.

Lemma trim_idempotent s : trim (trim s) = trim s.
Proof.
  assert (Hs : trimStart (trim s) = trim s).
  { unfold trimStart at 1. apply strip_with_zero. unfold trim.
    destruct (trimEnd_prefix (trimStart s)) as [rest Hrest].
    apply (ws_len_prefix _ rest). rewrite <- Hrest. apply trimStart_done. }
  unfold trim at 1. rewrite Hs. unfold trimEnd at 1.
  rewrite strip_with_zero; [apply rev_involutive|]. apply trimEnd_done.
Qed.

Lemma normalizeUrl_by_trim a b : trim a = trim b -> normalizeUrl a = normalizeUrl b.
Proof.
  intros H. unfold normalizeUrl.
  destruct a as [|a0 a], b as [|b0 b]; try reflexivity.
  - rewrite <- H. reflexivity.
  - rewrite H. reflexivity.
  - now rewrite H.
Qed.

(** X3: [normalizeUrl] ignores the white space around its input: the
    trimmed input has the same result, and trimming twice is trimming
    once. *)
Theorem normalizeUrl_trim x :
  trim (trim x) = trim x /\ normalizeUrl (trim x) = normalizeUrl x.
Proof.
  split; [apply trim_idempotent|]. apply normalizeUrl_by_trim, trim_idempotent.
Qed.

(** ** The pattern of [extractUrlsFromText] *)

Lemma token_run_prefix s : exists rest, s = token_run s ++ rest.
Proof.
  induction s as [|c s [rest IH]]; [now exists []|]. cbn [token_run].
  destruct (token_char (c :: s)); [|now exists (c :: s)].
  exists rest. cbn. now f_equal.
Qed.

Lemma ws_len_delimiter c s : is_ws1 c = true -> ws_len (c :: s) = 1.
Proof. intros H. unfold ws_len. now rewrite H. Qed.

Lemma token_run_free s : forallb (fun c => negb (delimiter c)) (token_run s) = true.
Proof.
  induction s as [|c s IH]; [reflexivity|]. cbn [token_run].
  destruct (token_char (c :: s)) eqn:E; [|reflexivity].
  cbn [forallb]. rewrite IH, andb_true_r. unfold token_char in E.
  apply andb_prop in E as [E1 E2]. unfold delimiter.
  destruct (is_ws1 c) eqn:Ew.
  - rewrite (ws_len_delimiter c s Ew) in E1. discriminate.
  - simpl. exact E2.
Qed.

Lemma lower_char_delimiter c : delimiter (lower_char c) = delimiter c.
Proof. each_char c. Qed.

Lemma prefix_free n (s p : str) :
  take n (toLowerCase s) = p -> length p = n ->
  forallb (fun c => negb (delimiter c)) p = true ->
  forallb (fun c => negb (delimiter c)) (take n s) = true.
Proof.
  intros Hp Hn Hf. unfold toLowerCase in Hp. rewrite <- fmap_take in Hp. subst p.
  rewrite forallb_fmap in Hf. erewrite forallb_eq; [exact Hf|].
  intros c. cbn. now rewrite lower_char_delimiter.
Qed.

Lemma starts_with_take p s :
  starts_with p s = true -> take (length p) s = p.
Proof. unfold starts_with. apply bool_decide_eq_true. Qed.

Lemma match_at_spec s m :
  match_at s = Some m ->
  (exists rest, s = m ++ rest)
  /\ (starts_with (lit "http://") (toLowerCase m)
      || starts_with (lit "https://") (toLowerCase m)
      || starts_with (lit "www.") (toLowerCase m) = true)
  /\ forallb (fun c => negb (delimiter c)) m = true.
Proof.
  unfold match_at.
  set (l := toLowerCase s).
  assert (G : forall n p, take n l = p -> length p = n ->
              forallb (fun c => negb (delimiter c)) p = true ->
              match token_run (drop n s) with
              | [] => None
              | run => Some (take n s ++ run)
              end = Some m ->
              (exists rest, s = m ++ rest)
              /\ starts_with p (toLowerCase m) = true
              /\ forallb (fun c => negb (delimiter c)) m = true).
  { intros n p Hp Hn Hf Hm.
    destruct (token_run (drop n s)) as [|c run] eqn:Er; [discriminate|].
    injection Hm as <-. destruct (token_run_prefix (drop n s)) as [rest Hrest].
    rewrite Er in Hrest. split; [|split].
    - exists rest. rewrite <- app_assoc, <- Hrest. now rewrite take_drop.
    - unfold starts_with. apply bool_decide_eq_true.
      rewrite toLowerCase_app. rewrite Hn.
      assert (Hlen : length (toLowerCase (take n s)) = n).
      { unfold toLowerCase. rewrite length_map, length_take.
        assert (length (take n l) = n) by now rewrite Hp.
        unfold l, toLowerCase in H. rewrite length_take, length_map in H. lia. }
      rewrite take_app_le by lia. rewrite take_ge by lia.
      unfold toLowerCase. rewrite fmap_take. exact Hp.
    - rewrite forallb_app. rewrite (prefix_free n s p Hp Hn Hf).
      rewrite <- Er. apply token_run_free. }
  destruct (starts_with (lit "http://") l) eqn:E1.
  { intros Hm. destruct (G 7 (lit "http://") (starts_with_take _ _ E1) eq_refl eq_refl Hm)
      as (A & B & C). rewrite B. auto. }
  destruct (starts_with (lit "https://") l) eqn:E2.
  { intros Hm. destruct (G 8 (lit "https://") (starts_with_take _ _ E2) eq_refl eq_refl Hm)
      as (A & B & C). rewrite B, orb_true_r. auto. }
  destruct (starts_with (lit "www.") l) eqn:E3; [|discriminate].
  intros Hm. destruct (G 4 (lit "www.") (starts_with_take _ _ E3) eq_refl eq_refl Hm)
      as (A & B & C). rewrite B, orb_true_r. auto.
Qed.

Lemma matchAll_from_infix s : forall skip m,
  In m (matchAll_from skip s) -> exists a b, s = a ++ m ++ b /\ match_at (m ++ b) = Some m.
Proof.
  induction s as [|c s IH]; intros skip m Hm; [contradiction|].
  cbn [matchAll_from] in Hm.
  assert (Hrec : forall k, In m (matchAll_from k s) ->
            exists a b, c :: s = a ++ m ++ b /\ match_at (m ++ b) = Some m).
  { intros k Hk. destruct (IH k m Hk) as (a & b & -> & Hb). now exists (c :: a), b. }
  destruct skip as [|k]; [|eauto].
  destruct (match_at (c :: s)) as [m0|] eqn:E; [|eauto].
  destruct Hm as [<-|Hm]; [|eauto].
  destruct (match_at_spec _ _ E) as ([rest Hrest] & _).
  exists [], rest. cbn [app]. split; [exact Hrest|]. now rewrite <- Hrest.
Qed.

(** X4: every match of the pattern of [extractUrlsFromText] is a
    piece of the text that starts with [http://], [https://] or [www.], in
    any case, and holds no one-byte white space, quote or angle bracket. *)
Theorem matchAll_tokens text m :
  In m (matchAll text) ->
  (exists before after, text = before ++ m ++ after)
  /\ (starts_with (lit "http://") (toLowerCase m)
      || starts_with (lit "https://") (toLowerCase m)
      || starts_with (lit "www.") (toLowerCase m) = true)
  /\ forallb (fun c => negb (delimiter c)) m = true.
Proof.
  intros H. destruct (matchAll_from_infix text 0 m H) as (a & b & Ht & Hm).
  destruct (match_at_spec _ _ Hm) as (_ & Hp & Hf).
  split; [now exists a, b|]. split; assumption.
Qed.

(** ** The indexes of the feed *)

Lemma url_entries_snoc n lines line :
  url_entries n (lines ++ [line]) =
  url_entries n lines
  ++ match line_entry line with
     | Some e => if decide (url e = n) then [e] else []
     | None => []
     end.
Proof.
  unfold url_entries. rewrite omap_app, filter_app. f_equal.
  cbn -[filter]. destruct (line_entry line) as [e|]; [|reflexivity].
  rewrite filter_cons, filter_nil. reflexivity.
Qed.

Lemma feed_url_index lines n :
  fst (foldl feed_line (∅, ∅) lines) !! n = last (url_entries n lines).
Proof.
  induction lines as [|line lines IH] using rev_ind.
  - cbn. apply lookup_empty.
  - rewrite foldl_app. cbn [foldl]. rewrite feed_line_entry, url_entries_snoc.
    destruct (line_entry line) as [e|]; [|now rewrite app_nil_r].
    cbn [fst]. destruct (decide (url e = n)) as [<-|Hne].
    + rewrite lookup_insert_eq. now rewrite last_snoc.
    + rewrite lookup_insert_ne by exact Hne. now rewrite app_nil_r.
Qed.

Lemma line_entry_url line e :
  line_entry line = Some e -> exists x, normalizeUrl x = Some (url e).
Proof.
  unfold line_entry. destruct (line_parts line) as [parts|]; [|discriminate].
  destruct (normalizeUrl _) as [[|c n]|] eqn:E; try discriminate.
  intros [= <-]. eexists. exact E.
Qed.

Lemma line_entry_field line e :
  line_entry line = Some e ->
  exists parts,
    line_parts line = Some parts
    /\ normalizeUrl (default [] (parts !! 2%nat)) = Some (url e).
Proof.
  unfold line_entry. destruct (line_parts line) as [parts|]; [|discriminate].
  destruct (normalizeUrl _) as [[|c n]|] eqn:E; try discriminate.
  intros [= <-]. exists parts. split; [reflexivity|exact E].
Qed.

Lemma feed_url_entry lines n e :
  fst (foldl feed_line (∅, ∅) lines) !! n = Some e ->
  url e = n /\ e ∈ omap line_entry lines.
Proof.
  clear laws. intros He. rewrite feed_url_index in He.
  apply last_Some in He as [l' He].
  assert (Hin : e ∈ url_entries n lines) by (rewrite He; set_solver).
  unfold url_entries in Hin. now apply list_elem_of_filter in Hin.
Qed.

Lemma feed_host_of_url lines n e host :
  fst (foldl feed_line (∅, ∅) lines) !! n = Some e ->
  entry_host e = Some host ->
  exists entries,
    snd (foldl feed_line (∅, ∅) lines) !! host = Some entries
    /\ entries <> [].
Proof.
  intros He Hh. apply feed_url_entry in He as [Hu Hin].
  assert (Hhe : e ∈ host_entries host lines).
  { unfold host_entries. apply list_elem_of_filter. split; assumption. }
  rewrite feed_host_index.
  destruct (host_entries host lines) as [|e0 es] eqn:E.
  - now apply elem_of_nil in Hhe.
  - exists (take 5 (e0 :: es)). split; [reflexivity|]. discriminate.
Qed.

Lemma feed_host_members lines host entries :
  snd (foldl feed_line (∅, ∅) lines) !! host = Some entries ->
  entries <> []
  /\ Forall (fun e => entry_host e = Some host
                      /\ is_Some (fst (foldl feed_line (∅, ∅) lines) !! url e))
       entries.
Proof.
  intros Hs. rewrite feed_host_index in Hs.
  destruct (host_entries host lines) as [|e0 es] eqn:E; [discriminate|].
  injection Hs as <-. split; [discriminate|].
  apply Forall_forall. intros e Hin.
  assert (Hin' : e ∈ host_entries host lines).
  { rewrite E. apply (subseteq_take 5 (e0 :: es)). exact Hin. }
  unfold host_entries in Hin'. apply list_elem_of_filter in Hin' as [Hh Hin'].
  split; [exact Hh|]. rewrite feed_url_index.
  assert (Hne : e ∈ url_entries (url e) lines).
  { unfold url_entries. apply list_elem_of_filter. split; [reflexivity|exact Hin']. }
  destruct (last (url_entries (url e) lines)) as [a|] eqn:El; [eauto|].
  apply last_None in El. rewrite El in Hne. now apply elem_of_nil in Hne.
Qed.

(** X5: the URL index built from a feed maps a normalised URL to the
    entry of the last line of the feed with that URL, and to nothing when
    there is none; the entry stored under a key carries that key as its URL
    and comes from a line of the feed, whose URL field normalises to that
    key. *)
Theorem url_index_last_wins text n :
  let lines := split_on (is_char "010") text in
  fst (feed_maps text) !! n = last (url_entries n lines)
  /\ forall e, fst (feed_maps text) !! n = Some e ->
       url e = n
       /\ exists line parts,
           In line lines
           /\ line_entry line = Some e
           /\ line_parts line = Some parts
           /\ normalizeUrl (default [] (parts !! 2%nat)) = Some n.
Proof.
  intros lines. unfold feed_maps. fold lines. split; [apply feed_url_index|].
  intros e He. apply feed_url_entry in He as [Hu Hin].
  apply list_elem_of_omap in Hin as (line & Hline & Hle).
  split; [exact Hu|].
  destruct (line_entry_field _ _ Hle) as (parts & Hparts & Hfield).
  exists line, parts. rewrite <- Hu.
  repeat split; try assumption. now apply list_elem_of_In.
Qed.

(** X6: the two indexes built from one feed agree: the host that the
    URL class reads from an entry of the URL index has a list in the host
    index, which is not empty; every list of the host index is not empty, its
    entries are of that host, and the URL of each is a key of the URL
    index. *)
Theorem feed_indexes_agree text :
  (forall n e host, fst (feed_maps text) !! n = Some e ->
     entry_host e = Some host ->
     exists entries,
       snd (feed_maps text) !! host = Some entries
       /\ entries <> [])
  /\ (forall host entries, snd (feed_maps text) !! host = Some entries ->
       entries <> []
       /\ Forall (fun e => entry_host e = Some host
                           /\ is_Some (fst (feed_maps text) !! url e)) entries).
Proof.
  unfold feed_maps. split.
  - intros n e host. apply feed_host_of_url.
  - intros host entries. apply feed_host_members.
Qed.

(** X7: on a snapshot built from a feed, [check] fulfils with
    [listed] true exactly when the feed has an entry for the host of the URL
    (lower case, without [www.]): the exact match adds nothing to the
    verdict; and every match it returns is an entry of that host. *)
Theorem listed_by_host text normalized parsed snap :
  URL.parse normalized = Some parsed ->
  (snap_urlMap snap, snap_hostMap snap) = feed_maps text ->
  let lines := split_on (is_char "010") text in
  let hostKey := toLowerCase (strip_www (URL.hostname parsed)) in
  exists result,
    check_resume normalized hostKey (Fulfilled snap) = Fulfilled result
    /\ (listed result = true <-> host_entries hostKey lines <> [])
    /\ Forall (fun m => entry_host (entry m) = Some hostKey) (matches result).
Proof.
  intros Hp Hs lines hostKey. eexists. split; [reflexivity|].
  cbn [listed matches].
  assert (Hu : snap_urlMap snap = fst (feed_maps text)) by now rewrite <- Hs.
  assert (Hh : snap_hostMap snap = snd (feed_maps text)) by now rewrite <- Hs.
  pose proof (fun e => feed_url_entry lines normalized e) as Hlast.
  pose proof (feed_host_of_url lines) as Hfwd.
  pose proof (feed_host_members lines) as Hback.
  change (foldl feed_line (∅, ∅) lines) with (feed_maps text) in Hlast, Hfwd, Hback.
  unfold all_matches. rewrite Hu, Hh.
  assert (Hhost : forall e, fst (feed_maps text) !! normalized = Some e ->
                    entry_host e = Some hostKey).
  { intros e He. destruct (Hlast e He) as (Hurl & _).
    unfold entry_host. rewrite Hurl, Hp. reflexivity. }
  assert (Hidx : snd (feed_maps text) !! hostKey =
                 match host_entries hostKey lines with
                 | [] => None | es => Some (take 5 es) end).
  { apply (feed_host_index lines). }
  split; [split|].
  - intros Hl Hnil. rewrite Hnil in Hidx.
    destruct (fst (feed_maps text) !! normalized) as [e|] eqn:He.
    + destruct (Hfwd _ _ hostKey He (Hhost e eq_refl)) as (entries & Hsome & _).
      congruence.
    + rewrite Hidx in Hl. discriminate.
  - intros Hne. rewrite Hidx.
    destruct (host_entries hostKey lines) as [|e0 es]; [congruence|].
    rewrite length_app, length_map. apply Nat.ltb_lt.
    change (take 5 (e0 :: es)) with (e0 :: take 4 es). cbn. lia.
  - apply Forall_take, Forall_app. split.
    + destruct (fst (feed_maps text) !! normalized) as [e|] eqn:He;
        [|constructor]. repeat constructor. cbn. now apply Hhost.
    + apply Forall_fmap, Forall_forall. intros e He. cbn.
      destruct (snd (feed_maps text) !! hostKey) as [entries|] eqn:E.
      * destruct (Hback _ _ E) as [_ Hall]. rewrite Forall_forall in Hall.
        now apply Hall.
      * now apply elem_of_nil in He.
Qed.

Lemma split_sep_from_skip sep : forall pre s,
  split_sep_from sep (length pre) (pre ++ s) = split_sep_from sep 0 s.
Proof.
  induction pre as [|c pre IH]; intros s; [reflexivity|]. cbn. apply IH.
Qed.

Lemma split_sep_from_nonempty sep : forall s k, split_sep_from sep k s <> [].
Proof.
  induction s as [|c s IH]; intros k; [discriminate|]. cbn.
  destruct k; [|apply IH]. destruct (starts_with sep (c :: s)); [discriminate|].
  destruct (split_sep_from sep 0 s); discriminate.
Qed.

Lemma split_sep_field d sep' : forall f t,
  d ∉ f ->
  split_sep_from (d :: sep') 0 (f ++ t) =
  match split_sep_from (d :: sep') 0 t with
  | h :: tl => (f ++ h) :: tl
  | [] => [f]
  end.
Proof.
  induction f as [|c f IH]; intros t Hd.
  - cbn [app]. pose proof (split_sep_from_nonempty (d :: sep') t 0).
    destruct (split_sep_from (d :: sep') 0 t); [congruence|reflexivity].
  - apply not_elem_of_cons in Hd as [Hc Hf].
    cbn [app split_sep_from].
    assert (E : starts_with (d :: sep') (c :: f ++ t) = false).
    { unfold starts_with. apply bool_decide_eq_false. cbn. congruence. }
    rewrite E, (IH t Hf).
    destruct (split_sep_from (d :: sep') 0 t); reflexivity.
Qed.

Lemma split_sep_sep d sep' s :
  split_sep_from (d :: sep') 0 ((d :: sep') ++ s) = [] :: split_sep_from (d :: sep') 0 s.
Proof.
  cbn [app split_sep_from].
  assert (E : starts_with (d :: sep') (d :: sep' ++ s) = true).
  { unfold starts_with. apply bool_decide_eq_true.
    change (d :: sep' ++ s) with ((d :: sep') ++ s). now rewrite take_app_length. }
  rewrite E. f_equal. change (length (d :: sep') - 1) with (length sep' - 0).
  rewrite Nat.sub_0_r. apply split_sep_from_skip.
Qed.

Lemma split_sep_join d sep' fields :
  Forall (fun f => d ∉ f) fields ->
  split_sep (d :: sep') (join (d :: sep') fields) =
  match fields with [] => [[]] | _ => fields end.
Proof.
  unfold split_sep. induction 1 as [|f rest Hf Hrest IH]; [reflexivity|].
  destruct rest as [|g rest].
  - cbn [join]. rewrite <- (app_nil_r f) at 1. rewrite (split_sep_field d sep' f [] Hf).
    cbn. now rewrite app_nil_r.
  - change (join (d :: sep') (f :: g :: rest))
      with (f ++ (d :: sep') ++ join (d :: sep') (g :: rest)).
    rewrite (split_sep_field d sep' f _ Hf), split_sep_sep, IH.
    now rewrite app_nil_r.
Qed.

Lemma ws_len_rev_dquote r : ws_len_rev (dquote :: r) = 0%nat.
Proof.
  unfold ws_len_rev. change (is_ws1 dquote) with false. cbv iota.
  destruct r as [|c2 r2]; [reflexivity|].
  assert (E2 : (ws_len [c2; dquote] =? 2)%nat = false) by (clear; each_char c2).
  rewrite E2. destruct r2 as [|c3 r3]; [reflexivity|].
  assert (E3 : (ws_len [c3; c2; dquote] =? 3)%nat = false).
  { clear. destruct c3 as [[] [] [] [] [] [] [] []]; cbn;
      repeat match goal with
             | |- context [(code c2 =? ?n)%N] => destruct (code c2 =? n)%N; cbn
             end; reflexivity. }
  now rewrite E3.
Qed.

Lemma trim_quoted s : trim (dquote :: s ++ [dquote]) = dquote :: s ++ [dquote].
Proof.
  unfold trim, trimStart, trimEnd.
  assert (E : strip_with ws_len (length (dquote :: s ++ [dquote])) (dquote :: s ++ [dquote])
              = dquote :: s ++ [dquote]).
  { apply strip_with_zero. reflexivity. }
  rewrite E. rewrite strip_with_zero; [apply rev_involutive|].
  change (dquote :: s ++ [dquote]) with ((dquote :: s) ++ [dquote]).
  rewrite rev_app_distr. apply ws_len_rev_dquote.
Qed.

Lemma strip_quotes_quoted s : strip_quotes (dquote :: s ++ [dquote]) = s.
Proof.
  unfold strip_quotes. rewrite bool_decide_eq_true_2 by reflexivity.
  rewrite last_snoc. rewrite bool_decide_eq_true_2 by reflexivity.
  apply drop_last_snoc.
Qed.

Lemma line_parts_quoted_row fields :
  Forall (fun f => dquote ∉ f) fields ->
  line_parts (quoted_row fields) =
  if (length fields <? 3)%nat then None else Some fields.
Proof.
  intros H. unfold line_parts, quoted_row. cbn [app].
  rewrite bool_decide_eq_false_2 by (vm_compute; discriminate).
  rewrite trim_quoted, strip_quotes_quoted, (split_sep_join dquote _ fields H).
  destruct fields as [|f fields]; reflexivity.
Qed.

(** X8: a line that writes at least 3 fields free of double quotes,
    each between double quotes and separated by commas, is split by the loop
    of [fetchFeed] into exactly these fields; it is stored under the normal
    form of its third field, and changes nothing when that field does not
    normalise. *)
Theorem feed_line_quoted_row maps fields :
  Forall (fun f => dquote ∉ f) fields ->
  3 <= length fields ->
  line_parts (quoted_row fields) = Some fields
  /\ match normalizeUrl (default [] (fields !! 2%nat)) with
     | Some n =>
         fst (feed_line maps (quoted_row fields))
         = <[n := feed_entry n fields]> (fst maps)
     | None => feed_line maps (quoted_row fields) = maps
     end.
Proof.
  intros H Hlen.
  assert (Hp : line_parts (quoted_row fields) = Some fields).
  { rewrite (line_parts_quoted_row fields H).
    destruct (Nat.ltb_spec (length fields) 3); [lia|reflexivity]. }
  split; [exact Hp|]. rewrite feed_line_entry. unfold line_entry. rewrite Hp.
  destruct (normalizeUrl _) as [n|] eqn:E; [|reflexivity].
  destruct (normalizeUrl_Some_cons _ _ E) as (c & r & ->). reflexivity.
Qed.

Lemma feed_entries lines : forall maps,
  foldl feed_line maps lines = foldl add_entry maps (omap line_entry lines).
Proof.
  induction lines as [|line lines IH]; intros maps; [reflexivity|].
  cbn [foldl]. rewrite feed_line_entry.
  change (omap line_entry (line :: lines))
    with (match line_entry line with
          | Some e => e :: omap line_entry lines
          | None => omap line_entry lines
          end).
  destruct (line_entry line) as [e|]; cbn [foldl]; apply IH.
Qed.

(** X9: the indexes depend on the feed only through the sequence of
    the entries of its lines: two feeds with the same entries in the same
    order give the same indexes, so comment lines, empty lines, lines of
    fewer than 3 fields and lines whose URL does not normalise change
    nothing. *)
Theorem feed_maps_by_entries text text' :
  omap line_entry (split_on (is_char "010") text)
  = omap line_entry (split_on (is_char "010") text') ->
  feed_maps text = feed_maps text'.
Proof. intros H. unfold feed_maps. now rewrite !feed_entries, H. Qed.

(** ** The life of the cache *)

(** X10: after a refresh that succeeded at time [refreshedAt], [load]
    hands out the snapshot of that refresh at once, with no request, while
    less than [URLHAUS_TTL_MS] have passed; from then on it issues one new
    request for the feed, names its promise in [loading], and keeps the
    indexes of the last refresh meanwhile. *)
Theorem refresh_then_load p resp body refreshedAt now w :
  resp_ok resp = true ->
  text resp = Fulfilled body ->
  let w1 := snd (fetchFeed_resume p (Fulfilled resp) refreshedAt w) in
  exists snap,
    fst (fetchFeed_resume p (Fulfilled resp) refreshedAt w) = Fulfilled snap
    /\ ((now - refreshedAt < URLHAUS_TTL_MS)%Z -> load now w1 = (Ready snap, w1))
    /\ ((URLHAUS_TTL_MS <= now - refreshedAt)%Z ->
        exists w2,
          load now w1 = (Pending (length (requests w)), w2)
          /\ requests w2 = requests w ++ [URLHAUS_FEED]
          /\ loading (urlhaus w2) = Some (length (requests w))
          /\ snapshot (urlhaus w2) = snap).
Proof.
  intros Hok Ht w1. subst w1. unfold fetchFeed_resume. rewrite Hok, Ht. cbn [negb].
  destruct (feed_maps body) as [um hm]. cbn [fst snd]. eexists. split; [reflexivity|].
  unfold load, isFresh. cbn [urlhaus lastFetched loading]. split.
  - intros H. apply Z.ltb_lt in H. now rewrite H.
  - intros H. apply Z.ltb_ge in H. rewrite H. eexists. split; [reflexivity|].
    cbn. repeat split.
Qed.

(** X11: after a refresh that failed the cache holds what it held
    before; [load] then serves that snapshot while it is fresh, and otherwise
    starts a new refresh at once, with one new request for the feed: a
    failure is not remembered. *)
Theorem failed_refresh_retries p answer failedAt now w message :
  fst (fetchFeed_resume p answer failedAt w) = Rejected message ->
  let w1 := snd (fetchFeed_resume p answer failedAt w) in
  snapshot (urlhaus w1) = snapshot (urlhaus w)
  /\ (isFresh now (urlhaus w) = true ->
      load now w1 = (Ready (snapshot (urlhaus w)), w1))
  /\ (isFresh now (urlhaus w) = false ->
      exists w2,
        load now w1 = (Pending (length (requests w)), w2)
        /\ requests w2 = requests w ++ [URLHAUS_FEED]
        /\ suspended w2 = filter (fun q => q <> p) (suspended w) ++ [length (requests w)]).
Proof.
  intros Hfail w1.
  assert (E : w1 = {| urlhaus := with_loading None (urlhaus w);
                      requests := requests w;
                      suspended := filter (fun q => q <> p) (suspended w) |}).
  { subst w1. revert Hfail. unfold fetchFeed_resume.
    destruct answer as [resp|m]; [|reflexivity].
    destruct (negb (resp_ok resp)); [reflexivity|].
    destruct (text resp) as [body|m]; [|reflexivity].
    destruct (feed_maps body). discriminate. }
  rewrite E. split; [reflexivity|]. unfold load, isFresh.
  cbn [urlhaus with_loading lastFetched loading]. split.
  - intros ->. reflexivity.
  - intros ->. eexists. split; [reflexivity|]. split; reflexivity.
Qed.

Lemma load_coherent now w : coherent w -> coherent (snd (load now w)).
Proof.
  intros (Hm & Hs & Hr). unfold load.
  destruct (isFresh now (urlhaus w)); [now split|].
  destruct (loading (urlhaus w)); [now split|].
  unfold coherent, fetchFeed_call.
  cbn [snd fst requests suspended urlhaus with_loading urlMap hostMap].
  split; [exact Hm|]. split.
  - apply Forall_app. split.
    + eapply Forall_impl; [exact Hs|]. cbn. intros p Hp.
      rewrite lookup_app_l; [exact Hp|]. now apply lookup_lt_Some in Hp.
    + apply Forall_cons. split; [|constructor]. rewrite lookup_app_r by lia.
      now rewrite Nat.sub_diag.
  - apply Forall_app. split; [exact Hr|]. apply Forall_cons. split; [now left|constructor].
Qed.

Lemma phish_coherent u w : coherent w -> coherent (snd (checkPhishFeed_call u w)).
Proof.
  intros (Hm & Hs & Hr). unfold checkPhishFeed_call.
  destruct (normalizeUrl u) as [[|c n]|]; try now split.
  destruct (URL.parse (c :: n)) as [parsed|]; [|now split].
  unfold coherent.
  cbn [snd fst requests suspended urlhaus with_loading urlMap hostMap].
  split; [exact Hm|]. split.
  - eapply Forall_impl; [exact Hs|]. cbn. intros p Hp.
    rewrite lookup_app_l; [exact Hp|]. now apply lookup_lt_Some in Hp.
  - apply Forall_app. split; [exact Hr|]. apply Forall_cons. split; [right; eauto|constructor].
Qed.

Lemma resume_coherent p answer now w :
  coherent w -> coherent (snd (fetchFeed_resume p answer now w)).
Proof.
  intros (Hm & Hs & Hr).
  assert (Hf : Forall (fun q => requests w !! q = Some URLHAUS_FEED)
                 (filter (fun q => q <> p) (suspended w))).
  { apply Forall_forall. intros q Hq. apply list_elem_of_filter in Hq as [_ Hq].
    rewrite Forall_forall in Hs. now apply Hs. }
  unfold fetchFeed_resume.
  destruct answer as [resp|m]; [|now split].
  destruct (negb (resp_ok resp)); [now split|].
  destruct (text resp) as [body|m]; [|now split].
  destruct (feed_maps body) as [um hm] eqn:E. unfold coherent.
  cbn [snd fst requests suspended urlhaus with_loading urlMap hostMap].
  split; [exists body; now rewrite E|]. now split.
Qed.

Lemma reachable_coherent w : reachable w -> coherent w.
Proof.
  induction 1 as [|w w' Hr IH Hstep].
  - split; [now exists []|]. split; constructor.
  - destruct Hstep.
    + now apply load_coherent.
    + now apply phish_coherent.
    + now apply resume_coherent.
Qed.

End Inspection.

Section ReachableCache.
Context {pf : Platform}.

(** X12: in every world the service can reach, the two indexes of
    the cache were built from one feed (the empty one at the start); so every
    list of the host index has from 1 to 5 entries, all of its host and all
    with their URL in the URL index, and every key of the URL index is the
    URL of its entry and, on a platform that obeys [PlatformLaws], normalises
    again to itself without one trailing slash; the promise named by
    [loading] is that of a request for the feed, and every request issued is
    for the feed or for the real-time source. *)
Theorem reachable_cache_from_feed w :
  reachable w ->
  (exists body, (urlMap (urlhaus w), hostMap (urlhaus w)) = feed_maps body)
  /\ (forall host entries, hostMap (urlhaus w) !! host = Some entries ->
        1 <= length entries <= 5
        /\ Forall (fun e => entry_host e = Some host
                            /\ is_Some (urlMap (urlhaus w) !! url e)) entries)
  /\ (forall n e, urlMap (urlhaus w) !! n = Some e ->
        url e = n /\ (PlatformLaws pf -> normalizeUrl n = Some (strip_slash n)))
  /\ (forall p, loading (urlhaus w) = Some p ->
        requests w !! p = Some URLHAUS_FEED)
  /\ Forall (fun r => r = URLHAUS_FEED
                      \/ exists host, r = PHISH_API ++ encodeURIComponent host)
       (requests w).
Proof.
  intros Hr. pose proof (reachable_single_flight w Hr) as Hsf.
  destruct (reachable_coherent w Hr) as ((body & Hm) & Hs & Hreq).
  assert (Hu : urlMap (urlhaus w) = fst (feed_maps body)) by now rewrite <- Hm.
  assert (Hh : hostMap (urlhaus w) = snd (feed_maps body)) by now rewrite <- Hm.
  split; [now exists body|]. rewrite Hu, Hh. unfold feed_maps.
  set (lines := split_on (is_char "010") body).
  split; [|split; [|split]].
  - intros host entries He. destruct (feed_host_members lines host entries He) as [Hne Hall].
    split; [|exact Hall]. rewrite feed_host_index in He.
    destruct (host_entries host lines) as [|e0 es]; [discriminate|].
    injection He as <-.
    assert (length (take 4 es) <= 4) by (rewrite length_take; lia).
    cbn [length]. lia.
  - intros n e He. apply feed_url_entry in He as [Hurl Hin]. split; [exact Hurl|].
    apply list_elem_of_omap in Hin as (line & _ & Hle).
    intros laws. destruct (line_entry_url _ _ Hle) as [x Hx]. rewrite Hurl in Hx.
    now apply normalizeUrl_again in Hx.
  - intros p Hp. unfold single_flight in Hsf. rewrite Hp in Hsf. rewrite Hsf in Hs.
    now apply Forall_cons in Hs as [Hs _].
  - exact Hreq.
Qed.

End ReachableCache.

Section Lookups.
Context {pf : Platform} {laws : PlatformLaws pf}.

(** ** The lookups *)

(** X13: on an input that does not normalise, [check] and
    [checkPhishFeed] reject with [Invalid URL] and leave the world as it was:
    no request, no refresh; on an input that normalises to a URL the URL
    class reads, neither throws before its [await]: [check] reaches the load
    with the normalised URL and its host without [www.], [checkPhishFeed]
    sends its request. *)
Theorem lookups_reject_invalid inputUrl now env w :
  (normalizeUrl inputUrl = None ->
     check inputUrl now env w = (Rejected (Some (lit "Invalid URL")), w)
     /\ checkPhishFeed inputUrl env w = (Rejected (Some (lit "Invalid URL")), w))
  /\ (forall normalized parsed,
        normalizeUrl inputUrl = Some normalized ->
        URL.parse normalized = Some parsed ->
        check_call inputUrl now w
        = (Fulfilled (normalized, toLowerCase (strip_www (URL.hostname parsed)),
                      fst (load now w)),
           snd (load now w))
        /\ fst (checkPhishFeed_call inputUrl w) = Fulfilled (length (requests w))).
Proof.
  split.
  - intros H. unfold check, check_call, checkPhishFeed, checkPhishFeed_call.
    rewrite H. split; reflexivity.
  - intros normalized parsed H Hp.
    rewrite (check_call_parsed _ _ _ now w H Hp).
    rewrite (checkPhishFeed_call_parsed _ _ _ w H Hp). split; reflexivity.
Qed.

Lemma percent_decode_byte c r :
  URL.percent_decode (URL.percent_encode_byte c ++ r) = c :: URL.percent_decode r.
Proof. destruct c as [[] [] [] [] [] [] [] []]; reflexivity. Qed.

Lemma percent_decode_encode (set : ascii -> bool) s :
  set "%" = true -> URL.percent_decode (URL.percent_encode set s) = s.
Proof.
  intros Hset. induction s as [|c s IH]; [reflexivity|].
  unfold URL.percent_encode in *. cbn [flat_map].
  destruct (set c) eqn:E.
  - now rewrite percent_decode_byte, IH.
  - cbn [app URL.percent_decode]. destruct (ascii_dec c "%") as [->|_]; [congruence|].
    now rewrite IH.
Qed.

Lemma percent_encode_safe s :
  forallb (fun c => uri_unreserved c || is_char "%" c) (encodeURIComponent s) = true.
Proof.
  unfold encodeURIComponent, URL.percent_encode.
  induction s as [|c s IH]; [reflexivity|]. cbn [flat_map]. rewrite forallb_app, IH, andb_true_r.
  destruct (negb (uri_unreserved c)) eqn:E.
  - clear. each_char c.
  - apply negb_false_iff in E. cbn. now rewrite E.
Qed.

(** X14: the request of [checkPhishFeed] is [PHISH_API] followed by
    the encoded host: made of unreserved characters and percent signs only,
    and percent-decoding it gives back the lower-case host name that the URL
    class reads from the normalised URL. *)
Theorem phish_request_carries_host targetUrl normalized parsed w :
  normalizeUrl targetUrl = Some normalized ->
  URL.parse normalized = Some parsed ->
  let encoded := encodeURIComponent (toLowerCase (URL.hostname parsed)) in
  requests (snd (checkPhishFeed_call targetUrl w))
  = requests w ++ [PHISH_API ++ encoded]
  /\ URL.percent_decode encoded = toLowerCase (URL.hostname parsed)
  /\ forallb (fun c => uri_unreserved c || is_char "%" c) encoded = true.
Proof.
  intros H Hp encoded. rewrite (checkPhishFeed_call_parsed _ _ _ w H Hp).
  split; [reflexivity|]. split.
  - apply percent_decode_encode. reflexivity.
  - apply percent_encode_safe.
Qed.

Lemma hostname_strip_slash x y parsed :
  normalizeUrl x = Some y -> URL.parse y = Some parsed ->
  exists parsed',
    URL.parse (strip_slash y) = Some parsed'
    /\ URL.hostname parsed' = URL.hostname parsed.
Proof.
  intros H Hp. apply normalizeUrl_shape in H as (u & Hu & ->).
  rewrite (parse_normal u Hu) in Hp. injection Hp as <-.
  destruct Hu as (Hc & Hl & Hpq). unfold strip_slash.
  destruct (ends_with_slash (URL.serialize u)) eqn:Hend.
  - assert (Hne : URL.path u <> []).
    { intros Ep.
      pose proof (canonical_elim u Hc) as (_ & _ & _ & _ & _ & _ & _ & Hf).
      rewrite (serialize_shape u Hf) in Hend. unfold Canon.after_authority in Hend.
      rewrite Ep, (Hpq Ep) in Hend.
      cbn [Canon.path_serialize flat_map Canon.query_serialize app] in Hend.
      rewrite app_nil_r, !app_assoc in Hend.
      rewrite ends_with_slash_app in Hend by now apply authority_nonempty.
      now rewrite authority_no_slash in Hend. }
    destruct (strip_canonical u Hc Hne Hend) as (u' & Hc' & Hpq' & Hh & ->).
    rewrite (parse_serialize u' Hc' Hpq'). eexists. split; [reflexivity|].
    unfold URL.hostname, Canon.with_path. cbn [URL.host]. now rewrite Hh.
  - rewrite (parse_serialize u Hc Hpq). eauto.
Qed.

Lemma load_requests now w :
  requests (snd (load now w)) = requests w ++ feed_request now w.
Proof.
  unfold load, feed_request. destruct (isFresh now (urlhaus w)); [now rewrite app_nil_r|].
  destruct (loading (urlhaus w)); [now rewrite app_nil_r|]. reflexivity.
Qed.


Lemma inspectUrl_call_lookups rawUrl normalized parsed now w :
  normalizeUrl rawUrl = Some normalized ->
  URL.parse normalized = Some parsed ->
  let host := toLowerCase (strip_www (URL.hostname parsed)) in
  let w1 := {| urlhaus := urlhaus w;
               requests := requests w
                 ++ [PHISH_API ++ encodeURIComponent (toLowerCase (URL.hostname parsed))];
               suspended := suspended w |} in
  inspectUrl_call rawUrl now w
  = (Awaiting normalized host (Fulfilled (length (requests w)))
       (Fulfilled (strip_slash normalized, host, fst (load now w1))),
     snd (load now w1)).
Proof.
  intros H Hp host w1.
  destruct (normalizeUrl_Some_cons _ _ H) as (c & n & E).
  pose proof (normalizeUrl_again _ _ H) as H2.
  destruct (hostname_strip_slash _ _ _ H Hp) as (parsed' & Hp' & Hh).
  unfold inspectUrl_call. rewrite H, E. rewrite <- E. rewrite Hp.
  destruct (checkPhishFeed_call_normalized normalized _ w H2) as (q & Hq & ->).
  rewrite Hp' in Hq. injection Hq as <-. rewrite Hh. fold w1.
  destruct (check_call_normalized normalized _ now w1 H2) as (q & Hq & ->).
  rewrite Hp' in Hq. injection Hq as <-. rewrite Hh. reflexivity.
Qed.

(** X15: when the input normalises, [inspectUrl] reports the host of
    the normalised URL, asks the real-time source about that host, issues
    that request first and then the request of [load] if there is one, and
    looks up the feed under that same host and under the normalised URL
    without one trailing slash. *)
Theorem inspectUrl_lookups rawUrl normalized now env done w :
  normalizeUrl rawUrl = Some normalized ->
  exists parsed sources,
    URL.parse normalized = Some parsed
    /\ let host := toLowerCase (strip_www (URL.hostname parsed)) in
       let w1 := snd (checkPhishFeed normalized env w) in
       fst (inspectUrl rawUrl now env done w)
       = Fulfilled (Inspected host normalized sources done)
       /\ requests w1
          = requests w
            ++ [PHISH_API ++ encodeURIComponent (toLowerCase (URL.hostname parsed))]
       /\ requests (snd (inspectUrl rawUrl now env done w))
          = requests w1 ++ feed_request now w
       /\ phishFeed sources
          = source_result (lit "phish.sinking.yachts")
              (checkPhishFeed_resume (answer env (length (requests w))))
       /\ src_urlhaus sources
          = source_result (lit "URLHaus")
              (check_resume (strip_slash normalized) host
                 (loaded env (fst (load now w1)))).
Proof.
  intros H. destruct (normalizeUrl_parses _ _ H) as [parsed Hp].
  exists parsed. eexists. split; [exact Hp|]. cbn zeta.
  pose proof (normalizeUrl_again _ _ H) as H2.
  destruct (hostname_strip_slash _ _ _ H Hp) as (parsed' & Hp' & Hh).
  unfold inspectUrl, checkPhishFeed.
  rewrite (inspectUrl_call_lookups _ _ _ now w H Hp).
  destruct (checkPhishFeed_call_normalized normalized _ w H2) as (q & Hq & ->).
  rewrite Hp' in Hq. injection Hq as <-. rewrite Hh.
  cbn [fst snd inspectUrl_resume]. split; [reflexivity|].
  split; [reflexivity|]. rewrite load_requests. cbn [requests]. split; [reflexivity|].
  cbn [phishFeed src_urlhaus phish_settled check_settled]. split; reflexivity.
Qed.








(** ** The routes *)

(** ** The routes of the server

    [POST /api/osint/link] and [POST /api/osint/text].  The field of the
    request body is [Some] string, or [None] when the body has no such field
    or a null one; other JSON values are outside this model. *)

Lemma inspectUrl_fulfils rawUrl now env done w :
  exists intel,
    fst (inspectUrl rawUrl now env done w) = Fulfilled intel
    /\ (ok intel = false <-> normalizeUrl rawUrl = None)
    /\ (normalizeUrl rawUrl = None -> snd (inspectUrl rawUrl now env done w) = w).
Proof.
  unfold inspectUrl. destruct (normalizeUrl rawUrl) as [normalized|] eqn:H.
  - destruct (normalizeUrl_parses _ _ H) as [parsed Hp].
    rewrite (inspectUrl_call_lookups _ _ _ now w H Hp). cbn [fst snd inspectUrl_resume].
    eexists. split; [reflexivity|]. cbn [ok]. split; [split|]; discriminate.
  - unfold inspectUrl_call. rewrite H. cbn. eexists. split; [reflexivity|].
    cbn [ok]. tauto.
Qed.

Lemma inspectUrl_by_normal a b now env done w :
  normalizeUrl a = normalizeUrl b ->
  inspectUrl a now env done w = inspectUrl b now env done w.
Proof. intros H. unfold inspectUrl, inspectUrl_call. now rewrite H. Qed.

Lemma ok_false_invalid rawUrl now env done w intel :
  fst (inspectUrl rawUrl now env done w) = Fulfilled intel ->
  ok intel = false ->
  intel = Invalid (lit "Enter a valid URL (example: https://example.com).").
Proof.
  unfold inspectUrl. destruct (normalizeUrl rawUrl) as [normalized|] eqn:H.
  - destruct (normalizeUrl_parses _ _ H) as [parsed Hp].
    rewrite (inspectUrl_call_lookups _ _ _ now w H Hp). cbn [fst snd inspectUrl_resume].
    intros [= <-]. discriminate.
  - unfold inspectUrl_call. rewrite H. cbn. now intros [= <-].
Qed.

(** X17: the route [/api/osint/link] answers 400 with [Missing url],
    and issues no request, when the field is absent or empty once trimmed;
    otherwise it answers 200 with the result of [inspectUrl] on the field,
    also when the field is no valid URL, in which case the body has [ok]
    false, carries the message of [inspectUrl] and no request was issued; it
    never answers 500. *)
Theorem osint_link_replies field now env done w :
  let reply := fst (osint_link field now env done w) in
  let w' := snd (osint_link field now env done w) in
  (trim (default [] field) = [] ->
     reply = status_json 400 (Missing (lit "Missing url")) /\ w' = w)
  /\ (trim (default [] field) <> [] ->
        exists intel,
          reply = json (LinkIntel intel)
          /\ inspectUrl (default [] field) now env done w = (Fulfilled intel, w')
          /\ (ok intel = false <->
              intel = Invalid (lit "Enter a valid URL (example: https://example.com)."))
          /\ (ok intel = false -> w' = w))
  /\ reply_status reply <> 500%N.
Proof.
  cbn zeta. unfold osint_link.
  destruct (trim (default [] field)) as [|c t] eqn:E.
  - cbn [fst snd]. split; [now split|]. split; [congruence|]. discriminate.
  - rewrite <- E.
    rewrite (inspectUrl_by_normal _ _ now env done w
               (normalizeUrl_by_trim _ _ (trim_idempotent (default [] field)))).
    destruct (inspectUrl_fulfils (default [] field) now env done w)
      as (intel & Hi & Hok & Hw).
    pose proof (ok_false_invalid _ now env done w intel Hi) as Hinv.
    destruct (inspectUrl (default [] field) now env done w) as [r w1].
    cbn [fst snd] in *. subst r. cbn [fst snd].
    split; [intros Hnil; rewrite E in Hnil; discriminate|]. split; [|discriminate].
    intros _. exists intel. split; [reflexivity|]. split; [reflexivity|]. split.
    + split; [exact Hinv|]. now intros ->.
    + intros Hf. apply Hw, Hok, Hf.
Qed.

(** X18: the route [/api/osint/text] answers 400 with [Missing text],
    and issues no request, when the field is absent or empty once trimmed;
    otherwise it answers 200 with the result of [inspectText] on the field as
    sent, whose [ok] is true; when the text holds no URL the result is empty
    and no request was issued. *)
Theorem osint_text_replies field now env done w :
  let reply := fst (osint_text field now env done w) in
  let w' := snd (osint_text field now env done w) in
  (trim (default [] field) = [] ->
     reply = status_json 400 (Missing (lit "Missing text")) /\ w' = w)
  /\ (trim (default [] field) <> [] ->
        exists intel,
          reply = json (TextIntel intel)
          /\ inspectText (default [] field) now env done w = (intel, w')
          /\ text_ok intel = true
          /\ (extractUrlsFromText (default [] field) = [] ->
              urls intel = [] /\ found intel = 0 /\ truncated intel = false /\ w' = w)).
Proof.
  cbn zeta. unfold osint_text.
  destruct (trim (default [] field)) as [|c t] eqn:E.
  - cbn [fst snd]. split; [now split|]. congruence.
  - split; [discriminate|]. intros _.
    destruct (inspectText (default [] field) now env done w) as [intel w1] eqn:Ei.
    cbn [fst snd]. exists intel. split; [reflexivity|]. split; [reflexivity|].
    unfold inspectText in Ei.
    destruct (inspect_calls _ now w) as [calls w2] eqn:Ec.
    injection Ei as <- <-. cbn [text_ok urls found truncated]. split; [reflexivity|].
    intros Hnil. rewrite Hnil in *. cbn in Ec. injection Ec as <- <-.
    cbn. repeat split.
Qed.

End Lookups.

(** * The properties at work

    The sample platform obeys what is used of the platform: the witnesses and
    the examples below run on it. *)

Lemma sample_laws : PlatformLaws sample_platform.
Proof.
  split; cbn [unicode_to_ascii ipv6_address sample_platform]; intros x a H;
    unfold table_lookup, sample_domains, sample_addresses in H;
    cbn [find fst snd fmap option_fmap option_map] in H;
    repeat (destruct (bool_decide _) in H;
            [injection H as <-; try (intros _); vm_compute; reflexivity|]);
    discriminate H.
Qed.

Section Samples.
#[local] Existing Instance sample_platform.
#[local] Existing Instance sample_laws.

(** Property 2 of the specification: both spellings have the
    same normal form, lower-cased down to the path. *)
Example normalizeUrl_example :
  normalizeUrl (lit "EXAMPLE.com/Path/") = Some (lit "https://example.com/path")
  /\ normalizeUrl (lit "https://example.com/Path") = Some (lit "https://example.com/path").
Proof. split; vm_compute; reflexivity. Qed.

(** C1, as stated, fails: [example.com//] normalises to
    [https://example.com/], whose path still ends with a slash, and that
    normalises to [https://example.com]. *)
Lemma normalizeUrl_not_idempotent :
  exists y,
    normalizeUrl (lit "example.com//") = Some y /\ normalizeUrl y <> Some y.
Proof.
  exists (lit "https://example.com/"). split.
  - vm_compute. reflexivity.
  - vm_compute. discriminate.
Qed.

Lemma normalizeUrl_idempotent_modulo_slash_witness :
  normalizeUrl (lit "  HTTP://[0:0:0:0:0:0:0:1]:8080/Path/#top ")
  = Some (lit "http://[::1]:8080/path")
  /\ normalizeUrl (lit "http://[::1]:8080/path") = Some (lit "http://[::1]:8080/path").
Proof.
  split.
  - vm_compute. reflexivity.
  - apply (normalizeUrl_idempotent_modulo_slash
             (lit "  HTTP://[0:0:0:0:0:0:0:1]:8080/Path/#top ")
             (lit "http://[::1]:8080/path")).
    + vm_compute. reflexivity.
    + vm_compute. reflexivity.
Defined.

Lemma check_matches_witness :
  normalizeUrl (lit "HTTP://WWW.Bad.example/a/") = Some (lit "http://www.bad.example/a")
  /\ loaded quiet (fst (load 1000 sample_world)) = Fulfilled (snapshot (urlhaus sample_world))
  /\ exists result,
       fst (check (lit "HTTP://WWW.Bad.example/a/") 1000 quiet sample_world)
       = Fulfilled result
       /\ matches result = [{| entry := sample_entry; matchType := match_url |};
                           {| entry := sample_entry; matchType := match_host |}]
       /\ listed result = true.
Proof.
  split; [vm_compute; reflexivity|]. split; [vm_compute; reflexivity|].
  destruct (check_matches (lit "HTTP://WWW.Bad.example/a/")
              (lit "http://www.bad.example/a") 1000 quiet sample_world
              (snapshot (urlhaus sample_world)))
    as (parsed & result & Hp & Hr & Hm & _ & Hl & _).
  - vm_compute. reflexivity.
  - vm_compute. reflexivity.
  - exists result. split; [exact Hr|].
    assert (E : URL.hostname parsed = lit "www.bad.example").
    { vm_compute in Hp. injection Hp as <-. vm_compute. reflexivity. }
    cbv zeta in Hm, Hl. rewrite E in Hm, Hl. split.
    + rewrite Hm. vm_compute. reflexivity.
    + apply Hl. vm_compute. discriminate.
Defined.

Lemma load_single_flight_coalescing_witness :
  reachable (snd (load 900000 World_new))
  /\ loads [900001; 900002; 900003]%Z (snd (load 900000 World_new))
     = ([Pending 0; Pending 0; Pending 0], snd (load 900000 World_new))
  /\ requests (snd (load 900000 World_new)) = [URLHAUS_FEED].
Proof.
  assert (Hr : reachable (snd (load 900000 World_new))).
  { exact (reachable_step _ _ reachable_new (step_load 900000 World_new)). }
  split; [exact Hr|]. split; [|reflexivity].
  destruct (load_single_flight_coalescing _ Hr) as (_ & Hburst & _).
  apply (Hburst 0 [900001; 900002; 900003]%Z).
  - reflexivity.
  - repeat constructor.
Defined.

Lemma checkPhishFeed_host_witness :
  normalizeUrl (lit "WWW.Example.com/login") = Some (lit "https://www.example.com/login")
  /\ requests (snd (checkPhishFeed (lit "WWW.Example.com/login") quiet World_new))
     = [lit "https://phish.sinking.yachts/v2/check/www.example.com"]
  /\ requests (snd (checkPhishFeed (sample_unicode_domain ++ lit "/login") quiet
                      World_new))
     = [lit "https://phish.sinking.yachts/v2/check/xn--bcher-kva.example"].
Proof.
  split; [vm_compute; reflexivity|]. split.
  - destruct (checkPhishFeed_host (lit "WWW.Example.com/login")
                (lit "https://www.example.com/login") quiet World_new)
      as (parsed & Hp & Hr & _).
    + vm_compute. reflexivity.
    + rewrite Hr.
      assert (E : URL.hostname parsed = lit "www.example.com").
      { vm_compute in Hp. injection Hp as <-. vm_compute. reflexivity. }
      rewrite E. vm_compute. reflexivity.
  - vm_compute. reflexivity.
Defined.

Lemma inspectUrl_invalid_witness :
  normalizeUrl (lit "   ") = None
  /\ inspectUrl_call (lit "   ") 0 World_new
     = (Returned (Invalid (lit "Enter a valid URL (example: https://example.com).")),
        World_new).
Proof.
  split; [vm_compute; reflexivity|].
  apply (inspectUrl_invalid (lit "   ") 0 quiet 0 World_new). vm_compute. reflexivity.
Defined.

Lemma feed_entry_defaults_witness :
  line_parts sample_line
  = Some [lit "1"; lit "2024-01-01 00:00:00"; lit "http://Bad.example/a/"]
  /\ normalizeUrl (lit "http://Bad.example/a/") = Some (lit "http://bad.example/a")
  /\ fst (feed_line (∅, ∅) sample_line)
     = {[ lit "http://bad.example/a" :=
            {| url := lit "http://bad.example/a";
               threat := lit "listed";
               lastOnline := None |} ]}
  /\ snd (feed_line (∅, ∅) sample_line)
     = {[ lit "bad.example" :=
            [{| url := lit "http://bad.example/a";
                threat := lit "listed";
                lastOnline := None |}] ]}.
Proof.
  split; [vm_compute; reflexivity|]. split; [vm_compute; reflexivity|].
  destruct (feed_entry_defaults (∅, ∅) sample_line
              [lit "1"; lit "2024-01-01 00:00:00"; lit "http://Bad.example/a/"]
              (lit "http://bad.example/a"))
    as (_ & Hu & Hh).
  - vm_compute. reflexivity.
  - vm_compute. reflexivity.
  - rewrite Hu. split; [reflexivity|].
    change (URL.parse (lit "http://bad.example/a"))
      with (Some (URL.mk (lit "http") [] [] (URL.Domain (lit "bad.example")) None
                    [lit "a"] None None)) in Hh.
    cbv zeta in Hh. rewrite Hh. reflexivity.
Defined.

(** Property 5: seven entries of one host, five kept, the first five. *)
Example host_index_of_seven :
  map url <$> (snd (feed_maps sample_feed) !! lit "h.example")
  = Some [lit "http://h.example/a"; lit "http://h.example/b";
          lit "http://h.example/c"; lit "http://h.example/d";
          lit "http://h.example/e"]
  /\ map threat <$> (snd (feed_maps sample_feed) !! lit "h.example")
     = Some [lit "malware_download"; lit "malware_download"; lit "malware_download";
             lit "malware_download"; lit "malware_download"].
Proof. split; vm_compute; reflexivity. Qed.

(** Property 8: a URL that occurs twice is found once. *)
Example inspectText_duplicate :
  let r := fst (inspectText
                  (lit "check http://bad.example/a and http://bad.example/a again")
                  (fun _ => 0%Z) quiet (fun _ => 0%Z) World_new) in
  found r = 1 /\ length (urls r) = 1 /\ truncated r = false.
Proof. vm_compute. repeat split. Qed.

(** Property 9: nine URLs are found, six are inspected. *)
Example inspectText_nine :
  let r := fst (inspectText
                  (lit "http://a.example/1 http://a.example/2 http://a.example/3 www.b.example <https://c.example/x> http://d.example http://e.example http://f.example http://g.example")
                  (fun _ => 0%Z) quiet (fun _ => 0%Z) World_new) in
  found r = 9 /\ length (urls r) = 6 /\ truncated r = true
  /\ forallb ok (urls r) = true.
Proof. vm_compute. repeat split. Qed.

(** One refresh for the six inspections of a text, on a stale cache. *)
Example inspectText_one_refresh :
  let w := snd (inspectText
                  (lit "http://a.example/1 http://a.example/2 http://a.example/3 www.b.example <https://c.example/x> http://d.example http://e.example http://f.example http://g.example")
                  (fun _ => 900000%Z) quiet (fun _ => 900001%Z) World_new) in
  length (filter (fun r => r = URLHAUS_FEED) (requests w)) = 1
  /\ length (requests w) = 7
  /\ suspended w = [1].
Proof. vm_compute. repeat split. Qed.

Lemma normalizeUrl_output_witness :
  normalizeUrl (lit " " ++ sample_unicode_domain ++ lit "/A%2fb?Q=1#Frag ")
  = Some (lit "https://xn--bcher-kva.example/a%2fb?q=1")
  /\ toLowerCase (lit "https://xn--bcher-kva.example/a%2fb?q=1")
     = lit "https://xn--bcher-kva.example/a%2fb?q=1"
  /\ ~ In "#" (lit "https://xn--bcher-kva.example/a%2fb?q=1").
Proof.
  assert (H : normalizeUrl (lit " " ++ sample_unicode_domain ++ lit "/A%2fb?Q=1#Frag ")
              = Some (lit "https://xn--bcher-kva.example/a%2fb?q=1"))
    by (vm_compute; reflexivity).
  split; [exact H|].
  destruct (normalizeUrl_output _ _ H) as (_ & Hl & _ & Hn & _). split; assumption.
Defined.

Lemma normalizeUrl_blank_witness :
  trim [" "; "009"; ascii_of_N 194; ascii_of_N 160; "010"] = []
  /\ normalizeUrl [" "; "009"; ascii_of_N 194; ascii_of_N 160; "010"] = None.
Proof.
  split; [vm_compute; reflexivity|]. apply normalizeUrl_blank. vm_compute. reflexivity.
Defined.

Lemma matchAll_tokens_witness :
  In (lit "WWW.Example.org/x") (matchAll (lit "see <WWW.Example.org/x> now"))
  /\ forallb (fun c => negb (delimiter c)) (lit "WWW.Example.org/x") = true.
Proof.
  assert (H : In (lit "WWW.Example.org/x") (matchAll (lit "see <WWW.Example.org/x> now"))).
  { vm_compute. now left. }
  split; [exact H|]. now destruct (matchAll_tokens _ _ H) as (_ & _ & Hf).
Defined.

Lemma listed_by_host_witness :
  exists result,
    check_resume (lit "http://bad.example/other") (lit "bad.example")
      (Fulfilled (feed_snapshot sample_line 0))
    = Fulfilled result
    /\ listed result = true.
Proof.
  destruct (listed_by_host sample_line (lit "http://bad.example/other")
              (URL.mk (lit "http") [] [] (URL.Domain (lit "bad.example")) None
                 [lit "other"] None None)
              (feed_snapshot sample_line 0))
    as (result & Hr & Hl & _).
  - vm_compute. reflexivity.
  - reflexivity.
  - exists result. split; [exact Hr|]. apply Hl. vm_compute. discriminate.
Defined.

Lemma feed_line_quoted_row_witness :
  fst (feed_line (∅, ∅)
         (quoted_row [lit "1"; lit "2024-01-01"; lit "http://Bad.example/a/"]))
    !! lit "http://bad.example/a"
  = Some {| url := lit "http://bad.example/a"; threat := lit "listed";
            lastOnline := None |}.
Proof.
  pose proof (feed_line_quoted_row (∅, ∅)
                [lit "1"; lit "2024-01-01"; lit "http://Bad.example/a/"]) as H.
  destruct H as [_ H].
  - repeat constructor; vm_compute; intros Hin;
      repeat (apply elem_of_cons in Hin as [Hin|Hin]; [discriminate Hin|]);
      now apply elem_of_nil in Hin.
  - cbn. lia.
  - assert (E : normalizeUrl (default [] ([lit "1"; lit "2024-01-01"; lit "http://Bad.example/a/"] !! 2%nat))
                = Some (lit "http://bad.example/a")) by (vm_compute; reflexivity).
    rewrite E in H. rewrite H. cbn [fst]. rewrite lookup_insert_eq. reflexivity.
Defined.

Lemma feed_maps_by_entries_witness :
  feed_maps (lit "# comment" ++ "010" :: sample_line ++ "010" :: lit "short,line" ++ ["010"])
  = feed_maps sample_line.
Proof. apply feed_maps_by_entries. vm_compute. reflexivity. Defined.

Lemma refresh_then_load_witness :
  exists w2,
    load 1900001 (snd (fetchFeed_resume 0
                         (Fulfilled {| status := 200; text := Fulfilled sample_feed |})
                         1000001 (snd (load 1000000 World_new))))
    = (Pending 1, w2)
    /\ requests w2 = [URLHAUS_FEED; URLHAUS_FEED].
Proof.
  destruct (refresh_then_load 0 {| status := 200; text := Fulfilled sample_feed |}
              sample_feed 1000001 1900001 (snd (load 1000000 World_new)))
    as (snap & Hs & _ & Hstale); [reflexivity|reflexivity|].
  destruct (Hstale ltac:(vm_compute; discriminate)) as (w2 & Hl & Hr & _).
  exists w2. split; [exact Hl|exact Hr].
Defined.

Lemma failed_refresh_retries_witness :
  exists w2,
    load 1000002 (snd (fetchFeed_resume 0 (Fulfilled {| status := 503; text := Fulfilled [] |})
                         1000001 (snd (load 1000000 World_new))))
    = (Pending 1, w2)
    /\ requests w2 = [URLHAUS_FEED; URLHAUS_FEED]
    /\ suspended w2 = [1].
Proof.
  destruct (failed_refresh_retries 0 (Fulfilled {| status := 503; text := Fulfilled [] |})
              1000001 1000002 (snd (load 1000000 World_new))
              (Some (lit "URLHaus responded with 503")))
    as (_ & _ & Hstale); [reflexivity|].
  destruct (Hstale eq_refl) as (w2 & Hl & Hr & Hs).
  exists w2. split; [exact Hl|]. split; [exact Hr|exact Hs].
Defined.

Lemma reachable_cache_from_feed_witness :
  reachable (snd (load 900000 World_new))
  /\ requests (snd (load 900000 World_new)) !! 0%nat = Some URLHAUS_FEED.
Proof.
  assert (Hr : reachable (snd (load 900000 World_new))).
  { exact (reachable_step _ _ reachable_new (step_load 900000 World_new)). }
  split; [exact Hr|].
  destruct (reachable_cache_from_feed _ Hr) as (_ & _ & _ & Hl & _).
  apply Hl. reflexivity.
Defined.

Lemma phish_request_carries_host_witness :
  requests (snd (checkPhishFeed_call (lit "http://A$b.Example/x") World_new))
  = [lit "https://phish.sinking.yachts/v2/check/a%24b.example"].
Proof.
  destruct (phish_request_carries_host (lit "http://A$b.Example/x")
              (lit "http://a$b.example/x")
              (URL.mk (lit "http") [] [] (URL.Domain (lit "a$b.example")) None
                 [lit "x"] None None)
              World_new)
    as (Hr & _).
  - vm_compute. reflexivity.
  - vm_compute. reflexivity.
  - rewrite Hr. reflexivity.
Defined.

Lemma inspectUrl_lookups_witness :
  requests (snd (inspectUrl (lit "WWW.Example.com//") 900000 quiet 900001 World_new))
  = [lit "https://phish.sinking.yachts/v2/check/www.example.com"; URLHAUS_FEED].
Proof.
  destruct (inspectUrl_lookups (lit "WWW.Example.com//") (lit "https://www.example.com/")
              900000 quiet 900001 World_new) as (parsed & sources & Hp & _ & Hr1 & Hr & _).
  - vm_compute. reflexivity.
  - rewrite Hr, Hr1.
    assert (E : URL.hostname parsed = lit "www.example.com").
    { vm_compute in Hp. injection Hp as <-. vm_compute. reflexivity. }
    rewrite E. vm_compute. reflexivity.
Defined.

Lemma inspectUrl_isolates_failures_witness :
  exists result,
    fst (inspectUrl (sample_unicode_domain ++ lit "/login") 0 quiet 1 World_new)
    = Fulfilled result
    /\ ok result = true.
Proof.
  destruct (inspectUrl_isolates_failures (sample_unicode_domain ++ lit "/login")
              0 quiet 1 World_new) as (result & Hr & Hok & _).
  exists result. split; [exact Hr|].
  destruct Hok as [Hok _]. destruct (ok result); [reflexivity|].
  specialize (Hok eq_refl). vm_compute in Hok. discriminate Hok.
Defined.


Lemma url_index_last_wins_witness :
  fst (feed_maps sample_line) !! lit "http://bad.example/a"
  = Some {| url := lit "http://bad.example/a"; threat := lit "listed";
            lastOnline := None |}.
Proof.
  destruct (url_index_last_wins sample_line (lit "http://bad.example/a")) as [H _].
  rewrite H. vm_compute. reflexivity.
Defined.

Lemma feed_indexes_agree_witness :
  exists entries,
    snd (feed_maps sample_line) !! lit "bad.example" = Some entries
    /\ entries <> [].
Proof.
  destruct (feed_indexes_agree sample_line) as [H _].
  apply (H (lit "http://bad.example/a")
           {| url := lit "http://bad.example/a"; threat := lit "listed";
              lastOnline := None |}).
  - vm_compute. reflexivity.
  - vm_compute. reflexivity.
Defined.

Lemma lookups_reject_invalid_witness :
  check (lit "   ") 0 quiet World_new
  = (Rejected (Some (lit "Invalid URL")), World_new).
Proof.
  destruct (lookups_reject_invalid (lit "   ") 0 quiet World_new) as [H _].
  apply H. vm_compute. reflexivity.
Defined.


Lemma osint_link_replies_witness :
  reply_status (fst (osint_link (Some (lit " https://[::1]/x ")) 0 quiet 1 World_new))
  <> 500%N.
Proof.
  destruct (osint_link_replies (Some (lit " https://[::1]/x ")) 0 quiet 1 World_new)
    as (_ & _ & H).
  exact H.
Defined.

(** Hosts that the platform decides, and a path with [^], normalised on the
    sample platform. *)
Example normalizeUrl_platform_hosts :
  normalizeUrl (lit "HTTP://" ++ sample_unicode_domain ++ lit "/Path/")
  = Some (lit "http://xn--bcher-kva.example/path")
  /\ normalizeUrl (lit "http://xn--bcher-kva.example/")
     = Some (lit "http://xn--bcher-kva.example")
  /\ normalizeUrl (lit "ex" ++ [ascii_of_N 195; ascii_of_N 164] ++ lit "mple.com")
     = Some (lit "https://xn--exmple-cua.com")
  /\ normalizeUrl (lit "[::1]") = Some (lit "https://[::1]")
  /\ normalizeUrl (lit "[::1") = None
  /\ normalizeUrl (lit "example.com/a^b") = Some (lit "https://example.com/a^b").
Proof. repeat split; vm_compute; reflexivity. Qed.

End Samples.
